(** * A shallow embedding of the backup client's versioned content store

    The development follows the Go sources of the client:
    - [internal/crypto]  : key handling, AES-256-GCM sealing, gzip framing;
    - [internal/catalog] : the SQLite catalog [dosyalar] and its queries;
    - [internal/backup]  : the incremental scanner, the session driver [Run]
      with its packing loop, and the restore request builders.

    Library code (Go's standard library, the SQLite driver, the operating
    system) appears as Section variables or as fields of an environment
    record, together with the part of its contract the proofs rely on. *)

From Stdlib Require Import String Ascii.
From Stdlib.Strings Require Import Byte.
From Stdlib Require Import List ZArith Lia Bool Permutation Sorted.
From Stdlib Require Import DecimalString.
Import ListNotations.
Open Scope string_scope.
Open Scope list_scope.
Open Scope Z_scope.

(** ** Go's [(value, error)] results *)

Inductive result (A : Type) : Type :=
| Ok  (a : A)
| Err (msg : string).
Arguments Ok {A} a.
Arguments Err {A} msg.

Definition bind {A B : Type} (r : result A) (k : A -> result B) : result B :=
  match r with
  | Ok a => k a
  | Err e => Err e
  end.

Notation "x <~ r ;; k" := (bind r (fun x => k))
  (at level 61, r at next level, right associativity).

Definition bytes := list byte.

(** * internal/crypto *)

Module Crypto.

Definition keySize : nat := 32.

(** [gcm.NonceSize()] of the standard GCM construction. *)
Definition NonceSize : nat := 12.

(** [strconv.Itoa] on a length. *)
Definition Itoa (n : nat) : string := NilEmpty.string_of_uint (Nat.to_uint n).

(** [aes.NewCipher]: only 16, 24 and 32 byte keys are accepted; the error
    is [aes.KeySizeError], which prints the size. *)
Definition NewCipher (key : bytes) : result bytes :=
  if existsb (Nat.eqb (length key)) [16%nat; 24%nat; 32%nat]
  then Ok key
  else Err ("crypto/aes: invalid key size " ++ Itoa (length key))%string.

(** [cipher.NewGCM] never fails on an AES block. *)
Definition NewGCM (block : bytes) : result bytes := Ok block.

(** [io.ReadFull(rand.Reader, buf)]: either the whole buffer is filled or
    an error is reported. *)
Definition ReadFull (rnd : nat -> result bytes) (n : nat) : result bytes :=
  b <~ rnd n ;;
  if Nat.eqb (length b) n then Ok b else Err "unexpected EOF".

Section Primitives.

(** [gcm.Seal(nil, nonce, plaintext, nil)] and
    [gcm.Open(nil, nonce, ciphertext, nil)] under a given key. *)
Variable gcm_seal : bytes -> bytes -> bytes -> bytes.
Variable gcm_open : bytes -> bytes -> bytes -> result bytes.

(** A gzip writer drained into a [bytes.Buffer], and a gzip reader read to
    the end by [io.ReadAll]. *)
Variable gzip : bytes -> result bytes.
Variable gunzip : bytes -> result bytes.

(** The operating system's random source: [rnd n] asks for [n] bytes. *)
Variable rnd : nat -> result bytes.

Definition Encrypt (data key : bytes) : result bytes :=
  block <~ NewCipher key ;;
  gcm <~ NewGCM block ;;
  nonce <~ ReadFull rnd NonceSize ;;
  (* gcm.Seal(nonce, nonce, data, nil) appends to its first argument *)
  Ok (nonce ++ gcm_seal gcm nonce data).

Definition Decrypt (data key : bytes) : result bytes :=
  block <~ NewCipher key ;;
  gcm <~ NewGCM block ;;
  let nonceSize := NonceSize in
  if Nat.ltb (length data) nonceSize then Err "ciphertext too short"
  else
    let nonce := firstn nonceSize data in
    let ciphertext := skipn nonceSize data in
    gcm_open gcm nonce ciphertext.

Definition CompressAndEncrypt (data key : bytes) : result bytes :=
  buf <~ gzip data ;;
  Encrypt buf key.

Definition DecryptAndDecompress (data key : bytes) : result bytes :=
  compressed <~ Decrypt data key ;;
  gunzip compressed.

End Primitives.

(** ** Files

    The part of the file system the crypto package touches: what reading a
    path yields, the paths that cannot be opened for writing, and the paths
    on which a write breaks off (with the number of bytes that got
    through). *)
Record FS : Type := mkFS {
  content     : string -> result bytes;
  deny_write  : string -> option string;
  short_write : string -> option (string * nat)
}.

(** [os.ReadFile]. *)
Definition ReadFile (fs : FS) (path : string) : result bytes :=
  content fs path.

Definition store (fs : FS) (path : string) (data : bytes) : FS :=
  {| content := fun q => if String.eqb q path then Ok data else content fs q;
     deny_write := deny_write fs;
     short_write := short_write fs |}.

(** [os.WriteFile]: the file is created or truncated, then written; when
    opening fails nothing changes, when the write or the close fails the
    file is left with what was written so far. *)
Definition WriteFile (fs : FS) (path : string) (data : bytes)
  : option string * FS :=
  match deny_write fs path with
  | Some e => (Some e, fs)
  | None =>
      match short_write fs path with
      | Some (e, n) => (Some e, store fs path (firstn n data))
      | None => (None, store fs path data)
      end
  end.

Section Files.

Variable gcm_seal : bytes -> bytes -> bytes -> bytes.
Variable gcm_open : bytes -> bytes -> bytes -> result bytes.
Variable gzip : bytes -> result bytes.
Variable gunzip : bytes -> result bytes.
Variable rnd : nat -> result bytes.

(** [crypto.HashPath]: SHA-224 of the path, in hex. *)
Variable HashPath : string -> string.

(** [EncryptFile]: reads, compresses, encrypts and writes to destination;
    returns the encrypted size. *)
Definition EncryptFile (src dst : string) (key : bytes) (fs : FS)
  : result Z * FS :=
  match ReadFile fs src with
  | Err e => (Err e, fs)
  | Ok data =>
      match CompressAndEncrypt gcm_seal gzip rnd data key with
      | Err e => (Err e, fs)
      | Ok encrypted =>
          match WriteFile fs dst encrypted with
          | (Some e, fs') => (Err e, fs')
          | (None, fs') => (Ok (Z.of_nat (length encrypted)), fs')
          end
      end
  end.

(** [DecryptFile]: decrypts a file and writes to destination. *)
Definition DecryptFile (src dst : string) (key : bytes) (fs : FS)
  : option string * FS :=
  match ReadFile fs src with
  | Err e => (Some e, fs)
  | Ok data =>
      match DecryptAndDecompress gcm_open gunzip data key with
      | Err e => (Some e, fs)
      | Ok decrypted => WriteFile fs dst decrypted
      end
  end.

(** [EncryptToHashedFile]: the destination is [destDir/{hash}.enc]. *)
Definition EncryptToHashedFile (srcPath destDir : string) (key : bytes)
           (fs : FS) : result (string * Z) * FS :=
  let hashedName := HashPath srcPath in
  let destPath := (destDir ++ "/" ++ hashedName ++ ".enc")%string in
  match EncryptFile srcPath destPath key fs with
  | (Err e, fs') => (Err e, fs')
  | (Ok size, fs') => (Ok (hashedName, size), fs')
  end.

End Files.

(** A toy instance of the primitives (stored gzip, a keyless cipher that
    appends a one-byte tag, a constant nonce source), used to run the
    definitions on concrete bytes. *)
Module Toy.

Definition seal (k n x : bytes) : bytes := x ++ [x2a%byte].

Definition open (k n c : bytes) : result bytes :=
  match rev c with
  | x2a%byte :: r => Ok (rev r)
  | _ => Err "cipher: message authentication failed"
  end.

Definition gzip (x : bytes) : result bytes := Ok (x1f%byte :: x).

Definition gunzip (z : bytes) : result bytes :=
  match z with
  | x1f%byte :: x => Ok x
  | _ => Err "gzip: invalid header"
  end.

Definition rnd (n : nat) : result bytes := Ok (repeat x07%byte n).

Definition key : bytes := repeat x01%byte 32.

End Toy.

End Crypto.

(** * internal/catalog *)

Module Catalog.

(** Go's [error] values: [None] is [nil]. *)
Definition error := option string.

(** Go's [time.Time], as far as the catalog can tell two values apart:
    the instant, in nanoseconds since the Unix epoch, and the offset from
    UTC in effect at it, in minutes east.  [time.Now] and
    [time.ParseInLocation] with [time.Local] carry the local offset,
    [time.Parse] without a zone in the layout carries 0.  Written where a
    number is expected, a time stands for its instant. *)
Record time : Type := mkTime {
  unixNano : Z;
  zone     : Z
}.
Coercion unixNano : time >-> Z.

Definition Second : Z := 1000000000.
Definition Minute : Z := 60 * Second.

(** [t.Add(d)]; the offset of [t] is taken to be in effect at the new
    instant too. *)
Definition Add (t : time) (d : Z) : time :=
  {| unixNano := unixNano t + d; zone := zone t |}.

(** Where a time is expected, [t + d] and [t - d] are [t.Add(d)] and
    [t.Add(-d)]. *)
Declare Scope time_scope.
Delimit Scope time_scope with time.
Bind Scope time_scope with time.
Notation "t + d" := (Add t d) : time_scope.
Notation "t - d" := (Add t (- d)) : time_scope.

Definition time_eq_dec (a b : time) : {a = b} + {a <> b}.
Proof. decide equality; apply Z.eq_dec. Defined.

(** ** The column [tarih]

    The go-sqlite3 driver binds a [time.Time] as the text
    [2006-01-02 15:04:05.999999999-07:00]: the reading of the wall clock in
    the value's own zone, then the offset; scanning the column gives back
    the same instant and offset.  SQLite compares, orders and groups these
    texts byte by byte, whatever instants they denote.  For the years 0000
    to 9999 the order of two texts is the order of the wall-clock readings
    (date and time have a fixed width, the fraction drops its trailing
    zeros, and both signs sort before the dot and the digits) and, for
    equal readings, the order of the offsets as text: [+] before [-], then
    hours and minutes. *)
Definition wall (t : time) : Z := unixNano t + zone t * Minute.

Definition offset_compare (a b : Z) : comparison :=
  match a <? 0, b <? 0 with
  | false, true => Lt
  | true, false => Gt
  | _, _ => Z.abs a ?= Z.abs b
  end.

Definition tarih_compare (a b : time) : comparison :=
  match wall a ?= wall b with
  | Eq => offset_compare (zone a) (zone b)
  | c => c
  end.

(** [a <= b], [a < b] and [a = b] on the stored texts. *)
Definition tarih_leb (a b : time) : bool :=
  match tarih_compare a b with Gt => false | _ => true end.

Definition tarih_ltb (a b : time) : bool :=
  match tarih_compare a b with Lt => true | _ => false end.

Definition tarih_eqb (a b : time) : bool :=
  match tarih_compare a b with Eq => true | _ => false end.

(** One row of the table [dosyalar]:
    [tarih, dizin, adi, yeni_adi, hash_degeri, boyu, paketli_boyu]. *)
Record FileEntry : Type := mkFileEntry {
  Timestamp   : time;
  Directory   : string;
  OrigPath    : string;
  HashedName  : string;
  ContentHash : string;
  Size        : Z;
  PackedSize  : Z
}.

(** The catalog handle: the rows of [dosyalar] in rowid order, and the state
    of the connection ([Some e]: every statement fails with [e]). *)
Record Catalog : Type := mkCatalog {
  dosyalar : list FileEntry;
  db_err   : error
}.

Definition with_rows (c : Catalog) (rows : list FileEntry) : Catalog :=
  {| dosyalar := rows; db_err := db_err c |}.

(** ** SQL building blocks *)

(** [ORDER BY tarih DESC LIMIT 1]: the index on [tarih] is walked
    backwards, so among rows of equal [tarih] the one inserted last comes
    first. *)
Fixpoint newest (rows : list FileEntry) : option FileEntry :=
  match rows with
  | [] => None
  | e :: rest =>
      match newest rest with
      | None => Some e
      | Some m =>
          if tarih_ltb (Timestamp m) (Timestamp e) then Some e else Some m
      end
  end.

(** The row that supplies the bare columns beside [MAX(tarih)]: the first
    one, in rowid order, to reach the maximum. *)
Fixpoint max_row (rows : list FileEntry) : option FileEntry :=
  match rows with
  | [] => None
  | e :: rest =>
      match max_row rest with
      | None => Some e
      | Some m =>
          if tarih_leb (Timestamp m) (Timestamp e) then Some e else Some m
      end
  end.

(** [SELECT MAX(tarih)]: NULL on an empty set of rows. *)
Definition max_tarih (rows : list FileEntry) : option time :=
  option_map Timestamp (newest rows).

Definition adi_is (p : string) (e : FileEntry) : bool :=
  String.eqb (OrigPath e) p.

(** [tarih <= ?]. *)
Definition not_after (t : time) (e : FileEntry) : bool :=
  tarih_leb (Timestamp e) t.

(** [GROUP BY adi] with bare columns: one row per distinct [adi], taken from
    the first row of the group. *)
Fixpoint group_by_adi_from (seen : list string) (rows : list FileEntry)
  : list FileEntry :=
  match rows with
  | [] => []
  | e :: rest =>
      if existsb (String.eqb (OrigPath e)) seen
      then group_by_adi_from seen rest
      else e :: group_by_adi_from (OrigPath e :: seen) rest
  end.

Definition group_by_adi := group_by_adi_from [].

(** SQLite's [LIKE] reads both texts character by character with
    [sqlite3Utf8Read]: a byte below 0xC0 is a character by itself, a byte
    from 0xC0 on takes with it every continuation byte (10xxxxxx) that
    follows, and the text ends at the first zero byte.  Characters are
    compared by their code, computed in 32 bits; codes below 0x80 that come
    out of a multi-byte sequence, surrogates, 0xFFFE and 0xFFFF are
    replaced by 0xFFFD. *)
Definition utf8_first (n : Z) : Z :=
  if n <? 224 then n - 192
  else if n <? 240 then n - 224
  else if n <? 248 then n - 240
  else if n <? 252 then n - 248
  else if n <? 254 then n - 252
  else 0.

Definition utf8_more (c n : Z) : Z :=
  (Z.shiftl c 6 + Z.land 63 n) mod 2 ^ 32.

Definition utf8_close (c : Z) : Z :=
  if ((c <? 128) || (Z.land c 4294965248 =? 55296)
      || (Z.land c 4294967294 =? 65534))%bool
  then 65533 else c.

(** The characters of a text; [open] is the multi-byte character being
    read, if any. *)
Fixpoint utf8_from (open : option Z) (s : string) : list Z :=
  let closed := match open with Some c => [utf8_close c] | None => [] end in
  match s with
  | EmptyString => closed
  | String b s' =>
      let n := Z.of_nat (nat_of_ascii b) in
      match open with
      | Some c =>
          if Z.land n 192 =? 128 then utf8_from (Some (utf8_more c n)) s'
          else if n =? 0 then closed
          else if 192 <=? n then closed ++ utf8_from (Some (utf8_first n)) s'
          else closed ++ n :: utf8_from None s'
      | None =>
          if n =? 0 then []
          else if 192 <=? n then utf8_from (Some (utf8_first n)) s'
          else n :: utf8_from None s'
      end
  end.

Definition utf8_chars (s : string) : list Z := utf8_from None s.

(** [sqlite3Tolower] on a character below 0x80. *)
Definition fold_case (c : Z) : Z :=
  if ((65 <=? c) && (c <=? 90))%bool then c + 32 else c.

(** Two characters match when they are equal or, both below 0x80, equal
    without regard to case. *)
Definition same_char (c d : Z) : bool :=
  ((c =? d)
   || ((c <? 128) && (d <? 128) && (fold_case c =? fold_case d)))%bool.

(** [%] (37) matches any run of characters, [_] (95) any one character. *)
Fixpoint like_chars (pat s : list Z) : bool :=
  match pat with
  | [] => match s with [] => true | _ => false end
  | c :: pat' =>
      if c =? 37 then
        (fix any (s : list Z) : bool :=
           (like_chars pat' s ||
            match s with
            | [] => false
            | _ :: s' => any s'
            end)%bool) s
      else
        match s with
        | [] => false
        | d :: s' =>
            (((c =? 95) || same_char c d) && like_chars pat' s')%bool
        end
  end.

Definition like (pat s : string) : bool :=
  like_chars (utf8_chars pat) (utf8_chars s).


(** ** The schema

    [initSchema] declares the seven columns with no PRIMARY KEY and no UNIQUE
    constraint, and two plain indexes ([dosyalar_ndx], [hash_ndx]).  The
    table therefore has no uniqueness constraint at all; the list below is
    what [INSERT OR REPLACE] consults. *)
Definition unique_constraints : list (FileEntry -> FileEntry -> bool) := [].

(** [INSERT INTO dosyalar VALUES (...)]. *)
Definition insert (rows : list FileEntry) (e : FileEntry) : list FileEntry :=
  rows ++ [e].

(** [INSERT OR REPLACE INTO dosyalar VALUES (...)]: rows that collide with the
    new one on a uniqueness constraint are deleted, then the row is added. *)
Definition insert_or_replace (rows : list FileEntry) (e : FileEntry)
  : list FileEntry :=
  filter (fun r => negb (existsb (fun same => same r e) unique_constraints))
         rows ++ [e].

(** ** Transactions

    What can go wrong inside one transaction: [Begin], [Prepare], the
    statement executed for the i-th row, [Commit]. *)
Record TxFaults : Type := mkTxFaults {
  begin_err   : error;
  prepare_err : error;
  exec_err    : nat -> error;
  commit_err  : error
}.

Definition no_faults : TxFaults :=
  {| begin_err := None; prepare_err := None;
     exec_err := fun _ => None; commit_err := None |}.

(** An open transaction: the rows as they were at [Begin] and the rows as the
    transaction sees them. *)
Record Tx : Type := mkTx {
  tx_base : list FileEntry;
  tx_rows : list FileEntry
}.

Definition Begin (c : Catalog) (f : TxFaults) : result Tx :=
  match db_err c with
  | Some e => Err e
  | None =>
      match begin_err f with
      | Some e => Err e
      | None => Ok {| tx_base := dosyalar c; tx_rows := dosyalar c |}
      end
  end.

Definition Rollback (c : Catalog) (tx : Tx) : Catalog :=
  with_rows c (tx_base tx).

(** A failed [Commit] leaves the database as it was at [Begin]. *)
Definition Commit (c : Catalog) (f : TxFaults) (tx : Tx) : error * Catalog :=
  match commit_err f with
  | Some e => (Some e, Rollback c tx)
  | None => (None, with_rows c (tx_rows tx))
  end.

(** The row loop of a prepared statement [stmt]; [i] is the index of the
    next row. *)
Fixpoint exec_rows (stmt : list FileEntry -> FileEntry -> list FileEntry)
         (f : TxFaults) (i : nat) (entries : list FileEntry) (tx : Tx)
  : result Tx :=
  match entries with
  | [] => Ok tx
  | e :: rest =>
      match exec_err f i with
      | Some err => Err err
      | None =>
          exec_rows stmt f (S i) rest
                    {| tx_base := tx_base tx; tx_rows := stmt (tx_rows tx) e |}
      end
  end.

(** ** Operations *)

Definition ClearAll (c : Catalog) : error * Catalog :=
  match db_err c with
  | Some e => (Some e, c)
  | None => (None, with_rows c [])
  end.

Definition AddEntries (c : Catalog) (f : TxFaults) (entries : list FileEntry)
  : error * Catalog :=
  match Begin c f with
  | Err e => (Some e, c)
  | Ok tx =>
      match prepare_err f with
      | Some e => (Some e, Rollback c tx)
      | None =>
          match exec_rows insert f 0 entries tx with
          | Err e => (Some e, Rollback c tx)
          | Ok tx' => Commit c f tx'
          end
      end
  end.

Definition GetLatestVersion (c : Catalog) (origPath : string)
  : result (option FileEntry) :=
  match db_err c with
  | Some e => Err e
  | None => Ok (newest (filter (adi_is origPath) (dosyalar c)))
  end.

(** Outcome of a call that may panic. *)
Inductive outcome (A : Type) : Type :=
| Return (a : A)
| Panic (msg : string).
Arguments Return {A} a.
Arguments Panic {A} msg.

(** [s[:8]] panics on a string shorter than eight bytes. *)
Definition can_slice8 (s : string) : bool := Nat.leb 8 (String.length s).

(** [NeedsBackup]; the size argument is accepted and not consulted.  The
    "CHANGED" log line slices both hashes to eight bytes. *)
Definition NeedsBackup (c : Catalog) (origPath currentHash : string)
           (currentSize : Z) : outcome (result bool) :=
  match GetLatestVersion c origPath with
  | Err e => Return (Err e)
  | Ok None => Return (Ok true)
  | Ok (Some latest) =>
      if negb (String.eqb (ContentHash latest) currentHash) then
        if (can_slice8 (ContentHash latest) && can_slice8 currentHash)%bool
        then Return (Ok true)
        else Panic "slice bounds out of range"
      else Return (Ok false)
  end.

(** [GetFilesAtTime]: the join of [dosyalar] with the per-path maxima among
    the rows with [tarih <= targetTime]; the bound is [targetTime] itself.
    The grouped sub-query drives the join, so the rows come out path by
    path in the order of [adi], and in rowid order within a path. *)
Definition max_per_adi (rows : list FileEntry) : list (string * time) :=
  flat_map (fun g =>
              match max_tarih (filter (adi_is (OrigPath g)) rows) with
              | Some m => [(OrigPath g, m)]
              | None => []
              end)
           (group_by_adi rows).

Fixpoint insert_by_adi (g : string * time) (l : list (string * time))
  : list (string * time) :=
  match l with
  | [] => [g]
  | x :: rest =>
      if String.leb (fst g) (fst x) then g :: l else x :: insert_by_adi g rest
  end.

Definition order_by_adi (l : list (string * time)) : list (string * time) :=
  fold_right insert_by_adi [] l.

(** [d1.adi = d2.adi AND d1.tarih = d2.max_tarih]. *)
Definition joins (d1 : FileEntry) (d2 : string * time) : bool :=
  (String.eqb (OrigPath d1) (fst d2)
   && tarih_eqb (Timestamp d1) (snd d2))%bool.

Definition GetFilesAtTime (c : Catalog) (targetTime : time)
  : result (list FileEntry) :=
  match db_err c with
  | Some e => Err e
  | None =>
      let d2 := order_by_adi
                  (max_per_adi (filter (not_after targetTime) (dosyalar c))) in
      Ok (flat_map (fun g => filter (fun d1 => joins d1 g) (dosyalar c)) d2)
  end.

Definition GetFileAtTime (c : Catalog) (origPath : string) (targetTime : time)
  : result (option FileEntry) :=
  let searchTime := Add targetTime Second in
  match db_err c with
  | Some e => Err e
  | None =>
      Ok (newest (filter (fun e => adi_is origPath e && not_after searchTime e)%bool
                         (dosyalar c)))
  end.

(** The correlated sub-query
    [tarih = (SELECT MAX(d2.tarih) FROM dosyalar d2
              WHERE d2.adi = d1.adi AND d2.tarih <= ?)]. *)
Definition is_latest_at (rows : list FileEntry) (searchTime : time)
           (d1 : FileEntry) : bool :=
  match max_tarih (filter (fun d2 => adi_is (OrigPath d1) d2
                                     && not_after searchTime d2)%bool rows) with
  | Some m => tarih_eqb (Timestamp d1) m
  | None => false
  end.

Definition GetFilesInDirAtTime (c : Catalog) (dirPath : string)
           (targetTime : time) : result (list FileEntry) :=
  let searchTime := Add targetTime Second in
  match db_err c with
  | Some e => Err e
  | None =>
      Ok (group_by_adi
            (filter (fun d1 => like (dirPath ++ "%")%string (OrigPath d1)
                               && is_latest_at (dosyalar c) searchTime d1)%bool
                    (dosyalar c)))
  end.

(** [ImportFromFile]: [src] is what the [SELECT] on the snapshot database
    yields. *)
Definition ImportFromFile (c : Catalog) (src : result (list FileEntry))
           (f : TxFaults) : error * Catalog :=
  match src with
  | Err e => (Some e, c)
  | Ok rows =>
      match Begin c f with
      | Err e => (Some e, c)
      | Ok tx =>
          match prepare_err f with
          | Some e => (Some e, Rollback c tx)
          | None =>
              match exec_rows insert_or_replace f 0 rows tx with
              | Err e => (Some e, Rollback c tx)
              | Ok tx' => Commit c f tx'
              end
          end
      end
  end.

(** [ExportToFile] copies every row into a fresh database. *)
Definition ExportToFile (c : Catalog) : result (list FileEntry) :=
  match db_err c with
  | Some e => Err e
  | None => Ok (dosyalar c)
  end.

(** [ORDER BY dizin, adi] under SQLite's bytewise collation. *)
Definition dizin_adi_leb (a b : FileEntry) : bool :=
  match String.compare (Directory a) (Directory b) with
  | Lt => true
  | Gt => false
  | Eq => String.leb (OrigPath a) (OrigPath b)
  end.

Fixpoint insert_sorted (e : FileEntry) (l : list FileEntry) : list FileEntry :=
  match l with
  | [] => [e]
  | x :: rest =>
      if dizin_adi_leb e x then e :: l else x :: insert_sorted e rest
  end.

Definition order_by_dizin_adi (l : list FileEntry) : list FileEntry :=
  fold_right insert_sorted [] l.

(** A file with its version info, as shown by the time-travel view. *)
Record CatalogFileInfo : Type := mkCatalogFileInfo {
  InfoOrigPath      : string;
  InfoDirectory     : string;
  InfoFileName      : string;
  InfoLatestVersion : time;
  InfoVersionCount  : Z;
  InfoSize          : Z
}.

Section FilesAtTimestamp.

(** [filepath.Base]. *)
Variable Base : string -> string.

(** [GetFilesAtTimestamp]: per path, the row that was current at
    [ts + 1s], with the number of versions up to then.  The timestamp
    column is read back as text and parsed; the parsed time is the stored
    one, instant and offset. *)
Definition GetFilesAtTimestamp (c : Catalog) (ts : time)
  : result (list CatalogFileInfo) :=
  let searchTime := Add ts Second in
  match db_err c with
  | Some e => Err e
  | None =>
      let rows :=
        order_by_dizin_adi
          (group_by_adi (filter (is_latest_at (dosyalar c) searchTime)
                                (dosyalar c))) in
      Ok (map (fun d1 =>
                 {| InfoOrigPath := OrigPath d1;
                    InfoDirectory := Directory d1;
                    InfoFileName := Base (OrigPath d1);
                    InfoLatestVersion := Timestamp d1;
                    InfoVersionCount :=
                      Z.of_nat (length (filter
                        (fun d2 => adi_is (OrigPath d1) d2
                                   && not_after searchTime d2)%bool
                        (dosyalar c)));
                    InfoSize := Size d1 |})
              rows)
  end.

End FilesAtTimestamp.

(** Order of the stored texts: at or before, and strictly after. *)
Definition tarih_le (a b : time) : Prop := tarih_leb a b = true.
Definition tarih_gt (a b : time) : Prop := tarih_ltb b a = true.

(** What the correlated sub-query selects: the versions that are last of
    their path among those stored at or before [t], in the order of the
    stored texts. *)
Definition tarih_latest_at (rows : list FileEntry) (t : time) (e : FileEntry)
  : Prop :=
  tarih_le (Timestamp e) t /\
  forall e', In e' rows -> OrigPath e' = OrigPath e ->
             tarih_le (Timestamp e') t ->
             tarih_le (Timestamp e') (Timestamp e).

(** The same, read on instants. *)
Definition latest_at (rows : list FileEntry) (t : time) (e : FileEntry)
  : Prop :=
  Timestamp e <= t /\
  forall e', In e' rows -> OrigPath e' = OrigPath e -> Timestamp e' <= t ->
             Timestamp e' <= Timestamp e.

(** The rows were all stored under the offset [z]. *)
Definition stored_in_zone (z : Z) (rows : list FileEntry) : Prop :=
  forall e, In e rows -> zone (Timestamp e) = z.

(** A content hash is the hex form of a SHA-256 digest: 64 characters. *)
Definition is_content_hash (h : string) : Prop := String.length h = 64%nat.

(** Every stored [hash_degeri] is a content hash. *)
Definition content_hashes_ok (c : Catalog) : Prop :=
  forall e, In e (dosyalar c) -> is_content_hash (ContentHash e).

(** ** Further operations of the catalog *)

(** [sql.ErrNoRows]. *)
Definition ErrNoRows : string := "sql: no rows in result set".

(** [AddEntry]: one [INSERT] outside any transaction. *)
Definition AddEntry (c : Catalog) (entry : FileEntry) : error * Catalog :=
  match db_err c with
  | Some e => (Some e, c)
  | None => (None, with_rows c (insert (dosyalar c) entry))
  end.

Definition set_packed (packedSize : Z) (r : FileEntry) : FileEntry :=
  {| Timestamp := Timestamp r; Directory := Directory r;
     OrigPath := OrigPath r; HashedName := HashedName r;
     ContentHash := ContentHash r; Size := Size r;
     PackedSize := packedSize |}.

(** [UPDATE dosyalar SET paketli_boyu = ? WHERE adi = ?]. *)
Definition UpdatePackedSize (c : Catalog) (origPath : string) (packedSize : Z)
  : error * Catalog :=
  match db_err c with
  | Some e => (Some e, c)
  | None =>
      (None,
       with_rows c (map (fun r => if adi_is origPath r
                                  then set_packed packedSize r else r)
                        (dosyalar c)))
  end.

(** [SELECT COUNT( * ) FROM dosyalar WHERE adi = ?], then [count > 0]. *)
Definition FileExists (c : Catalog) (origPath : string) : result bool :=
  match db_err c with
  | Some e => Err e
  | None =>
      Ok (0 <? Z.of_nat (length (filter (adi_is origPath) (dosyalar c))))
  end.

(** A single version of a file for history display. *)
Record FileVersion : Type := mkFileVersion {
  VTimestamp   : time;
  VContentHash : string;
  VSize        : Z
}.

(** [ORDER BY tarih DESC], by the backward walk of the index: among rows
    of equal [tarih] the later rowid comes first. *)
Fixpoint insert_desc (e : FileEntry) (l : list FileEntry) : list FileEntry :=
  match l with
  | [] => [e]
  | x :: rest =>
      if tarih_ltb (Timestamp x) (Timestamp e) then e :: l
      else x :: insert_desc e rest
  end.

Definition order_by_tarih_desc (l : list FileEntry) : list FileEntry :=
  fold_right insert_desc [] l.

Definition version_of (e : FileEntry) : FileVersion :=
  {| VTimestamp := Timestamp e; VContentHash := ContentHash e;
     VSize := Size e |}.

(** [GetFileHistory]: all versions of a file, newest first. *)
Definition GetFileHistory (c : Catalog) (origPath : string)
  : result (list FileVersion) :=
  match db_err c with
  | Some e => Err e
  | None =>
      Ok (map version_of
              (order_by_tarih_desc (filter (adi_is origPath) (dosyalar c))))
  end.

(** Descending order of the stored texts. *)
Fixpoint insert_time_desc (t : time) (l : list time) : list time :=
  match l with
  | [] => [t]
  | x :: rest =>
      if tarih_leb x t then t :: l else x :: insert_time_desc t rest
  end.

(** [SELECT DISTINCT tarih FROM dosyalar ORDER BY tarih DESC]: the
    distinct stored texts, each scanned back into a time. *)
Definition GetBackupDates (c : Catalog) : result (list time) :=
  match db_err c with
  | Some e => Err e
  | None =>
      Ok (fold_right insert_time_desc []
                     (nodup time_eq_dec (map Timestamp (dosyalar c))))
  end.

(** [stripEncExtension]: drops one trailing [".enc"] from a name of more
    than four bytes. *)
Definition stripEncExtension (name : string) : string :=
  let n := String.length name in
  if (Nat.ltb 4 n && String.eqb (substring (n - 4) 4 name) ".enc")%bool
  then substring 0 (n - 4) name
  else name.

(** [SELECT adi FROM dosyalar WHERE yeni_adi = ?], first row. *)
Definition GetOriginalPath (c : Catalog) (hashedName : string) : result string :=
  let hashedName := stripEncExtension hashedName in
  match db_err c with
  | Some e => Err e
  | None =>
      match filter (fun r => String.eqb (HashedName r) hashedName)
                   (dosyalar c) with
      | [] => Err ErrNoRows
      | r :: _ => Ok (OrigPath r)
      end
  end.

(** [SELECT DISTINCT adi FROM dosyalar]. *)
Definition GetAllFiles (c : Catalog) : result (list string) :=
  match db_err c with
  | Some e => Err e
  | None => Ok (nodup string_dec (map OrigPath (dosyalar c)))
  end.

(** SQLite's [SUM] over integers: NULL on no row, and the error
    "integer overflow" as soon as a partial sum leaves the 64-bit range. *)
Definition in_int64 (z : Z) : bool := (- 2 ^ 63 <=? z) && (z <? 2 ^ 63).

Fixpoint sql_sum_from (acc : Z) (l : list Z) : result Z :=
  match l with
  | [] => Ok acc
  | x :: rest =>
      if in_int64 (acc + x) then sql_sum_from (acc + x) rest
      else Err "integer overflow"
  end.

(** [COALESCE(SUM(col), 0)]. *)
Definition sql_sum (l : list Z) : result Z := sql_sum_from 0 l.

(** [GetStats]: file count, total size and packed size. *)
Definition GetStats (c : Catalog) : result (Z * Z * Z) :=
  match db_err c with
  | Some e => Err e
  | None =>
      totalSize <~ sql_sum (map Size (dosyalar c)) ;;
      packedSize <~ sql_sum (map PackedSize (dosyalar c)) ;;
      Ok (Z.of_nat (length (dosyalar c)), totalSize, packedSize)
  end.

Section FilesWithInfo.

Variable Base : string -> string.

(** The row a group delivers: [dizin] and [tarih] from the row that holds
    [MAX(tarih)], [boyu] from the sub-query
    [SELECT boyu ... ORDER BY tarih DESC LIMIT 1]. *)
Definition info_row (versions : list FileEntry) : list FileEntry :=
  match max_row versions, newest versions with
  | Some d, Some m =>
      [{| Timestamp := Timestamp d; Directory := Directory d;
          OrigPath := OrigPath d; HashedName := HashedName d;
          ContentHash := ContentHash d; Size := Size m;
          PackedSize := PackedSize d |}]
  | _, _ => []
  end.

(** [GetAllFilesWithInfo]: per path ([GROUP BY adi]) the latest timestamp,
    the number of versions and the size of the latest version.  The result
    is ordered by [dizin, adi]. *)
Definition GetAllFilesWithInfo (c : Catalog) : result (list CatalogFileInfo) :=
  match db_err c with
  | Some e => Err e
  | None =>
      let latest :=
        flat_map (fun g => info_row (filter (adi_is (OrigPath g)) (dosyalar c)))
                 (group_by_adi (dosyalar c)) in
      Ok (map (fun m =>
                 {| InfoOrigPath := OrigPath m;
                    InfoDirectory := Directory m;
                    InfoFileName := Base (OrigPath m);
                    InfoLatestVersion := Timestamp m;
                    InfoVersionCount :=
                      Z.of_nat (length (filter (adi_is (OrigPath m))
                                               (dosyalar c)));
                    InfoSize := Size m |})
              (order_by_dizin_adi latest))
  end.

End FilesWithInfo.

End Catalog.

(** * internal/backup *)

Module Backup.

Import Catalog.

(** 25MB per tar file. *)
Definition maxTarSize : Z := 25 * 1024 * 1024.

(** [int64] arithmetic wraps around. *)
Definition wrap64 (z : Z) : Z := (z + 2 ^ 63) mod 2 ^ 64 - 2 ^ 63.

Record Config : Type := mkConfig {
  DeviceID      : Z;
  EncryptionKey : string;
  BackupDirs    : list string;
  Blacklist     : list string
}.

(** The service: its configuration, the catalog it owns and the running
    flag.  The reads of [shouldStop] are given by the environment, since
    [Stop] sets the flag from another goroutine. *)
Record Service : Type := mkService {
  config    : Config;
  catalog   : Catalog;
  isRunning : bool
}.

(** Info about a file to be backed up. *)
Record fileToBackup : Type := mkFileToBackup {
  path        : string;
  size        : Z;
  modTime     : time;
  hashedName  : string;
  contentHash : string
}.

(** One call of the [filepath.Walk] callback: [(path, info, err)]. *)
Record WalkEntry : Type := mkWalkEntry {
  w_path    : string;
  w_err     : bool;
  w_isDir   : bool;
  w_size    : Z;
  w_modTime : time
}.

(** What happens to one file in the packing loop: any failure of
    [EncryptFile], [os.Stat], [WriteHeader], [os.Open] or [io.Copy] skips the
    file; otherwise the member of [encSize] bytes is in the tar and
    [EncryptFile] reported [packedSize]. *)
Inductive PackResult : Type :=
| Skipped
| Packed (encSize packedSize : Z).

(** The world one session runs in. *)
Record Env : Type := mkEnv {
  now                 : nat -> time;   (* successive readings of time.Now() *)
  mkdir_temp          : error;
  walk                : string -> list WalkEntry;
  HashFileContent     : string -> result string;
  create_tar          : nat -> error;  (* os.Create of tar part n *)
  stop_requested      : nat -> bool;   (* shouldStop as read before file i *)
  pack                : nat -> fileToBackup -> PackResult;
  uploadTar           : nat -> error;  (* upload of tar part n *)
  tx_faults           : TxFaults;
  export_err          : error;
  encrypt_catalog_err : error;
  uploadCatalog       : error
}.

(** A tar part that was closed and handed to [uploadTar], with the sizes of
    its members in the order they were written. *)
Record Shard : Type := mkShard {
  shard_part    : nat;
  shard_members : list Z
}.

(** What a session did, as seen from outside. *)
Record Report : Type := mkReport {
  backupID_at      : option time;  (* the instant formatted into backupID *)
  timestamp_at     : option time;  (* the timestamp given to the entries *)
  shards           : list Shard;
  addEntriesCalled : bool;
  catalogUploaded  : bool
}.

Definition no_report : Report :=
  {| backupID_at := None; timestamp_at := None; shards := [];
     addEntriesCalled := false; catalogUploaded := false |}.

Definition sum_sizes (l : list Z) : Z := fold_right Z.add 0 l.

Section Driver.

(** [filepath.Abs], [filepath.Ext], [filepath.Dir], [strings.ToLower],
    [crypto.HashPath] (SHA-224 in hex) and [time.Format] with the layout
    ["2006-01-02T15:04:05"]. *)
Variable Abs : string -> string.
Variable Ext : string -> string.
Variable Dir : string -> string.
Variable ToLower : string -> string.
Variable HashPath : string -> string.
Variable Format : time -> string.

(** ** The incremental scanner *)

Record ScanState : Type := mkScanState {
  sc_files   : list fileToBackup;
  sc_scanned : Z;
  sc_skipped : Z;
  sc_seen    : list string
}.

Definition seen (m : list string) (k : string) : bool :=
  existsb (String.eqb k) m.

Definition blacklisted (blacklist : list string) (ext : string) : bool :=
  existsb (fun blocked =>
             String.eqb ext blocked || String.eqb ext ("." ++ blocked)%string)
          blacklist.

(** The callback passed to [filepath.Walk]; it always returns [nil]. *)
Definition visit (s : Service) (env : Env) (st : ScanState) (w : WalkEntry)
  : outcome ScanState :=
  if (w_err w || w_isDir w)%bool then Return st
  else if w_size w =? 0 then Return st
  else
    let absPath := Abs (w_path w) in
    if seen (sc_seen st) absPath then Return st
    else
      let st1 := {| sc_files := sc_files st;
                    sc_scanned := sc_scanned st + 1;
                    sc_skipped := sc_skipped st;
                    sc_seen := absPath :: sc_seen st |} in
      let ext := ToLower (Ext (w_path w)) in
      if blacklisted (Blacklist (config s)) ext then Return st1
      else
        match HashFileContent env (w_path w) with
        | Err _ => Return st1
        | Ok contentHash =>
            match NeedsBackup (catalog s) (w_path w) contentHash (w_size w) with
            | Panic m => Panic m
            | Return r =>
                let needsBackup :=
                  match r with
                  | Err _ => true   (* backup if we can't determine *)
                  | Ok b => b
                  end in
                if needsBackup then
                  Return {| sc_files :=
                              sc_files st1 ++
                              [{| path := w_path w;
                                  size := w_size w;
                                  modTime := w_modTime w;
                                  hashedName := HashPath (w_path w);
                                  contentHash := contentHash |}];
                            sc_scanned := sc_scanned st1;
                            sc_skipped := sc_skipped st1;
                            sc_seen := sc_seen st1 |}
                else
                  Return {| sc_files := sc_files st1;
                            sc_scanned := sc_scanned st1;
                            sc_skipped := sc_skipped st1 + 1;
                            sc_seen := sc_seen st1 |}
            end
        end.

Fixpoint walk_all (s : Service) (env : Env) (st : ScanState)
         (ws : list WalkEntry) : outcome ScanState :=
  match ws with
  | [] => Return st
  | w :: rest =>
      match visit s env st w with
      | Panic m => Panic m
      | Return st' => walk_all s env st' rest
      end
  end.

(** Returns the files to back up, the scanned and skipped counts, the error
    of [filepath.Walk] (always [nil]) and the updated [seenPaths], which the
    caller shares between directories. *)
Definition scanDirectoryIncrementalWithProgress
           (s : Service) (env : Env) (dir : string) (seenPaths : list string)
  : outcome (list fileToBackup * Z * Z * error * list string) :=
  match walk_all s env {| sc_files := []; sc_scanned := 0; sc_skipped := 0;
                          sc_seen := seenPaths |} (walk env dir) with
  | Panic m => Panic m
  | Return st =>
      Return (sc_files st, sc_scanned st, sc_skipped st, None, sc_seen st)
  end.

(** The scanning loop of [Run] over the configured directories. *)
Fixpoint scan_dirs (s : Service) (env : Env) (dirs : list string)
         (filesToBackup : list fileToBackup) (seenPaths : list string)
  : outcome (list fileToBackup) :=
  match dirs with
  | [] => Return filesToBackup
  | dir :: rest =>
      match scanDirectoryIncrementalWithProgress s env dir seenPaths with
      | Panic m => Panic m
      | Return (files, _, _, Some _, seenPaths') =>
          scan_dirs s env rest filesToBackup seenPaths'
      | Return (files, _, _, None, seenPaths') =>
          scan_dirs s env rest (filesToBackup ++ files) seenPaths'
      end
  end.

(** ** The packing loop *)

Record PackState : Type := mkPackState {
  tarSize        : Z;
  tarPart        : nat;
  members        : list Z;
  catalogEntries : list FileEntry;
  doneBytes      : Z;
  sealed         : list Shard
}.

Definition entry_of (timestamp : time) (file : fileToBackup) (packedSize : Z)
  : FileEntry :=
  {| Timestamp := timestamp;
     Directory := Dir (path file);
     OrigPath := path file;
     HashedName := hashedName file;
     ContentHash := contentHash file;
     Size := size file;
     PackedSize := packedSize |}.

Fixpoint pack_loop (env : Env) (timestamp : time) (i : nat)
         (files : list fileToBackup) (st : PackState) : error * PackState :=
  match files with
  | [] => (None, st)
  | file :: rest =>
      if stop_requested env i then (Some "backup cancelled", st)
      else
        match pack env i file with
        | Skipped => pack_loop env timestamp (S i) rest st
        | Packed encSize packedSize =>
            let st1 :=
              {| tarSize := wrap64 (tarSize st + encSize);
                 tarPart := tarPart st;
                 members := members st ++ [encSize];
                 catalogEntries :=
                   catalogEntries st ++ [entry_of timestamp file packedSize];
                 doneBytes := wrap64 (doneBytes st + size file);
                 sealed := sealed st |} in
            (* If tar is too big, close it, upload, and start a new one *)
            if tarSize st1 >? maxTarSize then
              let st2 :=
                {| tarSize := tarSize st1;
                   tarPart := tarPart st1;
                   members := members st1;
                   catalogEntries := catalogEntries st1;
                   doneBytes := doneBytes st1;
                   sealed := sealed st1 ++
                             [{| shard_part := tarPart st1;
                                 shard_members := members st1 |}] |} in
              match uploadTar env (tarPart st1) with
              | Some e => (Some ("failed to upload tar: " ++ e)%string, st2)
              | None =>
                  let st3 :=
                    {| tarSize := 0;
                       tarPart := S (tarPart st2);
                       members := [];
                       catalogEntries := catalogEntries st2;
                       doneBytes := doneBytes st2;
                       sealed := sealed st2 |} in
                  match create_tar env (tarPart st3) with
                  | Some e => (Some e, st3)
                  | None => pack_loop env timestamp (S i) rest st3
                  end
              end
            else pack_loop env timestamp (S i) rest st1
        end
  end.

(** ** The session driver *)

Definition finish (s : Service) (err : error) (cat : Catalog) (rep : Report)
  : outcome (error * Service * Report) :=
  (* the deferred function clears isRunning *)
  Return (err, {| config := config s; catalog := cat; isRunning := false |},
          rep).

(** Export the catalog, encrypt the dump and upload it. *)
Definition upload_snapshot (env : Env) (cat : Catalog) : error :=
  match ExportToFile cat with
  | Err e => Some ("failed to export catalog: " ++ e)%string
  | Ok _ =>
      match export_err env with
      | Some e => Some ("failed to export catalog: " ++ e)%string
      | None =>
          match encrypt_catalog_err env with
          | Some e => Some ("failed to encrypt catalog: " ++ e)%string
          | None =>
              match uploadCatalog env with
              | Some e => Some ("failed to upload catalog: " ++ e)%string
              | None => None
              end
          end
      end
  end.

Definition Run (s : Service) (env : Env) : outcome (error * Service * Report) :=
  if isRunning s then Return (Some "backup already running", s, no_report)
  else if DeviceID (config s) =? 0 then
    finish s (Some "no device registered") (catalog s) no_report
  else if String.eqb (EncryptionKey (config s)) "" then
    finish s (Some "encryption key not set") (catalog s) no_report
  else
    let backupID := now env 0 in
    let rep0 := {| backupID_at := Some backupID; timestamp_at := None;
                   shards := []; addEntriesCalled := false;
                   catalogUploaded := false |} in
    match mkdir_temp env with
    | Some e => finish s (Some e) (catalog s) rep0
    | None =>
        match scan_dirs s env (BackupDirs (config s)) [] [] with
        | Panic m => Panic m
        | Return filesToBackup =>
            match filesToBackup with
            | [] => finish s None (catalog s) rep0
            | _ :: _ =>
                match create_tar env 1 with
                | Some e => finish s (Some e) (catalog s) rep0
                | None =>
                    let timestamp := now env 1 in
                    let '(err, st) :=
                      pack_loop env timestamp 0 filesToBackup
                                {| tarSize := 0; tarPart := 1; members := [];
                                   catalogEntries := []; doneBytes := 0;
                                   sealed := [] |} in
                    let rep1 sh called up :=
                      {| backupID_at := Some backupID;
                         timestamp_at := Some timestamp;
                         shards := sh; addEntriesCalled := called;
                         catalogUploaded := up |} in
                    match err with
                    | Some e =>
                        finish s (Some e) (catalog s)
                               (rep1 (sealed st) false false)
                    | None =>
                        (* Close and upload final tar if it has content *)
                        let sh :=
                          if tarSize st >? 0
                          then sealed st ++
                               [{| shard_part := tarPart st;
                                   shard_members := members st |}]
                          else sealed st in
                        match (if tarSize st >? 0
                               then uploadTar env (tarPart st) else None) with
                        | Some e =>
                            finish s (Some ("failed to upload tar: " ++ e)%string)
                                   (catalog s) (rep1 sh false false)
                        | None =>
                            match catalogEntries st with
                            | [] =>
                                match upload_snapshot env (catalog s) with
                                | Some e =>
                                    finish s (Some e) (catalog s)
                                           (rep1 sh false false)
                                | None =>
                                    finish s None (catalog s)
                                           (rep1 sh false true)
                                end
                            | _ :: _ =>
                                let '(cerr, cat') :=
                                  AddEntries (catalog s) (tx_faults env)
                                             (catalogEntries st) in
                                match cerr with
                                | Some e =>
                                    finish s
                                      (Some ("failed to update catalog: " ++ e)%string)
                                      cat' (rep1 sh true false)
                                | None =>
                                    match upload_snapshot env cat' with
                                    | Some e =>
                                        finish s (Some e) cat'
                                               (rep1 sh true false)
                                    | None =>
                                        finish s None cat' (rep1 sh true true)
                                    end
                                end
                            end
                        end
                    end
                end
            end
        end
    end.

(** ** Restore requests

    One element of the ["files"] array posted to [restore-files]. *)
Record fileRequest : Type := mkFileRequest {
  ReqHashedName : string;
  ReqTargetDate : string
}.

Definition request_for (f : FileEntry) : fileRequest :=
  {| ReqHashedName := HashedName f; ReqTargetDate := Format (Timestamp f) |}.

(** [RestoreFile] up to the request it posts. *)
Definition RestoreFile (s : Service) (origPath : string) (targetDate : time)
  : result (list fileRequest) :=
  if isRunning s then Err "operation already running"
  else
    match GetFileAtTime (catalog s) origPath targetDate with
    | Err e => Err ("dosya bulunamadı: " ++ e)%string
    | Ok None => Err "dosya bu tarihte mevcut değil"
    | Ok (Some file) => Ok [request_for file]
    end.

(** [RestoreDirectory] up to the request it posts. *)
Definition RestoreDirectory (s : Service) (dirPath : string) (targetDate : time)
  : result (list fileRequest) :=
  if isRunning s then Err "operation already running"
  else
    match GetFilesInDirAtTime (catalog s) dirPath targetDate with
    | Err e => Err ("dizin dosyaları alınamadı: " ++ e)%string
    | Ok [] => Err "bu dizinde geri yüklenecek dosya bulunamadı"
    | Ok files => Ok (map request_for files)
    end.

End Driver.

(** ** Predicates on sessions *)

(** Member sizes a file system can report. *)
Definition sizes_in_range (env : Env) : Prop :=
  forall i f a b, pack env i f = Packed a b -> 0 <= a < 2 ^ 62.

(** No proper prefix of a shard's members passes [maxTarSize]: the shard
    took no member after it had passed the bound. *)
Definition shard_ok (sh : Shard) : Prop :=
  forall pre suf,
    shard_members sh = pre ++ suf -> suf <> [] ->
    sum_sizes pre <= maxTarSize.

(** The shard was closed because it had passed [maxTarSize]. *)
Definition tipped (sh : Shard) : Prop :=
  maxTarSize < sum_sizes (shard_members sh).

(** What the loop maintains between two files: the counter [tarSize] is the
    sum of the members of the open tar and has not passed [maxTarSize]. *)
Definition open_tar_ok (st : PackState) : Prop :=
  tarSize st = sum_sizes (members st) /\
  0 <= tarSize st <= maxTarSize /\
  Forall (fun x => 0 <= x) (members st).

(** A change record whose content hash is the file's current one and
    differs from the hash of the latest version, if there is one. *)
Definition changed (s : Service) (env : Env) (f : fileToBackup) : Prop :=
  HashFileContent env (path f) = Ok (contentHash f) /\
  forall e, GetLatestVersion (catalog s) (path f) = Ok (Some e) ->
            ContentHash e <> contentHash f.

(** [HashFileContent] returns SHA-256 digests in hex. *)
Definition hashes_content (env : Env) : Prop :=
  forall q hq, HashFileContent env q = Ok hq -> is_content_hash hq.

(** ** Sessions, continued *)

(** The entries the packing loop prepares for the files it packs, starting
    at file index [i]: one per packed file, none for a skipped one. *)
Fixpoint packed_entries (Dir : string -> string) (env : Env)
         (timestamp : time) (i : nat) (files : list fileToBackup)
  : list FileEntry :=
  match files with
  | [] => []
  | file :: rest =>
      match pack env i file with
      | Skipped => packed_entries Dir env timestamp (S i) rest
      | Packed _ packedSize =>
          entry_of Dir timestamp file packedSize
          :: packed_entries Dir env timestamp (S i) rest
      end
  end.


(** A walked entry the scanner looks at: no walk error, not a directory,
    not empty. *)
Definition regular (w : WalkEntry) : bool :=
  negb (w_err w || w_isDir w) && negb (w_size w =? 0).

(** The change record the scanner builds for a walked entry whose content
    hash is [h]. *)
Definition record_of (HashPath : string -> string) (w : WalkEntry) (h : string)
  : fileToBackup :=
  {| path := w_path w; size := w_size w; modTime := w_modTime w;
     hashedName := HashPath (w_path w); contentHash := h |}.

(** The records of the walked entries that are regular, not blacklisted and
    readable, in walk order. *)
Definition eligible_records (Ext ToLower HashPath : string -> string)
           (s : Service) (env : Env) (ws : list WalkEntry)
  : list fileToBackup :=
  flat_map (fun w =>
              if regular w
                 && negb (existsb
                            (fun blocked =>
                               String.eqb (ToLower (Ext (w_path w))) blocked
                               || String.eqb (ToLower (Ext (w_path w)))
                                             ("." ++ blocked)%string)
                            (Blacklist (config s)))
              then match HashFileContent env (w_path w) with
                   | Ok h => [record_of HashPath w h]
                   | Err _ => []
                   end
              else [])
           ws.

(** ** Catalog recovery *)

(** What becomes of one listed snapshot: the download fails, the
    decryption fails, or the decrypted database is opened and read
    ([src]) and imported under the given faults. *)
Inductive SnapshotFetch : Type :=
| DownloadFailed
| DecryptFailed
| Fetched (src : result (list FileEntry)) (faults : TxFaults).

Fixpoint import_all (cat : Catalog) (fetches : list SnapshotFetch) : Catalog :=
  match fetches with
  | [] => cat
  | DownloadFailed :: rest => import_all cat rest
  | DecryptFailed :: rest => import_all cat rest
  | Fetched src faults :: rest =>
      (* an import error is skipped like the others *)
      import_all (snd (ImportFromFile cat src faults)) rest
  end.

(** [RecoverCatalog]; [listing] is the outcome of fetching and decoding the
    list of snapshots, each with what its download will give. *)
Definition RecoverCatalog (s : Service) (listing : result (list SnapshotFetch))
  : error * Service :=
  if String.eqb (EncryptionKey (config s)) "" then
    (Some "encryption key required to recover catalog", s)
  else
    match listing with
    | Err e => (Some e, s)
    | Ok fetches =>
        (None,
         {| config := config s;
            catalog := import_all (catalog s) fetches;
            isRunning := isRunning s |})
    end.

(** ** The directory list (app.go) *)

Definition with_dirs (cfg : Config) (dirs : list string) : Config :=
  {| DeviceID := DeviceID cfg; EncryptionKey := EncryptionKey cfg;
     BackupDirs := dirs; Blacklist := Blacklist cfg |}.

(** [AddBackupDirectory]; [not_exist] is [os.IsNotExist] of the [os.Stat]
    error and [save] the outcome of [config.Save]. *)
Definition AddBackupDirectory (cfg : Config) (not_exist : bool) (save : error)
           (dir : string) : error * Config :=
  if not_exist then (Some ("dizin bulunamadı: " ++ dir)%string, cfg)
  else if existsb (fun d => String.eqb d dir) (BackupDirs cfg)
  then (Some ("dizin zaten ekli: " ++ dir)%string, cfg)
  else (save, with_dirs cfg (BackupDirs cfg ++ [dir])).

(** [RemoveBackupDirectory]. *)
Definition RemoveBackupDirectory (cfg : Config) (save : error) (dir : string)
  : error * Config :=
  (save,
   with_dirs cfg (filter (fun d => negb (String.eqb d dir)) (BackupDirs cfg))).

End Backup.

(** * Concrete data

    The files of a small [/data] directory, the sessions of a morning and
    simple stand-ins for the library functions, to run the model on. *)

Module Scenario.

Import Catalog Backup.

Definition ms : Z := 1000000.

(** 2024-01-15 10:00:00 on a machine whose zone is UTC. *)
Definition T1 : time := {| unixNano := 1705312800 * Second; zone := 0 |}.

Definition a_txt : string := "/data/a.txt".

(** SHA-256 of "hello" and of "hello!". *)
Definition hash_hello : string :=
  "2cf24dba5fb0a30e26e83b2ac5b9e29e1b161e5c1fa7425e73043362938b9824".
Definition hash_hello2 : string :=
  "ce06092fb948d9ffac7d1a376e404b26b7575bcc11ee05a4615fef4fec3a308b".

Definition Abs (p : string) : string := p.
Definition Ext (p : string) : string := ".txt".
Definition Dir (p : string) : string := "/data".
Definition ToLower (s : string) : string := s.

(** SHA-224 of the three paths in use. *)
Definition HashPath (p : string) : string :=
  if String.eqb p "/data/a.txt"
  then "b5756ffec88dfa157d17baab27b0126bf764a496ace0f63811ae8458"
  else if String.eqb p "/data/b.bin"
  then "1f6986e050ae68340bc64ce059449d61e2c4b129dc6369ce3ba33506"
  else "587f3846a61eba249793fee58c5b816d8b8f4488102d6bc95d83b278".

(** The whole-second rendering of the instants of that morning. *)
Definition Format (t : time) : string :=
  let sec := wall t / Second - 1705312800 in
  if sec =? 0 then "2024-01-15T10:00:00"
  else if sec =? 1 then "2024-01-15T10:00:01"
  else if sec =? 2 then "2024-01-15T10:00:02"
  else "2024-01-15T10:00:03".

Definition Base (p : string) : string := "a.txt".

(** The version of [a.txt] written by a session that started 91 ms into
    10:00:00, and the one written two seconds later. *)
Definition a_v1 : FileEntry :=
  {| Timestamp := T1 + 91 * ms; Directory := "/data"; OrigPath := a_txt;
     HashedName := HashPath a_txt; ContentHash := hash_hello;
     Size := 5; PackedSize := 53 |}.

Definition a_v3 : FileEntry :=
  {| Timestamp := T1 + 2 * Second + 40 * ms; Directory := "/data";
     OrigPath := a_txt; HashedName := HashPath a_txt;
     ContentHash := hash_hello2; Size := 6; PackedSize := 54 |}.

Definition empty_catalog : Catalog := {| dosyalar := []; db_err := None |}.
Definition catalog_v1 : Catalog := {| dosyalar := [a_v1]; db_err := None |}.
Definition catalog_v13 : Catalog :=
  {| dosyalar := [a_v1; a_v3]; db_err := None |}.

Definition cfg : Config :=
  {| DeviceID := 7; EncryptionKey := "pw"; BackupDirs := ["/data"];
     Blacklist := ["tmp"] |}.

Definition service (c : Catalog) : Service :=
  {| config := cfg; catalog := c; isRunning := false |}.

Definition data_dir (sz : Z) : list WalkEntry :=
  [ {| w_path := "/data"; w_err := false; w_isDir := true; w_size := 4096;
       w_modTime := T1 - Second |};
    {| w_path := a_txt; w_err := false; w_isDir := false; w_size := sz;
       w_modTime := T1 - Second |} ].

(** A session over [/data] holding [a.txt] with the given content hash and
    size; the clock reads [t0] for the backup id and [t0 + 1ms] for the
    timestamp; nothing fails. *)
Definition session (t0 : time) (hash : string) (sz : Z) : Env :=
  {| now := fun n => match n with O => t0 | _ => (t0 + ms)%time end;
     mkdir_temp := None;
     walk := fun _ => data_dir sz;
     HashFileContent := fun _ => Ok hash;
     create_tar := fun _ => None;
     stop_requested := fun _ => false;
     pack := fun _ f => Packed (size f + 48) (size f + 48);
     uploadTar := fun _ => None;
     tx_faults := no_faults;
     export_err := None;
     encrypt_catalog_err := None;
     uploadCatalog := None |}.

Definition first_session : Env := session (T1 + 90 * ms) hash_hello 5.

(** A second session started 410 ms after the first, within the same second,
    after [a.txt] was overwritten. *)
Definition hasty_session : Env := session (T1 + 500 * ms) hash_hello2 6.

(** The same session with [Stop] called before the first file. *)
Definition cancelled_session : Env :=
  {| now := now hasty_session;
     mkdir_temp := None;
     walk := walk hasty_session;
     HashFileContent := HashFileContent hasty_session;
     create_tar := fun _ => None;
     stop_requested := fun _ => true;
     pack := pack hasty_session;
     uploadTar := fun _ => None;
     tx_faults := no_faults;
     export_err := None;
     encrypt_catalog_err := None;
     uploadCatalog := None |}.

Definition MiB : Z := 1024 * 1024.

(** Three large files: 20 MiB, 10 MiB and 1 MiB once packed. *)
Definition big_dir : list WalkEntry :=
  [ {| w_path := "/data/a.txt"; w_err := false; w_isDir := false;
       w_size := 20 * MiB; w_modTime := T1 - Second |};
    {| w_path := "/data/b.bin"; w_err := false; w_isDir := false;
       w_size := 10 * MiB; w_modTime := T1 - Second |};
    {| w_path := "/data/c.bin"; w_err := false; w_isDir := false;
       w_size := MiB; w_modTime := T1 - Second |} ].

Definition big_session : Env :=
  {| now := now first_session;
     mkdir_temp := None;
     walk := fun _ => big_dir;
     HashFileContent := fun _ => Ok hash_hello;
     create_tar := fun _ => None;
     stop_requested := fun _ => false;
     pack := fun i _ =>
               match i with
               | O => Packed (20 * MiB) (20 * MiB)
               | S O => Packed (10 * MiB) (10 * MiB)
               | _ => Packed MiB MiB
               end;
     uploadTar := fun _ => None;
     tx_faults := no_faults;
     export_err := None;
     encrypt_catalog_err := None;
     uploadCatalog := None |}.

Definition run := Run Abs Ext Dir ToLower HashPath.

(** What the first session and the hasty one report. *)
Definition first_report : Report :=
  {| backupID_at := Some (T1 + 90 * ms)%time;
     timestamp_at := Some (T1 + 91 * ms)%time;
     shards := [{| shard_part := 1; shard_members := [53] |}];
     addEntriesCalled := true;
     catalogUploaded := true |}.

Definition a_hasty : FileEntry :=
  {| Timestamp := T1 + 501 * ms; Directory := "/data"; OrigPath := a_txt;
     HashedName := HashPath a_txt; ContentHash := hash_hello2;
     Size := 6; PackedSize := 54 |}.

Definition hasty_report : Report :=
  {| backupID_at := Some (T1 + 500 * ms)%time;
     timestamp_at := Some (T1 + 501 * ms)%time;
     shards := [{| shard_part := 1; shard_members := [54] |}];
     addEntriesCalled := true;
     catalogUploaded := true |}.

End Scenario.

(** Further data: a catalog whose database is closed, a disk holding one
    readable file, and a server holding two catalog snapshots. *)
Module Fixtures.

Import Catalog Backup Scenario.

Definition closed_catalog : Catalog :=
  {| dosyalar := []; db_err := Some "sql: database is closed" |}.

(** The bytes of "hello". *)
Definition hello : bytes := [x68; x65; x6c; x6c; x6f]%byte.

Definition disk : Crypto.FS :=
  {| Crypto.content := fun p => if String.eqb p a_txt then Ok hello
                                else Err "no such file or directory";
     Crypto.deny_write := fun _ => None;
     Crypto.short_write := fun _ => None |}.

(** The first version of [a.txt] as a machine three hours east of UTC
    stores it: the instant of [a_v1], written 13:00:00.091+03:00. *)
Definition a_east : FileEntry :=
  {| Timestamp := {| unixNano := T1 + 91 * ms; zone := 180 |};
     Directory := "/data"; OrigPath := a_txt; HashedName := HashPath a_txt;
     ContentHash := hash_hello; Size := 5; PackedSize := 53 |}.

Definition catalog_east : Catalog :=
  {| dosyalar := [a_east]; db_err := None |}.

Definition snapshots : list SnapshotFetch :=
  [Fetched (Ok [a_v1]) no_faults; DownloadFailed;
   Fetched (Ok [a_v3]) no_faults].

End Fixtures.

(** * Properties of internal/crypto *)

Section CryptoProperties.

Import Crypto.

Variable gcm_seal : bytes -> bytes -> bytes -> bytes.
Variable gcm_open : bytes -> bytes -> bytes -> result bytes.
Variable gzip : bytes -> result bytes.
Variable gunzip : bytes -> result bytes.
Variable rnd : nat -> result bytes.

Lemma NewCipher_32 (key : bytes) :
  length key = keySize -> NewCipher key = Ok key.
Proof.
  intros Hk. unfold NewCipher. rewrite Hk. reflexivity.
Qed.

Lemma ReadFull_length (n : nat) (b : bytes) :
  ReadFull rnd n = Ok b -> length b = n.
Proof.
  unfold ReadFull, bind. destruct (rnd n) as [b0|e]; [|discriminate].
  destruct (Nat.eqb (length b0) n) eqn:E; [|discriminate].
  intros H. injection H as <-. now apply Nat.eqb_eq.
Qed.

(** A sealed message is the nonce followed by the GCM output. *)
Lemma Encrypt_shape (data key out : bytes) :
  Encrypt gcm_seal rnd data key = Ok out ->
  exists nonce, length nonce = NonceSize /\
                out = nonce ++ gcm_seal key nonce data.
Proof.
  unfold Encrypt, bind, NewGCM.
  destruct (NewCipher key) as [blk|e] eqn:Hc; [|discriminate].
  assert (blk = key) as ->.
  { unfold NewCipher in Hc. destruct (existsb _ _); congruence. }
  destruct (ReadFull rnd NonceSize) as [nonce|e] eqn:Hr; [|discriminate].
  intros H. injection H as <-.
  exists nonce. split; [now apply ReadFull_length|reflexivity].
Qed.

Lemma Decrypt_split (nonce ct key : bytes) :
  length key = keySize -> length nonce = NonceSize ->
  Decrypt gcm_open (nonce ++ ct) key = gcm_open key nonce ct.
Proof.
  intros Hk Hn. unfold Decrypt, bind, NewGCM.
  rewrite (NewCipher_32 key Hk).
  assert (Nat.ltb (length (nonce ++ ct)) NonceSize = false) as ->.
  { apply Nat.ltb_ge. rewrite length_app. lia. }
  rewrite <- Hn.
  rewrite firstn_app, Nat.sub_diag, firstn_all. simpl firstn.
  rewrite app_nil_r.
  rewrite skipn_app, Nat.sub_diag, skipn_all. reflexivity.
Qed.

(** C10: with a 32-byte key, an input shorter than the 12-byte nonce is
    rejected with the error "ciphertext too short"; [Decrypt] returns that
    error for every such input and never slices it. *)
Theorem Decrypt_short_input (data key : bytes) :
  length key = keySize ->
  (length data < NonceSize)%nat ->
  Decrypt gcm_open data key = Err "ciphertext too short".
Proof.
  intros Hk Hd. unfold Decrypt, bind, NewGCM.
  rewrite (NewCipher_32 key Hk).
  apply Nat.ltb_lt in Hd. now rewrite Hd.
Qed.

(** The nonce/ciphertext split is only reached on inputs of at least nonce
    size. *)
Lemma Decrypt_split_only_when_long (data key : bytes) :
  length key = keySize ->
  Decrypt gcm_open data key <> Err "ciphertext too short" ->
  (NonceSize <= length data)%nat /\
  Decrypt gcm_open data key =
    gcm_open key (firstn NonceSize data) (skipn NonceSize data).
Proof.
  intros Hk Hne.
  destruct (Nat.ltb (length data) NonceSize) eqn:E.
  - apply Nat.ltb_lt in E. exfalso. apply Hne.
    unfold Decrypt, bind, NewGCM. rewrite (NewCipher_32 key Hk).
    apply Nat.ltb_lt in E. now rewrite E.
  - split; [now apply Nat.ltb_ge|].
    unfold Decrypt, bind, NewGCM.
    rewrite (NewCipher_32 key Hk). now rewrite E.
Qed.

(** Contracts of the library primitives: gzip into a memory buffer succeeds
    and is undone by gunzip; GCM opens what it sealed under the same key and
    nonce. *)
Hypothesis gzip_total : forall x, exists z, gzip x = Ok z.
Hypothesis gunzip_gzip : forall x z, gzip x = Ok z -> gunzip z = Ok x.
Hypothesis open_seal : forall k n x,
    length k = keySize -> length n = NonceSize ->
    gcm_open k n (gcm_seal k n x) = Ok x.

(** C8: for every byte string [x] and every 32-byte key [k], once the
    random source has delivered the 96-bit nonce, [CompressAndEncrypt]
    succeeds and [DecryptAndDecompress] of its output under the same key
    returns exactly [x]. *)
Theorem seal_open_roundtrip (x k : bytes) :
  length k = keySize ->
  (exists nonce, ReadFull rnd NonceSize = Ok nonce) ->
  exists sealed,
    CompressAndEncrypt gcm_seal gzip rnd x k = Ok sealed /\
    DecryptAndDecompress gcm_open gunzip sealed k = Ok x.
Proof.
  intros Hk [nonce Hr].
  destruct (gzip_total x) as [z Hz].
  exists (nonce ++ gcm_seal k nonce z). split.
  - unfold CompressAndEncrypt, Encrypt, bind, NewGCM.
    rewrite Hz, (NewCipher_32 k Hk), Hr. reflexivity.
  - unfold DecryptAndDecompress, bind.
    rewrite (Decrypt_split nonce _ k Hk (ReadFull_length _ _ Hr)).
    rewrite (open_seal k nonce z Hk (ReadFull_length _ _ Hr)).
    now apply gunzip_gzip.
Qed.

End CryptoProperties.

Lemma Toy_open_seal (k n x : bytes) :
  Crypto.Toy.open k n (Crypto.Toy.seal k n x) = Ok x.
Proof.
  unfold Crypto.Toy.open, Crypto.Toy.seal. rewrite rev_app_distr. simpl.
  now rewrite rev_involutive.
Qed.

Lemma Decrypt_short_input_witness :
  Crypto.Decrypt Crypto.Toy.open [x00%byte; x01%byte; x02%byte] Crypto.Toy.key
  = Err "ciphertext too short".
Proof.
  apply (Decrypt_short_input Crypto.Toy.open
           [x00%byte; x01%byte; x02%byte] Crypto.Toy.key).
  - reflexivity.
  - unfold Crypto.NonceSize. simpl. lia.
Defined.

Lemma seal_open_roundtrip_witness :
  exists sealed,
    Crypto.CompressAndEncrypt Crypto.Toy.seal Crypto.Toy.gzip Crypto.Toy.rnd
      [x68%byte; x69%byte] Crypto.Toy.key = Ok sealed /\
    Crypto.DecryptAndDecompress Crypto.Toy.open Crypto.Toy.gunzip
      sealed Crypto.Toy.key = Ok [x68%byte; x69%byte].
Proof.
  apply (seal_open_roundtrip Crypto.Toy.seal Crypto.Toy.open
           Crypto.Toy.gzip Crypto.Toy.gunzip Crypto.Toy.rnd).
  - intros x. eexists. reflexivity.
  - intros x z H. unfold Crypto.Toy.gzip in H. injection H as <-. reflexivity.
  - intros k n x _ _. apply Toy_open_seal.
  - reflexivity.
  - eexists. reflexivity.
Defined.

(** * Properties of internal/catalog *)

Ltac tarih_cases :=
  unfold Catalog.tarih_le, Catalog.tarih_gt, Catalog.tarih_leb,
         Catalog.tarih_ltb, Catalog.tarih_eqb, Catalog.tarih_compare,
         Catalog.offset_compare, Catalog.wall, Catalog.Minute,
         Catalog.Second in *;
  repeat match goal with
         | H : context [?x ?= ?y] |- _ => destruct (Z.compare_spec x y)
         | |- context [?x ?= ?y] => destruct (Z.compare_spec x y)
         | H : context [?x <? ?y] |- _ => destruct (Z.ltb_spec x y)
         | |- context [?x <? ?y] => destruct (Z.ltb_spec x y)
         end;
  simpl in *; try congruence; try lia.

Section CatalogProperties.

Import Catalog.

(** ** The order of the stored texts *)

Lemma tarih_compare_eq (a b : time) : tarih_compare a b = Eq -> a = b.
Proof.
  destruct a as [ua za], b as [ub zb]. intros H.
  assert (ua = ub /\ za = zb) as [-> ->]; [|reflexivity].
  revert H. tarih_cases.
Qed.

Lemma tarih_compare_refl (a : time) : tarih_compare a a = Eq.
Proof. destruct a as [ua za]. tarih_cases. Qed.

Lemma tarih_eqb_eq (a b : time) : tarih_eqb a b = true <-> a = b.
Proof.
  split.
  - intros H. apply tarih_compare_eq. unfold tarih_eqb in H.
    now destruct (tarih_compare a b).
  - intros ->. unfold tarih_eqb. now rewrite tarih_compare_refl.
Qed.

Lemma tarih_le_refl (a : time) : tarih_le a a.
Proof. unfold tarih_le, tarih_leb. now rewrite tarih_compare_refl. Qed.

Lemma tarih_le_trans (a b c : time) :
  tarih_le a b -> tarih_le b c -> tarih_le a c.
Proof.
  destruct a as [ua za], b as [ub zb], c as [uc zc]. tarih_cases.
Qed.

Lemma tarih_le_antisym (a b : time) : tarih_le a b -> tarih_le b a -> a = b.
Proof.
  destruct a as [ua za], b as [ub zb]. intros H1 H2.
  assert (ua = ub /\ za = zb) as [-> ->]; [|reflexivity].
  revert H1 H2. tarih_cases.
Qed.

Lemma tarih_ltb_leb (a b : time) : tarih_ltb a b = negb (tarih_leb b a).
Proof. destruct a as [ua za], b as [ub zb]. tarih_cases. Qed.

Lemma tarih_ltb_le (a b : time) : tarih_ltb a b = true -> tarih_le a b.
Proof. destruct a as [ua za], b as [ub zb]. tarih_cases. Qed.

Lemma tarih_ltb_false (a b : time) : tarih_ltb a b = false <-> tarih_le b a.
Proof.
  rewrite tarih_ltb_leb. unfold tarih_le.
  destruct (tarih_leb b a); simpl; split; congruence.
Qed.

Lemma tarih_leb_false (a b : time) : tarih_leb a b = false -> tarih_le b a.
Proof. destruct a as [ua za], b as [ub zb]. tarih_cases. Qed.

(** Under one offset the texts are ordered as the instants are. *)
Lemma tarih_le_same_zone (a b : time) :
  zone a = zone b -> (tarih_le a b <-> a <= b).
Proof.
  destruct a as [ua za], b as [ub zb]. simpl. intros ->.
  split; tarih_cases.
Qed.

(** Across offsets they are not: 13:00+03:00 is the instant 10:00Z, and
    its text comes after that of 10:00:01Z. *)
Lemma tarih_le_across_zones :
  let a := {| unixNano := 10 * 3600 * Second; zone := 180 |} in
  let b := {| unixNano := 10 * 3600 * Second + Second; zone := 0 |} in
  a <= b /\ ~ tarih_le a b.
Proof. split; [vm_compute; discriminate|vm_compute; discriminate]. Qed.

(** ** [ORDER BY tarih DESC LIMIT 1] *)

Lemma newest_None (rows : list FileEntry) :
  newest rows = None <-> rows = [].
Proof.
  split.
  - destruct rows as [|e rest]; [reflexivity|]. simpl.
    destruct (newest rest) as [m|]; [|discriminate].
    destruct (tarih_ltb (Timestamp m) (Timestamp e)); discriminate.
  - intros ->. reflexivity.
Qed.

Lemma newest_In (rows : list FileEntry) (e : FileEntry) :
  newest rows = Some e -> In e rows.
Proof.
  revert e. induction rows as [|x rest IH]; intros e H; [discriminate|].
  simpl in H. destruct (newest rest) as [m|] eqn:Hm.
  - destruct (tarih_ltb (Timestamp m) (Timestamp x)).
    + injection H as <-. now left.
    + injection H as <-. right. now apply IH.
  - injection H as <-. now left.
Qed.

Lemma newest_max (rows : list FileEntry) (e : FileEntry) :
  newest rows = Some e ->
  forall x, In x rows -> tarih_le (Timestamp x) (Timestamp e).
Proof.
  revert e. induction rows as [|y rest IH]; intros e H x Hx; [contradiction|].
  simpl in H. destruct (newest rest) as [m|] eqn:Hm.
  - destruct (tarih_ltb (Timestamp m) (Timestamp y)) eqn:Hlt.
    + injection H as <-. apply tarih_ltb_le in Hlt.
      destruct Hx as [<-|Hx]; [apply tarih_le_refl|].
      exact (tarih_le_trans _ _ _ (IH m eq_refl x Hx) Hlt).
    + injection H as <-. apply tarih_ltb_false in Hlt.
      destruct Hx as [<-|Hx]; [exact Hlt|].
      now apply IH.
  - injection H as <-. apply newest_None in Hm. subst rest.
    destruct Hx as [<-|[]]. apply tarih_le_refl.
Qed.

Lemma max_row_None (rows : list FileEntry) :
  max_row rows = None <-> rows = [].
Proof.
  split.
  - destruct rows as [|e rest]; [reflexivity|]. simpl.
    destruct (max_row rest) as [m|]; [|discriminate].
    destruct (tarih_leb (Timestamp m) (Timestamp e)); discriminate.
  - intros ->. reflexivity.
Qed.

Lemma max_row_In (rows : list FileEntry) (e : FileEntry) :
  max_row rows = Some e -> In e rows.
Proof.
  revert e. induction rows as [|x rest IH]; intros e H; [discriminate|].
  simpl in H. destruct (max_row rest) as [m|] eqn:Hm.
  - destruct (tarih_leb (Timestamp m) (Timestamp x)).
    + injection H as <-. now left.
    + injection H as <-. right. now apply IH.
  - injection H as <-. now left.
Qed.

Lemma max_row_max (rows : list FileEntry) (e : FileEntry) :
  max_row rows = Some e ->
  forall x, In x rows -> tarih_le (Timestamp x) (Timestamp e).
Proof.
  revert e. induction rows as [|y rest IH]; intros e H x Hx; [contradiction|].
  simpl in H. destruct (max_row rest) as [m|] eqn:Hm.
  - destruct (tarih_leb (Timestamp m) (Timestamp y)) eqn:Hle.
    + injection H as <-.
      destruct Hx as [<-|Hx]; [apply tarih_le_refl|].
      exact (tarih_le_trans _ _ _ (IH m eq_refl x Hx) Hle).
    + injection H as <-. apply tarih_leb_false in Hle.
      destruct Hx as [<-|Hx]; [exact Hle|].
      now apply IH.
  - injection H as <-. apply max_row_None in Hm. subst rest.
    destruct Hx as [<-|[]]. apply tarih_le_refl.
Qed.

Lemma adi_is_true (p : string) (e : FileEntry) :
  adi_is p e = true <-> OrigPath e = p.
Proof. unfold adi_is. apply String.eqb_eq. Qed.

Lemma not_after_true (t : time) (e : FileEntry) :
  not_after t e = true <-> tarih_le (Timestamp e) t.
Proof. reflexivity. Qed.



(** ** Transactions *)

Lemma exec_rows_base (stmt : list FileEntry -> FileEntry -> list FileEntry)
      (f : TxFaults) (entries : list FileEntry) :
  forall i tx tx', exec_rows stmt f i entries tx = Ok tx' ->
                   tx_base tx' = tx_base tx.
Proof.
  induction entries as [|e rest IH]; intros i tx tx' H; simpl in H.
  - now injection H as <-.
  - destruct (exec_err f i); [discriminate|].
    apply IH in H. exact H.
Qed.

Lemma exec_rows_insert (f : TxFaults) (entries : list FileEntry) :
  forall i tx tx', exec_rows insert f i entries tx = Ok tx' ->
                   tx_rows tx' = tx_rows tx ++ entries.
Proof.
  induction entries as [|e rest IH]; intros i tx tx' H; simpl in H.
  - injection H as <-. now rewrite app_nil_r.
  - destruct (exec_err f i); [discriminate|].
    apply IH in H. rewrite H. simpl. unfold insert.
    now rewrite <- app_assoc.
Qed.

Lemma insert_or_replace_appends (rows : list FileEntry) (e : FileEntry) :
  insert_or_replace rows e = rows ++ [e].
Proof.
  unfold insert_or_replace, unique_constraints. simpl.
  f_equal. induction rows as [|x rest IH]; [reflexivity|].
  simpl. now rewrite IH.
Qed.

Lemma exec_rows_insert_or_replace (f : TxFaults) (entries : list FileEntry) :
  forall i tx tx', exec_rows insert_or_replace f i entries tx = Ok tx' ->
                   tx_rows tx' = tx_rows tx ++ entries.
Proof.
  induction entries as [|e rest IH]; intros i tx tx' H; simpl in H.
  - injection H as <-. now rewrite app_nil_r.
  - destruct (exec_err f i); [discriminate|].
    apply IH in H. rewrite H. simpl. rewrite insert_or_replace_appends.
    now rewrite <- app_assoc.
Qed.

Lemma with_rows_same (c : Catalog) : with_rows c (dosyalar c) = c.
Proof. now destruct c. Qed.

(** [AddEntries] is all-or-nothing: it either reports success and has
    appended every entry in order, or reports an error and has left the
    catalog as it was. *)
Lemma AddEntries_atomic (c : Catalog) (f : TxFaults) (entries : list FileEntry) :
  (AddEntries c f entries = (None, with_rows c (dosyalar c ++ entries))) \/
  (exists e, AddEntries c f entries = (Some e, c)).
Proof.
  unfold AddEntries, Begin.
  destruct (db_err c) as [e|] eqn:Hdb; [right; now exists e|].
  destruct (begin_err f) as [e|]; [right; now exists e|].
  unfold Rollback. simpl tx_base.
  destruct (prepare_err f) as [e|].
  { right. exists e. now rewrite with_rows_same. }
  destruct (exec_rows insert f 0 entries _) as [tx'|e] eqn:Hx.
  - pose proof (exec_rows_base _ _ _ _ _ _ Hx) as Hb.
    pose proof (exec_rows_insert _ _ _ _ _ Hx) as Hr. simpl in Hb, Hr.
    unfold Commit, Rollback. destruct (commit_err f) as [e|].
    + right. exists e. now rewrite Hb, with_rows_same.
    + left. now rewrite Hr.
  - right. exists e. now rewrite with_rows_same.
Qed.

(** A successful import appends every row of the snapshot: nothing is
    replaced, because the table has no uniqueness constraint. *)
Lemma ImportFromFile_appends
      (c : Catalog) (rows : list FileEntry) (f : TxFaults) (c' : Catalog) :
  ImportFromFile c (Ok rows) f = (None, c') ->
  dosyalar c' = dosyalar c ++ rows.
Proof.
  unfold ImportFromFile, Begin.
  destruct (db_err c); [discriminate|].
  destruct (begin_err f); [discriminate|].
  destruct (prepare_err f); [discriminate|].
  destruct (exec_rows insert_or_replace f 0 rows _) as [tx'|e] eqn:Hx;
    [|discriminate].
  pose proof (exec_rows_insert_or_replace _ _ _ _ _ Hx) as Hr. simpl in Hr.
  unfold Commit. destruct (commit_err f); [discriminate|].
  intros H. injection H as <-. exact Hr.
Qed.

(** ** [NeedsBackup] *)

Lemma can_slice8_hash (h : string) : is_content_hash h -> can_slice8 h = true.
Proof. unfold is_content_hash, can_slice8. intros ->. reflexivity. Qed.

Lemma GetLatestVersion_In (c : Catalog) (p : string) (e : FileEntry) :
  GetLatestVersion c p = Ok (Some e) -> In e (dosyalar c) /\ OrigPath e = p.
Proof.
  unfold GetLatestVersion. destruct (db_err c); [discriminate|].
  intros H. injection H as H. apply newest_In in H.
  apply filter_In in H. now rewrite adi_is_true in H.
Qed.

(** On a working catalog of well-formed hashes [NeedsBackup] returns, and
    its answer is computed from the latest version's content hash alone. *)
Lemma NeedsBackup_returns (c : Catalog) (p h : string) (sz : Z) :
  db_err c = None -> content_hashes_ok c -> is_content_hash h ->
  exists latest,
    GetLatestVersion c p = Ok latest /\
    NeedsBackup c p h sz =
      Return (Ok match latest with
                 | None => true
                 | Some e => negb (String.eqb (ContentHash e) h)
                 end).
Proof.
  intros Hdb Hok Hh. unfold NeedsBackup.
  destruct (GetLatestVersion c p) as [latest|e] eqn:Hl.
  - exists latest. split; [reflexivity|].
    destruct latest as [e|]; [|reflexivity].
    destruct (GetLatestVersion_In _ _ _ Hl) as [Hin _].
    rewrite (can_slice8_hash _ (Hok _ Hin)), (can_slice8_hash _ Hh). simpl.
    now destruct (String.eqb (ContentHash e) h).
  - unfold GetLatestVersion in Hl. rewrite Hdb in Hl. discriminate.
Qed.

(** ** [GROUP BY adi] *)

Lemma group_by_adi_from_In (rows : list FileEntry) :
  forall seen e, In e (group_by_adi_from seen rows) -> In e rows.
Proof.
  induction rows as [|x rest IH]; intros seen e H; simpl in *; [assumption|].
  destruct (existsb _ seen).
  - right. now apply IH in H.
  - destruct H as [<-|H]; [now left|right; now apply IH in H].
Qed.

Lemma group_by_adi_from_fresh (rows : list FileEntry) :
  forall seen e, In e (group_by_adi_from seen rows) ->
                 ~ In (OrigPath e) seen.
Proof.
  induction rows as [|x rest IH]; intros seen e H; simpl in *; [contradiction|].
  destruct (existsb (String.eqb (OrigPath x)) seen) eqn:Hx.
  - now apply IH.
  - destruct H as [<-|H].
    + intros Hin. assert (existsb (String.eqb (OrigPath x)) seen = true);
        [|congruence].
      apply existsb_exists. exists (OrigPath x). split; [assumption|].
      apply String.eqb_refl.
    + apply IH in H. intros Hin. apply H. now right.
Qed.

Lemma group_by_adi_from_NoDup (rows : list FileEntry) :
  forall seen, NoDup (map OrigPath (group_by_adi_from seen rows)).
Proof.
  induction rows as [|x rest IH]; intros seen; simpl; [constructor|].
  destruct (existsb (String.eqb (OrigPath x)) seen); [apply IH|].
  simpl. constructor; [|apply IH].
  intros Hin. apply in_map_iff in Hin. destruct Hin as (e & He & Hin).
  apply group_by_adi_from_fresh in Hin. apply Hin. left. now symmetry.
Qed.

Lemma group_by_adi_from_complete (rows : list FileEntry) :
  forall seen e, In e rows -> ~ In (OrigPath e) seen ->
                 exists e', In e' (group_by_adi_from seen rows) /\
                            OrigPath e' = OrigPath e.
Proof.
  induction rows as [|x rest IH]; intros seen e Hin Hfresh; [contradiction|].
  simpl. destruct (existsb (String.eqb (OrigPath x)) seen) eqn:Hx.
  - destruct Hin as [->|Hin].
    + apply existsb_exists in Hx. destruct Hx as (k & Hk & Heq).
      apply String.eqb_eq in Heq. subst k. contradiction.
    + now apply IH.
  - destruct Hin as [->|Hin]; [exists e; split; [now left|reflexivity]|].
    destruct (String.eqb (OrigPath e) (OrigPath x)) eqn:He.
    + apply String.eqb_eq in He. exists x. split; [now left|now symmetry].
    + apply String.eqb_neq in He.
      destruct (IH (OrigPath x :: seen) e Hin) as (e' & Hin' & Hp).
      * intros [Heq|Hs]; [now apply He|contradiction].
      * exists e'. split; [now right|assumption].
Qed.

(** ** [ORDER BY dizin, adi] *)

Lemma insert_sorted_perm (e : FileEntry) (l : list FileEntry) :
  Permutation (insert_sorted e l) (e :: l).
Proof.
  induction l as [|x rest IH]; simpl; [reflexivity|].
  destruct (dizin_adi_leb e x); [reflexivity|].
  rewrite IH. apply perm_swap.
Qed.

Lemma order_by_dizin_adi_perm (l : list FileEntry) :
  Permutation (order_by_dizin_adi l) l.
Proof.
  induction l as [|x rest IH]; simpl; [reflexivity|].
  rewrite insert_sorted_perm. now constructor.
Qed.

(** ** [GROUP BY adi] in the order of [adi] *)

Lemma insert_by_adi_perm (g : string * time) (l : list (string * time)) :
  Permutation (insert_by_adi g l) (g :: l).
Proof.
  induction l as [|x rest IH]; simpl; [reflexivity|].
  destruct (String.leb (fst g) (fst x)); [reflexivity|].
  rewrite IH. apply perm_swap.
Qed.

Lemma order_by_adi_perm (l : list (string * time)) :
  Permutation (order_by_adi l) l.
Proof.
  induction l as [|x rest IH]; simpl; [reflexivity|].
  rewrite insert_by_adi_perm. now constructor.
Qed.

Lemma order_by_adi_In (l : list (string * time)) (g : string * time) :
  In g (order_by_adi l) <-> In g l.
Proof.
  split; apply Permutation_in;
    [apply order_by_adi_perm|apply Permutation_sym, order_by_adi_perm].
Qed.

(** ** The latest version at an instant *)



(** When every row was stored under the offset of [t], the latest version
    by text is the latest version by instant. *)
Lemma stored_in_zone_le (z : Z) (rows : list FileEntry) (t : time)
      (e : FileEntry) :
  stored_in_zone z rows -> zone t = z -> In e rows ->
  (tarih_le (Timestamp e) t <-> Timestamp e <= t).
Proof.
  intros Hz Ht Hin. apply tarih_le_same_zone. rewrite Ht. now apply Hz.
Qed.

Lemma stored_in_zone_between (z : Z) (rows : list FileEntry)
      (a b : FileEntry) :
  stored_in_zone z rows -> In a rows -> In b rows ->
  (tarih_le (Timestamp a) (Timestamp b) <-> Timestamp a <= Timestamp b).
Proof.
  intros Hz Ha Hb. apply tarih_le_same_zone.
  rewrite (Hz a Ha). symmetry. now apply Hz.
Qed.

Lemma latest_at_same_zone (rows : list FileEntry) (t : time) (e : FileEntry) :
  stored_in_zone (zone t) rows -> In e rows ->
  (tarih_latest_at rows t e <-> latest_at rows t e).
Proof.
  intros Hz Hin. unfold tarih_latest_at, latest_at.
  rewrite (stored_in_zone_le _ rows t e Hz eq_refl Hin).
  split; intros [Ht Hmax]; (split; [exact Ht|]); intros e' Hin' Hp' Ht'.
  - apply (stored_in_zone_between _ rows e' e Hz Hin' Hin).
    apply Hmax; try assumption.
    now apply (stored_in_zone_le _ rows t e' Hz eq_refl Hin').
  - apply (stored_in_zone_between _ rows e' e Hz Hin' Hin).
    apply Hmax; try assumption.
    now apply (stored_in_zone_le _ rows t e' Hz eq_refl Hin').
Qed.

Section FilesAtTimestampProperties.

Variable Base : string -> string.



End FilesAtTimestampProperties.

(** [GetFilesAtTime] applies no slack: every row it returns was stored at or
    before [targetTime] itself. *)
Lemma GetFilesAtTime_bound (c : Catalog) (t : time) (l : list FileEntry) :
  GetFilesAtTime c t = Ok l ->
  forall e, In e l -> In e (dosyalar c) /\ tarih_le (Timestamp e) t.
Proof.
  unfold GetFilesAtTime. destruct (db_err c); [discriminate|].
  intros H. injection H as <-. intros e Hin.
  apply in_flat_map in Hin. destruct Hin as (d2 & Hd2 & Hin).
  apply filter_In in Hin. destruct Hin as [Hin Hj].
  split; [assumption|].
  unfold joins in Hj. apply andb_true_iff in Hj. destruct Hj as [_ Hj].
  apply tarih_eqb_eq in Hj. rewrite Hj.
  apply (proj1 (order_by_adi_In _ _)) in Hd2.
  unfold max_per_adi in Hd2. apply in_flat_map in Hd2.
  destruct Hd2 as (g & _ & Hd2).
  unfold max_tarih in Hd2.
  destruct (newest _) as [m|] eqn:Hm; simpl in Hd2; [|contradiction].
  destruct Hd2 as [<-|[]]. simpl.
  apply newest_In in Hm. apply filter_In in Hm. destruct Hm as [Hm _].
  apply filter_In in Hm. destruct Hm as [_ Hm]. now apply not_after_true.
Qed.

End CatalogProperties.

(** * Properties of internal/backup *)

Section BackupProperties.

Import Catalog Backup.

Variable Abs : string -> string.
Variable Ext : string -> string.
Variable Dir : string -> string.
Variable ToLower : string -> string.
Variable HashPath : string -> string.
Variable Format : time -> string.

Local Abbreviation Run := (Backup.Run Abs Ext Dir ToLower HashPath).
Local Abbreviation pack_loop := (Backup.pack_loop Dir).

(** ** Shards *)

Lemma sum_sizes_app (l1 l2 : list Z) :
  sum_sizes (l1 ++ l2) = sum_sizes l1 + sum_sizes l2.
Proof.
  unfold sum_sizes. induction l1 as [|x l1 IH]; simpl; [reflexivity|].
  rewrite IH. lia.
Qed.

Lemma wrap64_small (z : Z) : - 2 ^ 63 <= z < 2 ^ 63 -> wrap64 z = z.
Proof.
  intros Hz. unfold wrap64. rewrite Z.mod_small; lia.
Qed.

Lemma maxTarSize_value : maxTarSize = 26214400.
Proof. reflexivity. Qed.

Lemma sum_sizes_prefix (pre suf : list Z) :
  Forall (fun x => 0 <= x) (pre ++ suf) ->
  sum_sizes pre <= sum_sizes (pre ++ suf).
Proof.
  intros H. apply Forall_app in H. destruct H as [_ H].
  rewrite sum_sizes_app.
  assert (0 <= sum_sizes suf); [|lia].
  unfold sum_sizes. induction H as [|x l Hx _ IH]; simpl; lia.
Qed.

Lemma proper_prefix (pre suf l : list Z) (x : Z) :
  l ++ [x] = pre ++ suf -> suf <> [] ->
  exists suf', l = pre ++ suf'.
Proof.
  intros Heq Hne.
  destruct (exists_last Hne) as (suf' & y & ->).
  rewrite app_assoc in Heq. apply app_inj_tail in Heq.
  destruct Heq as [-> _]. now exists suf'.
Qed.

Lemma appended_member_ok (n : nat) (l : list Z) (x : Z) :
  Forall (fun x => 0 <= x) l ->
  sum_sizes l <= maxTarSize ->
  shard_ok {| shard_part := n; shard_members := l ++ [x] |}.
Proof.
  intros Hpos Hl pre suf Heq Hne. simpl in Heq.
  destruct (proper_prefix _ _ _ _ Heq Hne) as (suf' & ->).
  pose proof (sum_sizes_prefix _ _ Hpos). lia.
Qed.

Lemma open_tar_shard_ok (n : nat) (st : PackState) :
  open_tar_ok st ->
  shard_ok {| shard_part := n; shard_members := members st |}.
Proof.
  intros (Hsum & Hrange & Hpos) pre suf Heq Hne. simpl in Heq.
  rewrite Heq in Hpos, Hsum.
  pose proof (sum_sizes_prefix _ _ Hpos). lia.
Qed.

(** The packing loop keeps every closed shard within the bound up to its
    last member, closes a shard only when it has passed the bound, and
    leaves the open tar within the bound. *)
Lemma pack_loop_shards (env : Env) (timestamp : time) :
  sizes_in_range env ->
  forall files i st err st',
    open_tar_ok st ->
    Forall shard_ok (sealed st) -> Forall tipped (sealed st) ->
    pack_loop env timestamp i files st = (err, st') ->
    Forall shard_ok (sealed st') /\ Forall tipped (sealed st') /\
    (err = None -> open_tar_ok st').
Proof.
  intros Hsz.
  induction files as [|file rest IH]; intros i st err st' Hopen Hsealed Htip H.
  - simpl in H. injection H as <- <-. auto.
  - simpl in H. destruct (stop_requested env i).
    { injection H as <- <-. repeat split; try assumption; discriminate. }
    destruct (pack env i file) as [|encSize packedSize] eqn:Hp.
    { eapply IH; eassumption. }
    pose proof (Hsz _ _ _ _ Hp) as Hrange.
    destruct Hopen as (Hsum & Hts & Hpos).
    pose proof maxTarSize_value as Hmax.
    assert (Hw : wrap64 (tarSize st + encSize) = tarSize st + encSize).
    { apply wrap64_small. lia. }
    cbn [tarSize tarPart members catalogEntries doneBytes sealed] in H.
    rewrite Hw in H.
    destruct (tarSize st + encSize >? maxTarSize) eqn:Hgt.
    + rewrite Z.gtb_ltb in Hgt. apply Z.ltb_lt in Hgt.
      assert (Hnew : Forall shard_ok
                (sealed st ++ [{| shard_part := tarPart st;
                                  shard_members := members st ++ [encSize] |}])).
      { apply Forall_app. split; [assumption|].
        constructor; [|constructor].
        apply appended_member_ok; [assumption|lia]. }
      assert (Hnew' : Forall tipped
                (sealed st ++ [{| shard_part := tarPart st;
                                  shard_members := members st ++ [encSize] |}])).
      { apply Forall_app. split; [assumption|].
        constructor; [|constructor].
        unfold tipped. simpl. rewrite sum_sizes_app.
        unfold sum_sizes at 2. simpl. lia. }
      destruct (uploadTar env (tarPart st)).
      { injection H as <- <-. repeat split; try assumption; discriminate. }
      destruct (create_tar env (S (tarPart st))).
      { injection H as <- <-. repeat split; try assumption; discriminate. }
      eapply IH; [| | |exact H]; try assumption.
      repeat split; simpl; try lia. constructor.
    + rewrite Z.gtb_ltb in Hgt. apply Z.ltb_ge in Hgt.
      eapply IH; [| | |exact H]; try assumption.
      repeat split; simpl.
      * rewrite sum_sizes_app. unfold sum_sizes at 2. simpl. lia.
      * lia.
      * lia.
      * apply Forall_app. split; [assumption|]. constructor; [lia|constructor].
Qed.

Lemma initial_tar_ok :
  open_tar_ok {| tarSize := 0; tarPart := 1; members := [];
                 catalogEntries := []; doneBytes := 0; sealed := [] |}.
Proof.
  unfold open_tar_ok. simpl. split; [reflexivity|].
  split; [rewrite maxTarSize_value; lia|constructor].
Qed.

(** Case analysis on a finished [Run]. *)
Ltac run_cases H :=
  unfold Backup.Run, finish in H;
  repeat match type of H with
         | context [if ?b then _ else _] => destruct b eqn:?
         | context [match ?x with _ => _ end] => destruct x eqn:?
         end;
  try discriminate H;
  injection H as <- <- <-.

(** C6: in every session, each tar part that was closed and handed to the
    uploader is within [maxTarSize] = 25 MiB once its final member is left
    out; more precisely no proper prefix of its members passes the bound
    (the part is closed as soon as the bound is passed), and every part but
    the last one of the session was closed because it had passed it. *)
Theorem sealed_shards_within_bound
        (s : Service) (env : Env) (err : error) (s' : Service) (rep : Report) :
  sizes_in_range env ->
  Run s env = Return (err, s', rep) ->
  (forall sh, In sh (shards rep) ->
     (forall pre last,
        shard_members sh = pre ++ [last] ->
        sum_sizes (shard_members sh) - last <= maxTarSize) /\
     (forall pre suf,
        shard_members sh = pre ++ suf -> suf <> [] ->
        sum_sizes pre <= maxTarSize)) /\
  (forall before final,
     shards rep = before ++ [final] ->
     forall sh, In sh before -> maxTarSize < sum_sizes (shard_members sh)).
Proof.
  intros Hsz H.
  assert (Hall : Forall shard_ok (shards rep) /\
                 forall before final, shards rep = before ++ [final] ->
                                      Forall tipped before).
  { run_cases H; simpl;
      try (split; [constructor|];
           intros before final Hnil; now destruct before);
      match goal with
      | Hl : pack_loop _ _ _ _ _ = _ |- _ =>
          destruct (pack_loop_shards env _ Hsz _ _ _ _ _
                      initial_tar_ok (Forall_nil _) (Forall_nil _) Hl)
            as (Hok & Htip & Hopen)
      end;
      try (split;
           [ apply Forall_app; split;
             [assumption
             |constructor; [apply open_tar_shard_ok; now apply Hopen|constructor]]
           | intros before final Heq; apply app_inj_tail in Heq;
             destruct Heq as [<- _]; assumption ]);
      try (split;
           [ assumption
           | intros before final Heq; rewrite Heq in Htip;
             apply Forall_app in Htip; tauto ]). }
  destruct Hall as [Hok Htip]. split.
  - intros sh Hin. rewrite Forall_forall in Hok. specialize (Hok sh Hin).
    split.
    + intros pre last Heq.
      assert (sum_sizes pre <= maxTarSize) as Hpre
          by (apply (Hok pre [last] Heq); discriminate).
      rewrite Heq, sum_sizes_app. unfold sum_sizes at 2. simpl. lia.
    + exact Hok.
  - intros before final Heq sh Hin.
    specialize (Htip before final Heq). rewrite Forall_forall in Htip.
    exact (Htip sh Hin).
Qed.

(** ** The commit point *)

Lemma upload_snapshot_error (env : Env) (c : Catalog) (e : string) :
  upload_snapshot env c = Some e ->
  e <> "backup cancelled" /\
  forall e', e <> ("failed to upload tar: " ++ e')%string.
Proof.
  unfold upload_snapshot.
  destruct (ExportToFile c); [|intros H; injection H as <-; simpl; split;
                                [discriminate|intros; discriminate]].
  destruct (export_err env);
    [intros H; injection H as <-; simpl; split;
     [discriminate|intros; discriminate]|].
  destruct (encrypt_catalog_err env);
    [intros H; injection H as <-; simpl; split;
     [discriminate|intros; discriminate]|].
  destruct (uploadCatalog env);
    [intros H; injection H as <-; simpl; split;
     [discriminate|intros; discriminate]|].
  discriminate.
Qed.

(** C5: [AddEntries] appends all the entries it is given or none of them
    (any failure leaves the catalog as it was), and a session that ends
    before [AddEntries] is invoked -- in particular a cancelled one, or one
    whose tar upload failed -- leaves the catalog, hence the latest version
    of every path, unchanged. *)
Theorem commit_all_or_nothing
        (s : Service) (env : Env)
        (c : Catalog) (f : TxFaults) (entries : list FileEntry) :
  (AddEntries c f entries = (None, with_rows c (dosyalar c ++ entries)) \/
   exists e, AddEntries c f entries = (Some e, c)) /\
  (forall err s' rep,
      Run s env = Return (err, s', rep) ->
      (addEntriesCalled rep = false ->
       catalog s' = catalog s /\
       forall p, GetLatestVersion (catalog s') p
                 = GetLatestVersion (catalog s) p) /\
      (err = Some "backup cancelled" -> addEntriesCalled rep = false) /\
      ((exists e, err = Some ("failed to upload tar: " ++ e)%string) ->
       addEntriesCalled rep = false) /\
      (catalog s' = catalog s \/
       exists es, es <> [] /\
                  catalog s'
                  = with_rows (catalog s) (dosyalar (catalog s) ++ es))).
Proof.
  split; [apply AddEntries_atomic|].
  intros err s' rep H.
  run_cases H; simpl.
  all: try match goal with
           | Ha : AddEntries ?c ?f ?es = _ |- _ =>
               destruct (AddEntries_atomic c f es) as [Hs|[e' Hs]];
               rewrite Hs in Ha;
               first [discriminate Ha | inversion Ha; subst]
           end.
  all: try match goal with
           | Hu : upload_snapshot _ _ = Some _ |- _ =>
               destruct (upload_snapshot_error _ _ _ Hu) as [Hu1 Hu2]
           end.
  all: repeat split; try reflexivity; try discriminate.
  all: try (now left).
  all: try (intros [? Heq]; discriminate Heq).
  all: try (intros Heq; injection Heq as Heq; congruence).
  all: try (intros [e'' Heq]; injection Heq as Heq; simpl in Heq;
            first [discriminate | now apply Hu2 in Heq]).
  all: try (right; eexists; split; [|reflexivity]; discriminate).
Qed.

(** ** Session timestamps *)


(** A start while a session is running is refused and changes nothing. *)
Lemma Run_refused_while_running (s : Service) (env : Env) :
  isRunning s = true ->
  Run s env = Return (Some "backup already running", s, no_report).
Proof. intros H. unfold Backup.Run. now rewrite H. Qed.



(** ** The scanner *)

Lemma visit_changed (s : Service) (env : Env) (st : ScanState) (w : WalkEntry) :
  db_err (catalog s) = None -> content_hashes_ok (catalog s) ->
  hashes_content env ->
  Forall (changed s env) (sc_files st) ->
  exists st', visit Abs Ext ToLower HashPath s env st w = Return st' /\
              Forall (changed s env) (sc_files st').
Proof.
  intros Hdb Hok Henv Hall. unfold visit.
  destruct (w_err w || w_isDir w)%bool; [now exists st|].
  destruct (w_size w =? 0); [now exists st|].
  destruct (seen _ _); [now exists st|].
  destruct (blacklisted _ _); [eexists; split; [reflexivity|exact Hall]|].
  destruct (HashFileContent env (w_path w)) as [h|e] eqn:Hh;
    [|eexists; split; [reflexivity|exact Hall]].
  destruct (NeedsBackup_returns (catalog s) (w_path w) h (w_size w)
              Hdb Hok (Henv _ _ Hh)) as (latest & Hl & ->).
  destruct latest as [e|]; simpl.
  - destruct (String.eqb (ContentHash e) h) eqn:He; simpl.
    + eexists; split; [reflexivity|exact Hall].
    + eexists; split; [reflexivity|]. simpl.
      apply Forall_app. split; [exact Hall|]. constructor; [|constructor].
      split; simpl; [exact Hh|].
      intros e' He'. rewrite Hl in He'. injection He' as <-.
      now apply String.eqb_neq.
  - eexists; split; [reflexivity|]. simpl.
    apply Forall_app. split; [exact Hall|]. constructor; [|constructor].
    split; simpl; [exact Hh|].
    intros e' He'. rewrite Hl in He'. discriminate.
Qed.

Lemma walk_all_changed (s : Service) (env : Env) (ws : list WalkEntry) :
  db_err (catalog s) = None -> content_hashes_ok (catalog s) ->
  hashes_content env ->
  forall st, Forall (changed s env) (sc_files st) ->
  exists st', walk_all Abs Ext ToLower HashPath s env st ws = Return st' /\
              Forall (changed s env) (sc_files st').
Proof.
  intros Hdb Hok Henv.
  induction ws as [|w rest IH]; intros st Hall; simpl.
  - now exists st.
  - destruct (visit_changed s env st w Hdb Hok Henv Hall) as (st1 & -> & H1).
    now apply IH.
Qed.

(** C4: on a working catalog, for a content hash [h] (the catalog's stored
    hashes being content hashes too), [NeedsBackup p h size] returns [true]
    exactly when [p] has no latest version or the latest version's content
    hash differs from [h]; the size never changes the result; and the
    scanner, which hashes each file and asks [NeedsBackup], emits a record
    only for files whose current content hash differs from the hash of
    their latest catalog version, if they have one. *)
Theorem NeedsBackup_decides_on_content_hash
        (c : Catalog) (p h : string) (sz : Z) :
  db_err c = None -> content_hashes_ok c -> is_content_hash h ->
  exists latest,
    GetLatestVersion c p = Ok latest /\
    (exists b,
        NeedsBackup c p h sz = Return (Ok b) /\
        (b = true <->
         latest = None \/ exists e, latest = Some e /\ ContentHash e <> h)) /\
    (forall sz', NeedsBackup c p h sz' = NeedsBackup c p h sz) /\
    (forall s env dir seenPaths,
        catalog s = c -> hashes_content env ->
        exists files scanned skipped seenPaths',
          scanDirectoryIncrementalWithProgress
            Abs Ext ToLower HashPath s env dir seenPaths
          = Return (files, scanned, skipped, None, seenPaths') /\
          forall f, In f files ->
            HashFileContent env (path f) = Ok (contentHash f) /\
            forall e, GetLatestVersion c (path f) = Ok (Some e) ->
                      ContentHash e <> contentHash f).
Proof.
  intros Hdb Hok Hh.
  destruct (NeedsBackup_returns c p h sz Hdb Hok Hh) as (latest & Hl & Hn).
  exists latest. split; [exact Hl|]. split; [|split].
  - eexists. split; [exact Hn|].
    destruct latest as [e|].
    + rewrite negb_true_iff, String.eqb_neq. split.
      * intros Hne. right. now exists e.
      * intros [Hnone|(e' & He' & Hne)]; [discriminate|].
        now injection He' as ->.
    + split; [now left|reflexivity].
  - intros sz'.
    destruct (NeedsBackup_returns c p h sz' Hdb Hok Hh) as (latest' & Hl' & Hn').
    rewrite Hl in Hl'. injection Hl' as <-. now rewrite Hn, Hn'.
  - intros s env dir seenPaths Hc Henv. subst c.
    unfold scanDirectoryIncrementalWithProgress.
    destruct (walk_all_changed s env (walk env dir) Hdb Hok Henv
                {| sc_files := []; sc_scanned := 0; sc_skipped := 0;
                   sc_seen := seenPaths |} (Forall_nil _))
      as (st' & -> & Hall).
    do 4 eexists. split; [reflexivity|].
    intros f Hin. rewrite Forall_forall in Hall. exact (Hall f Hin).
Qed.

(** ** Restore requests *)

(** C9: every element of the request that [RestoreFile] or
    [RestoreDirectory] posts to [restore-files] pairs the hashed name of a
    version resolved from the catalog with that version's own timestamp,
    formatted; the requested time is only used to resolve the versions. *)
Theorem restore_requests_carry_version_timestamp
        (s : Service) (target : string) (targetDate : time)
        (reqs : list fileRequest) :
  (RestoreFile Format s target targetDate = Ok reqs ->
   exists file,
     GetFileAtTime (catalog s) target targetDate = Ok (Some file) /\
     In file (dosyalar (catalog s)) /\
     reqs = [{| ReqHashedName := HashedName file;
                ReqTargetDate := Format (Timestamp file) |}]) /\
  (RestoreDirectory Format s target targetDate = Ok reqs ->
   exists files,
     GetFilesInDirAtTime (catalog s) target targetDate = Ok files /\
     (forall f, In f files -> In f (dosyalar (catalog s))) /\
     reqs = map (fun f => {| ReqHashedName := HashedName f;
                             ReqTargetDate := Format (Timestamp f) |})
                files).
Proof.
  split.
  - unfold RestoreFile. destruct (isRunning s); [discriminate|].
    destruct (GetFileAtTime (catalog s) target targetDate)
      as [[file|]|e] eqn:Hg; try discriminate.
    intros H. injection H as <-. exists file.
    split; [reflexivity|]. split; [|reflexivity].
    unfold GetFileAtTime in Hg. destruct (db_err (catalog s)); [discriminate|].
    injection Hg as Hg. apply newest_In in Hg.
    now apply filter_In in Hg.
  - unfold RestoreDirectory. destruct (isRunning s); [discriminate|].
    destruct (GetFilesInDirAtTime (catalog s) target targetDate)
      as [files|e] eqn:Hg; [|discriminate].
    destruct files as [|f0 rest]; [discriminate|].
    intros H. injection H as <-. exists (f0 :: rest).
    split; [reflexivity|]. split; [|reflexivity].
    unfold GetFilesInDirAtTime in Hg.
    destruct (db_err (catalog s)); [discriminate|].
    injection Hg as Hg. intros f Hin. rewrite <- Hg in Hin.
    apply group_by_adi_from_In in Hin. now apply filter_In in Hin.
Qed.

End BackupProperties.

(** * The model at work *)

Section Runs.

Import Catalog Backup Scenario Fixtures.

(** C1, at a concrete input: importing the snapshot [[a_v1]] into the empty
    catalog once leaves one row, importing it a second time leaves two equal
    rows -- [INSERT OR REPLACE] replaces nothing on a table without a
    uniqueness constraint -- so the two catalogs are different multisets. *)
Theorem ImportFromFile_twice_duplicates :
  let once := snd (ImportFromFile empty_catalog (Ok [a_v1]) no_faults) in
  let twice := snd (ImportFromFile once (Ok [a_v1]) no_faults) in
  dosyalar once = [a_v1] /\
  dosyalar twice = [a_v1; a_v1] /\
  ~ Permutation (dosyalar twice) (dosyalar once).
Proof.
  split; [reflexivity|]. split; [reflexivity|].
  intros H. apply Permutation_length in H. discriminate H.
Qed.

(** The same for any snapshot with at least one row. *)
Lemma ImportFromFile_not_idempotent
      (c c1 c2 : Catalog) (rows : list FileEntry) (f : TxFaults) :
  rows <> [] ->
  ImportFromFile c (Ok rows) f = (None, c1) ->
  ImportFromFile c1 (Ok rows) f = (None, c2) ->
  dosyalar c2 = dosyalar c ++ rows ++ rows /\
  ~ Permutation (dosyalar c2) (dosyalar c1).
Proof.
  intros Hne H1 H2.
  apply ImportFromFile_appends in H1. apply ImportFromFile_appends in H2.
  rewrite H2, H1, <- app_assoc. split; [reflexivity|].
  intros H. apply Permutation_length in H.
  rewrite !length_app in H. destruct rows; [congruence|simpl in H; lia].
Qed.



(** The same input, evaluated. *)
Example file_across_zones :
  Timestamp a_east <= T1 + Second /\
  GetFileAtTime catalog_east a_txt T1 = Ok None /\
  GetFileAtTime catalog_v1 a_txt T1 = Ok (Some a_v1).
Proof. split; [vm_compute; discriminate|]. split; reflexivity. Qed.

(** The query of the third scenario: between the first and the third
    session the file is still at its first version. *)
Example file_at_T2 :
  GetFileAtTime catalog_v13 a_txt (T1 + Second) = Ok (Some a_v1).
Proof. reflexivity. Qed.

(** C3, at a concrete input: the only version of [a.txt] was written 91 ms
    into the second [T1], hence at or before [T1 + 1s]; [GetFilesAtTime T1]
    compares with [T1] itself and returns nothing, whereas the sibling
    queries, which add the one-second buffer, find the version. *)
Theorem GetFilesAtTime_without_slack :
  Timestamp a_v1 <= T1 + Second /\
  GetFilesAtTime catalog_v1 T1 = Ok [] /\
  GetFileAtTime catalog_v1 a_txt T1 = Ok (Some a_v1) /\
  GetFilesInDirAtTime catalog_v1 "/data/" T1 = Ok [a_v1] /\
  GetFilesAtTimestamp Base catalog_v1 T1
  = Ok [{| InfoOrigPath := a_txt; InfoDirectory := "/data";
           InfoFileName := "a.txt"; InfoLatestVersion := Timestamp a_v1;
           InfoVersionCount := 1; InfoSize := 5 |}].
Proof.
  split; [vm_compute; discriminate|]. repeat split; reflexivity.
Qed.

(** [GetFilesAtTime] does not group the rows it joins: a version stored
    twice comes back twice. *)
Example GetFilesAtTime_duplicates :
  GetFilesAtTime {| dosyalar := [a_v1; a_v1]; db_err := None |} (T1 + Second)
  = Ok [a_v1; a_v1].
Proof. reflexivity. Qed.

Lemma content_hashes_ok_v1 : content_hashes_ok catalog_v1.
Proof. intros e [<-|[]]. reflexivity. Qed.

Lemma NeedsBackup_decides_on_content_hash_witness :
  exists latest,
    GetLatestVersion catalog_v1 a_txt = Ok latest /\
    (exists b,
        NeedsBackup catalog_v1 a_txt hash_hello 5 = Return (Ok b) /\
        (b = true <->
         latest = None \/
         exists e, latest = Some e /\ ContentHash e <> hash_hello)) /\
    (forall sz', NeedsBackup catalog_v1 a_txt hash_hello sz'
                 = NeedsBackup catalog_v1 a_txt hash_hello 5) /\
    (forall s env dir seenPaths,
        catalog s = catalog_v1 -> hashes_content env ->
        exists files scanned skipped seenPaths',
          scanDirectoryIncrementalWithProgress
            Abs Ext ToLower HashPath s env dir seenPaths
          = Return (files, scanned, skipped, None, seenPaths') /\
          forall f, In f files ->
            HashFileContent env (path f) = Ok (contentHash f) /\
            forall e, GetLatestVersion catalog_v1 (path f) = Ok (Some e) ->
                      ContentHash e <> contentHash f).
Proof.
  apply (NeedsBackup_decides_on_content_hash Abs Ext ToLower HashPath
           catalog_v1 a_txt hash_hello 5).
  - reflexivity.
  - exact content_hashes_ok_v1.
  - reflexivity.
Defined.

(** The second scenario: an unchanged file yields no change record. *)
Example unchanged_file_not_emitted :
  scanDirectoryIncrementalWithProgress
    Abs Ext ToLower HashPath (service catalog_v1) first_session "/data" []
  = Return ([], 1, 1, None, [a_txt]).
Proof. reflexivity. Qed.

Lemma commit_all_or_nothing_witness :
  exists err s' rep,
    run (service catalog_v1) cancelled_session = Return (err, s', rep) /\
    err = Some "backup cancelled" /\
    forall p, GetLatestVersion (catalog s') p
              = GetLatestVersion (catalog (service catalog_v1)) p.
Proof.
  destruct (commit_all_or_nothing Abs Ext Dir ToLower HashPath
              (service catalog_v1) cancelled_session
              catalog_v1 no_faults [a_v3]) as [_ H].
  destruct (run (service catalog_v1) cancelled_session)
    as [[[err s'] rep]|m] eqn:Hrun.
  - exists err, s', rep. split; [reflexivity|].
    destruct (H _ _ _ Hrun) as (Hunchanged & Hcancel & _).
    vm_compute in Hrun.
    assert (Herr : err = Some "backup cancelled") by congruence.
    split; [exact Herr|]. apply Hunchanged. exact (Hcancel Herr).
  - vm_compute in Hrun. discriminate Hrun.
Defined.

Lemma big_session_runs :
  run (service empty_catalog) big_session
  = Return (None,
            service {| dosyalar :=
                         map (fun w =>
                                {| Timestamp := T1 + 91 * ms;
                                   Directory := "/data";
                                   OrigPath := w_path w;
                                   HashedName := HashPath (w_path w);
                                   ContentHash := hash_hello;
                                   Size := w_size w;
                                   PackedSize := w_size w |}) big_dir;
                       db_err := None |},
            {| backupID_at := Some (T1 + 90 * ms)%time;
               timestamp_at := Some (T1 + 91 * ms)%time;
               shards := [ {| shard_part := 1;
                              shard_members := [20 * MiB; 10 * MiB] |};
                           {| shard_part := 2; shard_members := [MiB] |} ];
               addEntriesCalled := true;
               catalogUploaded := true |}).
Proof. vm_compute. reflexivity. Qed.

Lemma sealed_shards_within_bound_witness :
  sum_sizes [20 * MiB; 10 * MiB] - 10 * MiB <= maxTarSize /\
  maxTarSize < sum_sizes [20 * MiB; 10 * MiB].
Proof.
  destruct (sealed_shards_within_bound Abs Ext Dir ToLower HashPath
              (service empty_catalog) big_session _ _ _
              ltac:(intros i f a b H; destruct i as [|[|i]];
                    injection H as <- _;
                    vm_compute; (split; [discriminate|reflexivity]))
              big_session_runs) as [Hbound Htipped].
  split.
  - apply (proj1 (Hbound {| shard_part := 1;
                            shard_members := [20 * MiB; 10 * MiB] |}
                         (or_introl eq_refl))
                 [20 * MiB] (10 * MiB) eq_refl).
  - apply (Htipped [{| shard_part := 1;
                       shard_members := [20 * MiB; 10 * MiB] |}]
                   {| shard_part := 2; shard_members := [MiB] |} eq_refl
                   _ (or_introl eq_refl)).
Defined.

Lemma first_session_runs :
  run (service empty_catalog) first_session
  = Return (None, service catalog_v1, first_report).
Proof. vm_compute. reflexivity. Qed.

Lemma hasty_session_runs :
  run (service catalog_v1) hasty_session
  = Return (None,
            service {| dosyalar := [a_v1; a_hasty]; db_err := None |},
            hasty_report).
Proof. vm_compute. reflexivity. Qed.


(** The two sessions also fall into the same whole second, so they share
    their [YYYYMMDD-HHMMSS] session id, and both commit a version. *)
Example sessions_share_their_second :
  backupID_at first_report = Some (T1 + 90 * ms)%time /\
  backupID_at hasty_report = Some (T1 + 500 * ms)%time /\
  (T1 + 90 * ms) / Second = (T1 + 500 * ms) / Second /\
  Format (T1 + 90 * ms) = Format (T1 + 500 * ms).
Proof. repeat split; reflexivity. Qed.


Lemma restore_requests_carry_version_timestamp_witness :
  exists file,
    GetFileAtTime catalog_v13 a_txt (T1 + Second) = Ok (Some file) /\
    In file (dosyalar catalog_v13) /\
    [{| ReqHashedName := HashPath a_txt;
        ReqTargetDate := "2024-01-15T10:00:00" |}]
    = [{| ReqHashedName := HashedName file;
          ReqTargetDate := Format (Timestamp file) |}].
Proof.
  exact (proj1 (restore_requests_carry_version_timestamp
                  Format (service catalog_v13) a_txt (T1 + Second)
                  [{| ReqHashedName := HashPath a_txt;
                      ReqTargetDate := "2024-01-15T10:00:00" |}])
               eq_refl).
Defined.

(** Asked for 10:00:01, both restores request the version of 10:00:00 under
    its own date. *)
Example restore_at_T2 :
  Format (T1 + Second) = "2024-01-15T10:00:01" /\
  RestoreFile Format (service catalog_v13) a_txt (T1 + Second)
  = Ok [{| ReqHashedName := HashPath a_txt;
           ReqTargetDate := "2024-01-15T10:00:00" |}] /\
  RestoreDirectory Format (service catalog_v13) "/data/" (T1 + Second)
  = Ok [{| ReqHashedName := HashPath a_txt;
           ReqTargetDate := "2024-01-15T10:00:00" |}].
Proof. repeat split; reflexivity. Qed.

End Runs.

(** * Further properties of internal/catalog *)

Section CatalogQueries.

Import Catalog.

(** ** Tar member names *)

Lemma substring_app_suffix (h t : string) :
  substring (String.length h) (String.length t) (h ++ t) = t.
Proof.
  induction h as [|a h IH]; simpl.
  - induction t as [|b t IHt]; simpl; [reflexivity|]. now rewrite IHt.
  - exact IH.
Qed.

Lemma substring_app_prefix (h t : string) :
  substring 0 (String.length h) (h ++ t) = h.
Proof.
  induction h as [|a h IH]; simpl.
  - now destruct t.
  - now rewrite IH.
Qed.

Lemma substring_split (s : string) :
  forall k, (k <= String.length s)%nat ->
            (substring 0 k s ++ substring k (String.length s - k) s)%string = s.
Proof.
  induction s as [|a s IH]; intros k Hk; simpl in *.
  - destruct k; [reflexivity|lia].
  - destruct k as [|k]; simpl.
    + f_equal. specialize (IH 0%nat (Nat.le_0_l _)). simpl in IH.
      rewrite Nat.sub_0_r in IH.
      destruct s; simpl in *; [reflexivity|exact IH].
    + f_equal. apply IH. lia.
Qed.

Lemma length_append (s t : string) :
  String.length (s ++ t) = (String.length s + String.length t)%nat.
Proof. induction s as [|a s IH]; simpl; [reflexivity|now rewrite IH]. Qed.

Lemma stripEncExtension_app (h : string) :
  h <> "" -> stripEncExtension (h ++ ".enc") = h.
Proof.
  intros Hne. unfold stripEncExtension.
  rewrite length_append. simpl String.length.
  replace (String.length h + 4 - 4)%nat with (String.length h) by lia.
  assert (Nat.ltb 4 (String.length h + 4) = true) as ->.
  { apply Nat.ltb_lt. destruct h; [congruence|simpl; lia]. }
  pose proof (substring_app_suffix h ".enc") as Hs. simpl String.length in Hs.
  rewrite Hs. simpl. apply substring_app_prefix.
Qed.

(** X1: [stripEncExtension] undoes the naming of tar members: for every
    non-empty name [h], stripping [h ++ ".enc"] gives back [h]; the bare
    name [".enc"] is left alone; and in general the result is either the
    name itself or the name without one final [".enc"], never empty in the
    latter case. *)
Theorem stripEncExtension_member_name (h : string) :
  (h <> "" -> stripEncExtension (h ++ ".enc") = h) /\
  stripEncExtension ".enc" = ".enc" /\
  (stripEncExtension h = h \/
   (h = (stripEncExtension h ++ ".enc")%string /\ stripEncExtension h <> "")).
Proof.
  split; [apply stripEncExtension_app|split].
  - reflexivity.
  - unfold stripEncExtension.
    destruct (Nat.ltb 4 (String.length h)) eqn:Hlen; simpl; [|now left].
    destruct (String.eqb (substring (String.length h - 4) 4 h) ".enc") eqn:He;
      [|now left].
    right. apply Nat.ltb_lt in Hlen. apply String.eqb_eq in He.
    pose proof (substring_split h (String.length h - 4) ltac:(lia)) as Hs.
    replace (String.length h - (String.length h - 4))%nat with 4%nat in Hs
      by lia.
    rewrite He in Hs. split.
    + now symmetry.
    + intros Hnil. rewrite Hnil in Hs. simpl in Hs.
      rewrite <- Hs in Hlen. simpl in Hlen. lia.
Qed.

(** X2: on a working catalog whose hashed names determine the path, the
    tar member name [{hash}.enc] of any stored version leads back to its
    original path; and a name that no row carries yields [sql.ErrNoRows]. *)
Theorem GetOriginalPath_of_member (c : Catalog) (e : FileEntry) (n : string) :
  db_err c = None ->
  (In e (dosyalar c) ->
   HashedName e <> "" ->
   (forall r, In r (dosyalar c) -> HashedName r = HashedName e ->
              OrigPath r = OrigPath e) ->
   GetOriginalPath c (HashedName e ++ ".enc") = Ok (OrigPath e)) /\
  ((forall r, In r (dosyalar c) -> HashedName r <> stripEncExtension n) ->
   GetOriginalPath c n = Err ErrNoRows).
Proof.
  intros Hdb. split.
  - intros Hin Hne Hfun. unfold GetOriginalPath. rewrite Hdb.
    rewrite (stripEncExtension_app _ Hne).
    destruct (filter _ (dosyalar c)) as [|r rest] eqn:Hf.
    + exfalso. assert (In e []) as H; [|contradiction].
      rewrite <- Hf. apply filter_In. split; [assumption|].
      apply String.eqb_refl.
    + assert (In r (r :: rest)) as Hr by now left.
      rewrite <- Hf in Hr. apply filter_In in Hr. destruct Hr as [Hr Heq].
      apply String.eqb_eq in Heq. f_equal. now apply Hfun.
  - intros Hnone. unfold GetOriginalPath. rewrite Hdb.
    destruct (filter _ (dosyalar c)) as [|r rest] eqn:Hf; [reflexivity|].
    exfalso. assert (In r (r :: rest)) as Hr by now left.
    rewrite <- Hf in Hr. apply filter_In in Hr. destruct Hr as [Hr Heq].
    apply String.eqb_eq in Heq. exact (Hnone r Hr Heq).
Qed.

(** ** Version history *)

Lemma insert_desc_perm (e : FileEntry) (l : list FileEntry) :
  Permutation (insert_desc e l) (e :: l).
Proof.
  induction l as [|x rest IH]; simpl; [reflexivity|].
  destruct (tarih_ltb (Timestamp x) (Timestamp e)); [reflexivity|].
  rewrite IH. apply perm_swap.
Qed.

Lemma order_by_tarih_desc_perm (l : list FileEntry) :
  Permutation (order_by_tarih_desc l) l.
Proof.
  induction l as [|x rest IH]; simpl; [reflexivity|].
  rewrite insert_desc_perm. now constructor.
Qed.

Lemma insert_desc_sorted (e : FileEntry) (l : list FileEntry) :
  StronglySorted (fun a b => tarih_le (Timestamp b) (Timestamp a)) l ->
  StronglySorted (fun a b => tarih_le (Timestamp b) (Timestamp a))
                 (insert_desc e l).
Proof.
  induction 1 as [|x rest Hs IH Hall]; simpl.
  - constructor; constructor.
  - destruct (tarih_ltb (Timestamp x) (Timestamp e)) eqn:Hlt.
    + apply tarih_ltb_le in Hlt. constructor.
      * now constructor.
      * constructor; [assumption|].
        rewrite Forall_forall in *. intros y Hy.
        exact (tarih_le_trans _ _ _ (Hall y Hy) Hlt).
    + apply tarih_ltb_false in Hlt. constructor; [assumption|].
      rewrite Forall_forall in *. intros y Hy.
      apply (Permutation_in _ (insert_desc_perm e rest)) in Hy.
      destruct Hy as [<-|Hy]; [exact Hlt|now apply Hall].
Qed.

Lemma order_by_tarih_desc_sorted (l : list FileEntry) :
  StronglySorted (fun a b => tarih_le (Timestamp b) (Timestamp a))
                 (order_by_tarih_desc l).
Proof.
  induction l as [|x rest IH]; simpl; [constructor|].
  now apply insert_desc_sorted.
Qed.

Lemma order_by_tarih_desc_head (l : list FileEntry) :
  hd_error (order_by_tarih_desc l) = newest l.
Proof.
  induction l as [|e rest IH]; simpl; [reflexivity|].
  rewrite <- IH. destruct (order_by_tarih_desc rest) as [|x r]; simpl;
    [reflexivity|].
  now destruct (tarih_ltb (Timestamp x) (Timestamp e)).
Qed.

Lemma sorted_versions (l : list FileEntry) :
  StronglySorted (fun a b => tarih_le (Timestamp b) (Timestamp a)) l ->
  StronglySorted (fun a b => tarih_le (VTimestamp b) (VTimestamp a))
                 (map version_of l).
Proof.
  induction 1 as [|x rest Hs IH Hall]; simpl; constructor; [assumption|].
  rewrite Forall_forall in *. intros v Hv. apply in_map_iff in Hv.
  destruct Hv as (y & <- & Hy). simpl. now apply Hall.
Qed.

(** A sorted list stays sorted under a relation that holds wherever the
    first one does, among the members of the list. *)
Lemma StronglySorted_among {A : Type} (R R' : A -> A -> Prop) (l : list A) :
  (forall a b, In a l -> In b l -> R a b -> R' a b) ->
  StronglySorted R l -> StronglySorted R' l.
Proof.
  intros Himp Hs. induction Hs as [|x rest Hs IH Hall]; constructor.
  - apply IH. intros a b Ha Hb. apply Himp; now right.
  - rewrite Forall_forall in *. intros y Hy.
    apply Himp; [now left|now right|now apply Hall].
Qed.

(** X3: on a working catalog [GetFileHistory p] lists every stored version
    of [p], each once, in descending order of the stored timestamp texts,
    and its first element carries the timestamp of the version
    [GetLatestVersion p] returns (there is none for a path without
    versions).  When the versions of [p] were all stored under one zone
    offset, the list runs from the newest instant to the oldest. *)
Theorem GetFileHistory_newest_first (c : Catalog) (p : string) :
  db_err c = None ->
  exists vs,
    GetFileHistory c p = Ok vs /\
    StronglySorted (fun a b => tarih_le (VTimestamp b) (VTimestamp a)) vs /\
    Permutation vs (map version_of (filter (adi_is p) (dosyalar c))) /\
    (exists latest,
        GetLatestVersion c p = Ok latest /\
        option_map VTimestamp (hd_error vs) = option_map Timestamp latest) /\
    (forall z,
        (forall e, In e (dosyalar c) -> OrigPath e = p ->
                   zone (Timestamp e) = z) ->
        StronglySorted (fun a b => VTimestamp b <= VTimestamp a) vs).
Proof.
  intros Hdb. unfold GetFileHistory, GetLatestVersion. rewrite Hdb.
  set (versions := filter (adi_is p) (dosyalar c)).
  assert (Hsorted : StronglySorted
                      (fun a b => tarih_le (VTimestamp b) (VTimestamp a))
                      (map version_of (order_by_tarih_desc versions)))
    by apply sorted_versions, order_by_tarih_desc_sorted.
  eexists. split; [reflexivity|]. split; [exact Hsorted|]. split; [|split].
  - apply Permutation_map, order_by_tarih_desc_perm.
  - eexists. split; [reflexivity|].
    rewrite <- order_by_tarih_desc_head.
    now destruct (order_by_tarih_desc _).
  - intros z Hz. revert Hsorted. apply StronglySorted_among.
    assert (Hzone : forall v, In v (map version_of
                                        (order_by_tarih_desc versions)) ->
                              zone (VTimestamp v) = z).
    { intros v Hv. apply in_map_iff in Hv. destruct Hv as (e & <- & He).
      apply (Permutation_in _ (order_by_tarih_desc_perm versions)) in He.
      apply filter_In in He. destruct He as [He Hp].
      apply adi_is_true in Hp. now apply Hz. }
    intros a b Ha Hb. apply tarih_le_same_zone.
    now rewrite (Hzone a Ha), (Hzone b Hb).
Qed.

(** ** Backup dates *)

Lemma insert_time_desc_In (t x : time) (l : list time) :
  In x (insert_time_desc t l) <-> x = t \/ In x l.
Proof.
  induction l as [|y rest IH]; simpl.
  - intuition.
  - destruct (tarih_leb y t); simpl; [intuition|]. rewrite IH. intuition.
Qed.

Lemma tarih_gt_le_neq (a b : time) : tarih_le b a -> b <> a -> tarih_gt a b.
Proof.
  intros Hle Hne. unfold tarih_gt. rewrite tarih_ltb_leb.
  destruct (tarih_leb a b) eqn:Hab; [|reflexivity].
  exfalso. apply Hne. now apply tarih_le_antisym.
Qed.

Lemma tarih_gt_trans (a b c : time) :
  tarih_gt a b -> tarih_gt b c -> tarih_gt a c.
Proof.
  unfold tarih_gt. destruct a as [ua za], b as [ub zb], c as [uc zc].
  tarih_cases.
Qed.

Lemma tarih_gt_same_zone (a b : time) :
  zone a = zone b -> tarih_gt a b -> a > b.
Proof.
  unfold tarih_gt. destruct a as [ua za], b as [ub zb]. simpl. intros ->.
  tarih_cases.
Qed.

Lemma insert_time_desc_sorted (t : time) (l : list time) :
  StronglySorted tarih_gt l -> ~ In t l ->
  StronglySorted tarih_gt (insert_time_desc t l).
Proof.
  induction 1 as [|x rest Hs IH Hall]; intros Hnot; simpl.
  - constructor; constructor.
  - assert (x <> t) by (intros ->; apply Hnot; now left).
    assert (~ In t rest) by (intros Hin; apply Hnot; now right).
    destruct (tarih_leb x t) eqn:Hle.
    + assert (tarih_gt t x) as Hgt by now apply tarih_gt_le_neq.
      constructor.
      * now constructor.
      * constructor; [exact Hgt|].
        rewrite Forall_forall in *. intros y Hy.
        exact (tarih_gt_trans _ _ _ Hgt (Hall y Hy)).
    + apply tarih_leb_false in Hle. constructor; [now apply IH|].
      rewrite Forall_forall in *. intros y Hy.
      apply insert_time_desc_In in Hy.
      destruct Hy as [->|Hy]; [|now apply Hall].
      apply tarih_gt_le_neq; [exact Hle|congruence].
Qed.

Lemma sort_times_desc (l : list time) :
  NoDup l ->
  StronglySorted tarih_gt (fold_right insert_time_desc [] l) /\
  forall x, In x (fold_right insert_time_desc [] l) <-> In x l.
Proof.
  induction 1 as [|t rest Hnot Hnd [IHs IHin]]; simpl.
  - split; [constructor|tauto].
  - split.
    + apply insert_time_desc_sorted; [assumption|]. now rewrite IHin.
    + intros x. rewrite insert_time_desc_In, IHin. intuition.
Qed.

Lemma strictly_sorted_NoDup (l : list time) :
  StronglySorted tarih_gt l -> NoDup l.
Proof.
  induction 1 as [|x rest Hs IH Hall]; constructor; [|assumption].
  intros Hin. rewrite Forall_forall in Hall. specialize (Hall x Hin).
  unfold tarih_gt in Hall. rewrite tarih_ltb_leb in Hall.
  now rewrite (tarih_le_refl x) in Hall.
Qed.

(** X4: on a working catalog [GetBackupDates] returns the timestamps that
    occur in the catalog, each exactly once, in strictly descending order
    of the stored texts; one instant stored under two zone offsets is two
    dates.  When the rows were all stored under one zone offset, the dates
    are strictly descending instants. *)
Theorem GetBackupDates_distinct_descending (c : Catalog) :
  db_err c = None ->
  exists ds,
    GetBackupDates c = Ok ds /\
    NoDup ds /\
    StronglySorted tarih_gt ds /\
    (forall t, In t ds <-> exists e, In e (dosyalar c) /\ Timestamp e = t) /\
    (forall z, stored_in_zone z (dosyalar c) ->
               StronglySorted (fun a b : time => a > b) ds).
Proof.
  intros Hdb. unfold GetBackupDates. rewrite Hdb.
  eexists. split; [reflexivity|].
  destruct (sort_times_desc (nodup time_eq_dec (map Timestamp (dosyalar c)))
                            (NoDup_nodup _ _)) as [Hs Hin].
  assert (Hmem : forall t,
             In t (fold_right insert_time_desc []
                     (nodup time_eq_dec (map Timestamp (dosyalar c)))) <->
             exists e, In e (dosyalar c) /\ Timestamp e = t).
  { intros t. rewrite Hin, nodup_In, in_map_iff.
    split; intros (e & H1 & H2); exists e; tauto. }
  split; [now apply strictly_sorted_NoDup|].
  split; [exact Hs|]. split; [exact Hmem|].
  intros z Hz. revert Hs. apply StronglySorted_among.
  intros a b Ha Hb. apply tarih_gt_same_zone.
  apply Hmem in Ha. apply Hmem in Hb.
  destruct Ha as (ea & Hea & <-). destruct Hb as (eb & Heb & <-).
  now rewrite (Hz ea Hea), (Hz eb Heb).
Qed.

(** ** Statistics *)

Lemma sql_sum_from_ok (l : list Z) :
  forall acc z, sql_sum_from acc l = Ok z ->
                z = acc + Backup.sum_sizes l.
Proof.
  unfold Backup.sum_sizes.
  induction l as [|x rest IH]; intros acc z H; simpl in *.
  - injection H as <-. lia.
  - destruct (in_int64 (acc + x)); [|discriminate].
    apply IH in H. lia.
Qed.

Lemma GetStats_ok (c : Catalog) (n sz psz : Z) :
  GetStats c = Ok (n, sz, psz) ->
  n = Z.of_nat (length (dosyalar c)) /\
  sz = Backup.sum_sizes (map Size (dosyalar c)) /\
  psz = Backup.sum_sizes (map PackedSize (dosyalar c)).
Proof.
  unfold GetStats, bind, sql_sum. destruct (db_err c); [discriminate|].
  destruct (sql_sum_from 0 (map Size _)) as [a|] eqn:Ha; [|discriminate].
  destruct (sql_sum_from 0 (map PackedSize _)) as [b|] eqn:Hb; [|discriminate].
  intros H. injection H as <- <- <-.
  apply sql_sum_from_ok in Ha, Hb. repeat split; lia.
Qed.

(** X6: [GetStats] follows [AddEntries]: when both readings succeed, a
    committed batch raises the file count by the number of entries and the
    two totals by the sums of the entries' sizes and packed sizes; the
    count is the number of rows, and an empty catalog reads (0, 0, 0). *)
Theorem GetStats_after_AddEntries
        (c c' : Catalog) (f : TxFaults) (entries : list FileEntry)
        (n sz psz n' sz' psz' : Z) :
  GetStats c = Ok (n, sz, psz) ->
  AddEntries c f entries = (None, c') ->
  GetStats c' = Ok (n', sz', psz') ->
  n = Z.of_nat (length (dosyalar c)) /\
  n' = n + Z.of_nat (length entries) /\
  sz' = sz + Backup.sum_sizes (map Size entries) /\
  psz' = psz + Backup.sum_sizes (map PackedSize entries) /\
  GetStats (with_rows c []) = Ok (0, 0, 0).
Proof.
  intros H1 Ha H2.
  destruct (GetStats_ok _ _ _ _ H1) as (-> & -> & ->).
  destruct (GetStats_ok _ _ _ _ H2) as (-> & -> & ->).
  destruct (AddEntries_atomic c f entries) as [Hs|[e Hs]];
    rewrite Hs in Ha; [|discriminate].
  injection Ha as <-. simpl.
  rewrite length_app, !map_app. unfold Backup.sum_sizes.
  rewrite !fold_right_app.
  assert (Hfold : forall l acc, fold_right Z.add acc l
                                = fold_right Z.add 0 l + acc).
  { induction l as [|x l IH]; intros acc; simpl; [lia|]. rewrite IH. lia. }
  rewrite (Hfold (map Size (dosyalar c))),
          (Hfold (map PackedSize (dosyalar c))).
  repeat split; try lia.
  unfold GetStats. simpl.
  unfold GetStats in H1. destruct (db_err c); [discriminate|reflexivity].
Qed.

(** ** Existence *)

(** X7: on a working catalog [FileExists p] answers [true] exactly when
    [GetLatestVersion p] finds a version, and a path that does not exist
    needs backup whatever its content hash and size. *)
Theorem FileExists_iff_latest (c : Catalog) (p : string) :
  db_err c = None ->
  exists b latest,
    FileExists c p = Ok b /\
    GetLatestVersion c p = Ok latest /\
    (b = true <-> latest <> None) /\
    (b = false ->
     forall h sz, NeedsBackup c p h sz = Return (Ok true)).
Proof.
  intros Hdb. unfold FileExists, NeedsBackup, GetLatestVersion. rewrite Hdb.
  do 2 eexists. split; [reflexivity|]. split; [reflexivity|].
  destruct (filter (adi_is p) (dosyalar c)) as [|e rest] eqn:Hf.
  - simpl. split; [split; [discriminate|congruence]|]. reflexivity.
  - assert (newest (e :: rest) <> None) as Hn.
    { intros Hn. apply newest_None in Hn. discriminate. }
    split.
    + split; [intros _; exact Hn|intros _].
      apply Z.ltb_lt. simpl length. lia.
    + intros Hb. apply Z.ltb_ge in Hb. simpl length in Hb. lia.
Qed.

(** ** Snapshots *)

Lemma exec_rows_no_faults (rows : list FileEntry) :
  forall i tx,
    exec_rows insert_or_replace no_faults i rows tx
    = Ok {| tx_base := tx_base tx; tx_rows := tx_rows tx ++ rows |}.
Proof.
  induction rows as [|e rest IH]; intros i tx; simpl.
  - rewrite app_nil_r. now destruct tx.
  - rewrite IH. simpl. rewrite insert_or_replace_appends.
    now rewrite <- app_assoc.
Qed.

(** [ImportFromFile] is all-or-nothing as well. *)
Lemma ImportFromFile_atomic
      (c : Catalog) (src : result (list FileEntry)) (f : TxFaults) :
  (exists rows, src = Ok rows /\
                ImportFromFile c src f
                = (None, with_rows c (dosyalar c ++ rows))) \/
  (exists e, ImportFromFile c src f = (Some e, c)).
Proof.
  unfold ImportFromFile. destruct src as [rows|e]; [|right; now exists e].
  unfold Begin.
  destruct (db_err c) as [e|] eqn:Hdb; [right; now exists e|].
  destruct (begin_err f) as [e|]; [right; now exists e|].
  unfold Rollback. simpl tx_base.
  destruct (prepare_err f) as [e|].
  { right. exists e. now rewrite with_rows_same. }
  destruct (exec_rows insert_or_replace f 0 rows _) as [tx'|e] eqn:Hx.
  - pose proof (exec_rows_base _ _ _ _ _ _ Hx) as Hb.
    pose proof (exec_rows_insert_or_replace _ _ _ _ _ Hx) as Hr.
    simpl in Hb, Hr.
    unfold Commit, Rollback. destruct (commit_err f) as [e|].
    + right. exists e. now rewrite Hb, with_rows_same.
    + left. exists rows. now rewrite Hr.
  - right. exists e. now rewrite with_rows_same.
Qed.


(** ** Clearing and updating *)

(** X10: on a working catalog [ClearAll] succeeds and leaves a catalog in
    which no path has a version: every file needs backup again, there is no
    backup date and the statistics read zero.  On a failing connection it
    reports the error and changes nothing. *)
Theorem ClearAll_forgets_everything (c : Catalog) :
  (db_err c = None ->
   exists c',
     ClearAll c = (None, c') /\
     (forall p h sz, NeedsBackup c' p h sz = Return (Ok true)) /\
     (forall p, GetLatestVersion c' p = Ok None) /\
     GetBackupDates c' = Ok [] /\
     GetStats c' = Ok (0, 0, 0)) /\
  (forall e, db_err c = Some e -> ClearAll c = (Some e, c)).
Proof.
  split.
  - intros Hdb. unfold ClearAll. rewrite Hdb. eexists. split; [reflexivity|].
    unfold NeedsBackup, GetLatestVersion, GetBackupDates, GetStats. simpl.
    rewrite Hdb. repeat split.
  - intros e Hdb. unfold ClearAll. now rewrite Hdb.
Qed.

Lemma newest_map_set_packed (p : string) (z : Z) (rows : list FileEntry) :
  newest (map (fun r => if adi_is p r then set_packed z r else r) rows)
  = option_map (fun r => if adi_is p r then set_packed z r else r)
               (newest rows).
Proof.
  induction rows as [|x rest IH]; simpl; [reflexivity|].
  rewrite IH. destruct (newest rest) as [m|]; simpl; [|reflexivity].
  assert (Ht : forall r, Timestamp (if adi_is p r then set_packed z r else r)
                         = Timestamp r)
    by (intros r; now destruct (adi_is p r)).
  rewrite !Ht. now destruct (tarih_ltb (Timestamp m) (Timestamp x)).
Qed.

Lemma filter_map_set_packed (p q : string) (z : Z) (rows : list FileEntry) :
  filter (adi_is q)
         (map (fun r => if adi_is p r then set_packed z r else r) rows)
  = map (fun r => if adi_is p r then set_packed z r else r)
        (filter (adi_is q) rows).
Proof.
  induction rows as [|x rest IH]; simpl; [reflexivity|].
  assert (adi_is q (if adi_is p x then set_packed z x else x) = adi_is q x) as ->
      by now destruct (adi_is p x).
  destruct (adi_is q x); simpl; now rewrite IH.
Qed.

Lemma order_by_tarih_desc_map (u : FileEntry -> FileEntry) :
  (forall r, Timestamp (u r) = Timestamp r) ->
  forall l, order_by_tarih_desc (map u l) = map u (order_by_tarih_desc l).
Proof.
  intros Hu. induction l as [|e rest IH]; simpl; [reflexivity|].
  rewrite IH. generalize (order_by_tarih_desc rest). intros l.
  induction l as [|y l IHl]; simpl; [reflexivity|].
  rewrite !Hu. destruct (tarih_ltb (Timestamp y) (Timestamp e)); simpl;
    [reflexivity|now rewrite IHl].
Qed.

(** X11: [UpdatePackedSize p z] touches the packed size only: on a working
    catalog it sets [paketli_boyu] to [z] in every version of [p] and
    leaves every other row as it was; afterwards [NeedsBackup] answers and
    [GetFileHistory] lists exactly what they did before, for every path. *)
Theorem UpdatePackedSize_only_packed_size (c : Catalog) (p : string) (z : Z) :
  db_err c = None ->
  exists c',
    UpdatePackedSize c p z = (None, c') /\
    length (dosyalar c') = length (dosyalar c) /\
    (forall r, In r (dosyalar c') -> OrigPath r = p -> PackedSize r = z) /\
    (forall r, OrigPath r <> p -> In r (dosyalar c') <-> In r (dosyalar c)) /\
    (forall q h sz, NeedsBackup c' q h sz = NeedsBackup c q h sz) /\
    (forall q, GetFileHistory c' q = GetFileHistory c q).
Proof.
  intros Hdb. unfold UpdatePackedSize. rewrite Hdb.
  eexists. split; [reflexivity|]. simpl.
  assert (Hts : forall r, Timestamp (if adi_is p r then set_packed z r else r)
                          = Timestamp r)
    by (intros r; now destruct (adi_is p r)).
  split; [apply length_map|]. split; [|split; [|split]].
  - intros r Hin Hp. apply in_map_iff in Hin. destruct Hin as (r0 & <- & _).
    destruct (adi_is p r0) eqn:Ha; [reflexivity|].
    apply adi_is_true in Hp. congruence.
  - intros r Hp. rewrite in_map_iff. split.
    + intros (r0 & <- & Hin).
      destruct (adi_is p r0) eqn:Ha; [|assumption].
      apply adi_is_true in Ha. simpl in Hp. contradiction.
    + intros Hin. exists r. split; [|assumption].
      destruct (adi_is p r) eqn:Ha; [|reflexivity].
      apply adi_is_true in Ha. contradiction.
  - intros q h sz. unfold NeedsBackup, GetLatestVersion. simpl. rewrite Hdb.
    rewrite filter_map_set_packed, newest_map_set_packed.
    destruct (newest (filter (adi_is q) (dosyalar c))) as [m|]; simpl;
      [|reflexivity].
    now destruct (adi_is p m).
  - intros q. unfold GetFileHistory. simpl. rewrite Hdb. f_equal.
    rewrite filter_map_set_packed, (order_by_tarih_desc_map _ Hts), map_map.
    apply map_ext. intros r. now destruct (adi_is p r).
Qed.

(** ** Directory restores *)






(** ** The snapshot query *)

(** X26: on a working catalog [GetFilesAtTime t] returns exactly the
    stored rows that hold, for their path, the last timestamp among those
    stored at or before [t] itself (no slack is added), in the order of the
    stored texts.  When the rows were all stored under the zone offset of
    [t] these are the rows with the maximal instant at or before [t]:
    nothing later than [t], nothing that a newer version at or before [t]
    supersedes, and no path with a version at or before [t] is left out. *)
Theorem GetFilesAtTime_exact (c : Catalog) (t : time) :
  db_err c = None ->
  exists l,
    GetFilesAtTime c t = Ok l /\
    (forall e, In e l <->
               In e (dosyalar c) /\ tarih_latest_at (dosyalar c) t e) /\
    (stored_in_zone (zone t) (dosyalar c) ->
     forall e, In e l <-> In e (dosyalar c) /\ latest_at (dosyalar c) t e).
Proof.
  intros Hdb. unfold GetFilesAtTime. rewrite Hdb.
  set (rows := dosyalar c). set (old := filter (not_after t) rows).
  eexists. split; [reflexivity|].
  assert (Hold : forall x, In x old <->
                           In x rows /\ tarih_le (Timestamp x) t).
  { intros x. unfold old. rewrite filter_In, not_after_true. tauto. }
  assert (Hgrp : forall g x, In x (filter (adi_is (OrigPath g)) old) <->
                             In x rows /\ tarih_le (Timestamp x) t /\
                             OrigPath x = OrigPath g).
  { intros g x. rewrite filter_In, Hold, adi_is_true. tauto. }
  assert (Hexact : forall e,
             In e (flat_map (fun g => filter (fun d1 => joins d1 g) rows)
                            (order_by_adi (max_per_adi old))) <->
             In e rows /\ tarih_latest_at rows t e).
  { intros e. rewrite in_flat_map. split.
    - intros (d2 & Hd2 & Hin). apply filter_In in Hin.
      destruct Hin as [Hin Hj]. split; [assumption|].
      apply (proj1 (order_by_adi_In _ _)) in Hd2.
      unfold joins in Hj. apply andb_true_iff in Hj. destruct Hj as [Hp Hts].
      apply String.eqb_eq in Hp. apply tarih_eqb_eq in Hts.
      unfold max_per_adi in Hd2. apply in_flat_map in Hd2.
      destruct Hd2 as (g & _ & Hd2). unfold max_tarih in Hd2.
      destruct (newest (filter (adi_is (OrigPath g)) old)) as [m|] eqn:Hm;
        simpl in Hd2; [|contradiction].
      destruct Hd2 as [<-|[]]. simpl in Hp, Hts.
      pose proof (newest_In _ _ Hm) as Hmin. apply Hgrp in Hmin.
      destruct Hmin as (_ & Hmt & _).
      split; [now rewrite Hts|]. intros e' Hin' Hp' Ht'. rewrite Hts.
      apply (newest_max _ _ Hm). apply Hgrp. repeat split; congruence.
    - intros (Hin & Ht & Hmax).
      assert (In e old) as Heo by (apply Hold; tauto).
      destruct (group_by_adi_from_complete old [] e Heo (fun F => F))
        as (g & Hg & Hgp).
      destruct (newest (filter (adi_is (OrigPath g)) old)) as [m|] eqn:Hm.
      + exists (OrigPath g, Timestamp m). split.
        * apply order_by_adi_In.
          unfold max_per_adi. apply in_flat_map. exists g. split; [exact Hg|].
          unfold max_tarih. rewrite Hm. now left.
        * apply filter_In. split; [exact Hin|].
          unfold joins. simpl. apply andb_true_iff. split.
          -- apply String.eqb_eq. congruence.
          -- apply tarih_eqb_eq.
             pose proof (newest_In _ _ Hm) as Hmin. apply Hgrp in Hmin.
             destruct Hmin as (Hmr & Hmt & Hmp).
             apply tarih_le_antisym.
             ++ apply (newest_max _ _ Hm). apply Hgrp. repeat split;
                  [assumption|assumption|congruence].
             ++ apply Hmax; [assumption|congruence|assumption].
      + apply newest_None in Hm.
        assert (In e (filter (adi_is (OrigPath g)) old)) as Hf
            by (apply Hgrp; repeat split; [assumption|assumption|congruence]).
        rewrite Hm in Hf. contradiction. }
  split; [exact Hexact|].
  intros Hzone e. rewrite Hexact. split; intros [Hin Hl]; (split; [exact Hin|]);
    now apply (latest_at_same_zone rows t e Hzone Hin).
Qed.

(** ** Files with version info *)

Lemma count_one (D : list string) (x : FileEntry) :
  NoDup D -> In (OrigPath x) D ->
  list_sum (map (fun d => if adi_is d x then 1%nat else 0%nat) D) = 1%nat.
Proof.
  induction 1 as [|d D Hnot Hnd IH]; intros Hin; [contradiction|].
  simpl. destruct (adi_is d x) eqn:Hd.
  - apply adi_is_true in Hd. subst d.
    assert (list_sum (map (fun d => if adi_is d x then 1%nat else 0%nat) D)
            = 0%nat) as ->; [|reflexivity].
    clear IH Hin Hnd. induction D as [|d D IH]; [reflexivity|]. simpl.
    destruct (adi_is d x) eqn:Hd.
    + apply adi_is_true in Hd. exfalso. apply Hnot. now left.
    + apply IH. intros H. apply Hnot. now right.
  - destruct Hin as [->|Hin]; [|now apply IH].
    unfold adi_is in Hd. now rewrite String.eqb_refl in Hd.
Qed.

(** The groups of a [GROUP BY adi] partition the rows. *)
Lemma groups_partition (D : list string) (L : list FileEntry) :
  NoDup D -> (forall x, In x L -> In (OrigPath x) D) ->
  list_sum (map (fun d => length (filter (adi_is d) L)) D) = length L.
Proof.
  intros Hnd. induction L as [|x L IH]; intros Hcov.
  - clear. induction D as [|d D IHD]; [reflexivity|exact IHD].
  - simpl length. rewrite <- IH by (intros y Hy; apply Hcov; now right).
    pose proof (count_one D x Hnd (Hcov x (or_introl eq_refl))) as Hone.
    rewrite <- Nat.add_1_l, <- Hone.
    clear. induction D as [|d D IHD]; [reflexivity|]. simpl.
    destruct (adi_is d x); simpl; lia.
Qed.

Lemma list_sum_perm (l1 l2 : list nat) :
  Permutation l1 l2 -> list_sum l1 = list_sum l2.
Proof.
  induction 1; simpl; lia.
Qed.

Section FilesWithInfoProperties.

Variable Base : string -> string.

(** X5: on a working catalog [GetAllFilesWithInfo] returns exactly one
    record per path of the catalog; the record carries the number of
    versions of the path, the timestamp of the version [GetLatestVersion]
    returns for it, and the size and the directory stored with a version of
    the path that has this newest timestamp; the version counts add up to
    the number of rows of the catalog. *)
Theorem GetAllFilesWithInfo_one_per_path (c : Catalog) :
  db_err c = None ->
  exists infos,
    GetAllFilesWithInfo Base c = Ok infos /\
    NoDup (map InfoOrigPath infos) /\
    (forall e, In e (dosyalar c) ->
               exists i, In i infos /\ InfoOrigPath i = OrigPath e) /\
    (forall i, In i infos ->
       InfoVersionCount i
       = Z.of_nat (length (filter (adi_is (InfoOrigPath i)) (dosyalar c))) /\
       (exists m, GetLatestVersion c (InfoOrigPath i) = Ok (Some m) /\
                  InfoLatestVersion i = Timestamp m) /\
       (exists m, In m (dosyalar c) /\ OrigPath m = InfoOrigPath i /\
                  Timestamp m = InfoLatestVersion i /\
                  InfoSize i = Size m) /\
       (exists m, In m (dosyalar c) /\ OrigPath m = InfoOrigPath i /\
                  Timestamp m = InfoLatestVersion i /\
                  InfoDirectory i = Directory m)) /\
    list_sum (map (fun i => Z.to_nat (InfoVersionCount i)) infos)
    = length (dosyalar c).
Proof.
  intros Hdb. unfold GetAllFilesWithInfo, GetLatestVersion. rewrite Hdb.
  set (rows := dosyalar c).
  set (latest := flat_map _ (group_by_adi rows)).
  set (info := fun m : FileEntry => _).
  eexists. split; [reflexivity|].
  (* what a group delivers *)
  assert (Hrow : forall g, In g rows ->
             exists d m r,
               info_row (filter (adi_is (OrigPath g)) rows) = [r] /\
               newest (filter (adi_is (OrigPath g)) rows) = Some m /\
               In d rows /\ In m rows /\
               OrigPath d = OrigPath g /\ OrigPath m = OrigPath g /\
               Timestamp d = Timestamp m /\
               OrigPath r = OrigPath g /\ Timestamp r = Timestamp m /\
               Directory r = Directory d /\ Size r = Size m).
  { intros g Hg. unfold info_row.
    assert (In g (filter (adi_is (OrigPath g)) rows)) as Hf
        by (apply filter_In; split; [assumption|now apply adi_is_true]).
    destruct (max_row (filter (adi_is (OrigPath g)) rows)) as [d|] eqn:Hd;
      [|apply max_row_None in Hd; rewrite Hd in Hf; contradiction].
    destruct (newest (filter (adi_is (OrigPath g)) rows)) as [m|] eqn:Hm;
      [|apply newest_None in Hm; rewrite Hm in Hf; contradiction].
    pose proof (max_row_In _ _ Hd) as Hdin. apply filter_In in Hdin.
    pose proof (newest_In _ _ Hm) as Hmin. apply filter_In in Hmin.
    destruct Hdin as [Hdin Hdp], Hmin as [Hmin Hmp].
    apply adi_is_true in Hdp, Hmp.
    assert (Timestamp d = Timestamp m) as Hdm.
    { apply tarih_le_antisym.
      - apply (newest_max _ _ Hm). now apply (max_row_In _ _ Hd).
      - apply (max_row_max _ _ Hd). now apply (newest_In _ _ Hm). }
    exists d, m. eexists. split; [reflexivity|]. simpl. tauto. }
  assert (Hpaths : map OrigPath latest = map OrigPath (group_by_adi rows)).
  { unfold latest.
    assert (Hsub : forall g, In g (group_by_adi rows) -> In g rows)
      by (intros g; apply group_by_adi_from_In).
    induction (group_by_adi rows) as [|g G IH]; [reflexivity|]. simpl.
    destruct (Hrow g (Hsub g (or_introl eq_refl)))
      as (d & m & r & -> & _ & _ & _ & _ & _ & _ & Hp & _).
    simpl. rewrite Hp, IH; [reflexivity|].
    intros g' Hg'. apply Hsub. now right. }
  assert (Hlatest : forall r, In r latest ->
             exists d m,
               newest (filter (adi_is (OrigPath r)) rows) = Some m /\
               In d rows /\ In m rows /\
               OrigPath d = OrigPath r /\ OrigPath m = OrigPath r /\
               Timestamp r = Timestamp m /\ Timestamp d = Timestamp m /\
               Directory r = Directory d /\ Size r = Size m).
  { intros r Hr. unfold latest in Hr. apply in_flat_map in Hr.
    destruct Hr as (g & Hg & Hr). apply group_by_adi_from_In in Hg.
    destruct (Hrow g Hg)
      as (d & m & r' & Hrow' & Hm & Hd1 & Hm1 & Hdp & Hmp & Hdm & Hrp & Hrt
          & Hrd & Hrs).
    rewrite Hrow' in Hr. destruct Hr as [<-|[]].
    exists d, m. rewrite Hrp. repeat split; assumption. }
  pose proof (order_by_dizin_adi_perm latest) as Hperm.
  assert (Hnd : NoDup (map OrigPath latest))
    by (rewrite Hpaths; apply group_by_adi_from_NoDup).
  split; [|split; [|split]].
  - rewrite map_map. simpl.
    apply (Permutation_NoDup (Permutation_sym (Permutation_map OrigPath Hperm))).
    exact Hnd.
  - intros e He.
    destruct (group_by_adi_from_complete rows [] e He (fun F => F))
      as (g & Hg & Hgp).
    assert (In (OrigPath e) (map OrigPath latest)) as Hin
        by (rewrite Hpaths, <- Hgp; now apply in_map).
    apply in_map_iff in Hin. destruct Hin as (m & Hmp & Hm).
    exists (info m). split; [|exact Hmp].
    apply in_map. now apply (Permutation_in _ (Permutation_sym Hperm)).
  - intros i Hi. apply in_map_iff in Hi. destruct Hi as (r & <- & Hr).
    apply (Permutation_in _ Hperm) in Hr. simpl. split; [reflexivity|].
    destruct (Hlatest r Hr)
      as (d & m & Hm & Hd1 & Hm1 & Hdp & Hmp & Hrt & Hdm & Hrd & Hrs).
    split; [exists m; rewrite Hm; now split|].
    split; [exists m|exists d]; repeat split; congruence.
  - rewrite map_map. simpl.
    rewrite (list_sum_perm _ _
               (Permutation_map
                  (fun m => Z.to_nat (Z.of_nat (length (filter
                              (adi_is (OrigPath m)) rows)))) Hperm)).
    rewrite (map_ext _ (fun m => length (filter (adi_is (OrigPath m)) rows)))
      by (intros m; apply Nat2Z.id).
    rewrite <- (map_map OrigPath (fun d => length (filter (adi_is d) rows))).
    apply groups_partition; [exact Hnd|].
    intros x Hx.
    destruct (group_by_adi_from_complete rows [] x Hx (fun F => F))
      as (g & Hg & Hgp).
    rewrite Hpaths, <- Hgp. now apply in_map.
Qed.

End FilesWithInfoProperties.

End CatalogQueries.

(** * Further properties of internal/backup *)

Section SessionProperties.

Import Catalog Backup.

Variable Abs : string -> string.
Variable Ext : string -> string.
Variable Dir : string -> string.
Variable ToLower : string -> string.
Variable HashPath : string -> string.

Local Abbreviation Run := (Backup.Run Abs Ext Dir ToLower HashPath).
Local Abbreviation pack_loop := (Backup.pack_loop Dir).
Local Abbreviation scan_dirs := (Backup.scan_dirs Abs Ext ToLower HashPath).

(** Case analysis on a finished [Run], path by path. *)
Ltac run_paths H :=
  unfold Backup.Run, finish in H;
  repeat match type of H with
         | context [if ?b then _ else _] => destruct b eqn:?
         | context [match ?x with _ => _ end] => destruct x eqn:?
         end;
  try discriminate H;
  injection H as <- <- <-.

(** ** The running flag *)

(** X12: whatever happens in a session that returns, [Run] leaves the
    service not running, with its configuration and the state of the
    catalog connection untouched; a call made while a session is running
    is refused and changes nothing, the flag included. *)
Theorem Run_clears_the_running_flag
        (s : Service) (env : Env) (err : error) (s' : Service) (rep : Report) :
  Run s env = Return (err, s', rep) ->
  (isRunning s = false ->
   isRunning s' = false /\ config s' = config s /\
   db_err (catalog s') = db_err (catalog s)) /\
  (isRunning s = true ->
   err = Some "backup already running" /\ s' = s /\ rep = no_report).
Proof.
  intros H. run_paths H; simpl.
  all: try match goal with
           | Ha : AddEntries ?c ?f ?es = _ |- _ =>
               destruct (AddEntries_atomic c f es) as [Hs|[e' Hs]];
               rewrite Hs in Ha;
               first [discriminate Ha | inversion Ha; subst]
           end.
  all: split; [intros Hr|intros Hr; try discriminate Hr; try congruence].
  all: try (repeat split; reflexivity).
  all: try congruence.
  all: repeat split; reflexivity.
Qed.

(** ** Shard numbering *)

Lemma pack_loop_parts (env : Env) (ts : time) :
  forall files i st err st',
    tarPart st = S (length (sealed st)) ->
    map shard_part (sealed st) = seq 1 (length (sealed st)) ->
    pack_loop env ts i files st = (err, st') ->
    map shard_part (sealed st') = seq 1 (length (sealed st')) /\
    (err = None -> tarPart st' = S (length (sealed st'))).
Proof.
  induction files as [|file rest IH]; intros i st err st' Hp Hs H; simpl in H.
  - injection H as <- <-. auto.
  - destruct (stop_requested env i).
    { injection H as <- <-. split; [assumption|discriminate]. }
    destruct (pack env i file) as [|encSize packedSize].
    { eapply IH; eassumption. }
    cbn [tarSize tarPart members catalogEntries doneBytes sealed] in H.
    assert (Hnew : map shard_part
                     (sealed st ++ [{| shard_part := tarPart st;
                                       shard_members := members st ++ [encSize] |}])
                   = seq 1 (length (sealed st ++
                                    [{| shard_part := tarPart st;
                                        shard_members := members st ++ [encSize] |}]))).
    { rewrite map_app, length_app, seq_app, Hs. simpl. now rewrite Hp. }
    destruct (_ >? maxTarSize).
    + destruct (uploadTar env (tarPart st)).
      { injection H as <- <-. split; [exact Hnew|discriminate]. }
      destruct (create_tar env (S (tarPart st))).
      { injection H as <- <-. split; [exact Hnew|discriminate]. }
      eapply IH; [| |exact H]; simpl.
      * rewrite length_app. simpl. rewrite Hp. lia.
      * exact Hnew.
    + eapply IH; [| |exact H]; simpl; assumption.
Qed.

(** X13: the tar parts of a session are numbered 1, 2, 3, ... in the order
    in which they are closed, without gap or repetition. *)
Theorem shards_numbered_from_one
        (s : Service) (env : Env) (err : error) (s' : Service) (rep : Report) :
  Run s env = Return (err, s', rep) ->
  map shard_part (shards rep) = seq 1 (length (shards rep)).
Proof.
  intros H. run_paths H; simpl; try reflexivity.
  all: match goal with
       | Hl : pack_loop _ _ _ _ _ = _ |- _ =>
           pose proof Hl as Hq;
           apply pack_loop_parts in Hq; [|reflexivity|reflexivity];
           destruct Hq as [Hparts Hpart]
       end.
  all: try exact Hparts.
  all: rewrite map_app, length_app, seq_app, Hparts; simpl;
       now rewrite (Hpart eq_refl).
Qed.

(** ** What a successful session commits *)

Lemma pack_loop_packed (env : Env) (ts : time) :
  forall files i st st',
    pack_loop env ts i files st = (None, st') ->
    catalogEntries st' = catalogEntries st ++ packed_entries Dir env ts i files.
Proof.
  induction files as [|file rest IH]; intros i st st' H; simpl in H.
  - injection H as <-. now rewrite app_nil_r.
  - destruct (stop_requested env i); [discriminate|]. simpl.
    destruct (pack env i file) as [|encSize packedSize].
    { now apply IH. }
    cbn [tarSize tarPart members catalogEntries doneBytes sealed] in H.
    destruct (_ >? maxTarSize).
    + destruct (uploadTar env (tarPart st)); [discriminate|].
      destruct (create_tar env (S (tarPart st))); [discriminate|].
      apply IH in H. rewrite H. simpl. now rewrite <- app_assoc.
    + apply IH in H. rewrite H. simpl. now rewrite <- app_assoc.
Qed.





(** ** The scanner, continued *)

Lemma seen_true (m : list string) (k : string) :
  seen m k = true <-> In k m.
Proof.
  unfold seen. rewrite existsb_exists. split.
  - intros (x & Hx & Heq). apply String.eqb_eq in Heq. now subst.
  - intros H. exists k. split; [assumption|apply String.eqb_refl].
Qed.

(** One call of the walk callback either leaves the list of files alone or
    appends the record of the entry, which then was regular, not seen
    before, not blacklisted and readable. *)
Lemma visit_cases (s : Service) (env : Env) (st st' : ScanState) (w : WalkEntry) :
  visit Abs Ext ToLower HashPath s env st w = Return st' ->
  (sc_files st' = sc_files st /\
   (sc_seen st' = sc_seen st \/ sc_seen st' = Abs (w_path w) :: sc_seen st)) \/
  (exists h,
      sc_files st' = sc_files st ++ [record_of HashPath w h] /\
      sc_seen st' = Abs (w_path w) :: sc_seen st /\
      ~ In (Abs (w_path w)) (sc_seen st) /\
      regular w = true /\
      blacklisted (Blacklist (config s)) (ToLower (Ext (w_path w))) = false /\
      HashFileContent env (w_path w) = Ok h).
Proof.
  unfold visit, regular.
  destruct (w_err w || w_isDir w)%bool;
    [intros H; injection H as <-; left; auto|].
  destruct (w_size w =? 0); [intros H; injection H as <-; left; auto|].
  destruct (seen _ _) eqn:Hseen; [intros H; injection H as <-; left; auto|].
  assert (~ In (Abs (w_path w)) (sc_seen st)) as Hnot.
  { intros Hin. apply seen_true in Hin. congruence. }
  destruct (blacklisted _ _) eqn:Hb;
    [intros H; injection H as <-; left; simpl; auto|].
  destruct (HashFileContent env (w_path w)) as [h|e] eqn:Hh;
    [|intros H; injection H as <-; left; simpl; auto].
  destruct (NeedsBackup _ _ _ _) as [r|m]; [|discriminate].
  destruct (match r with Ok b => b | Err _ => true end).
  - intros H. injection H as <-. right. exists h. simpl. auto 10.
  - intros H. injection H as <-. left. simpl. auto.
Qed.

Lemma walk_all_emits (s : Service) (env : Env) (ws : list WalkEntry) :
  forall st st',
    walk_all Abs Ext ToLower HashPath s env st ws = Return st' ->
    exists new,
      sc_files st' = sc_files st ++ new /\
      incl (sc_seen st) (sc_seen st') /\
      NoDup (map (fun f => Abs (path f)) new) /\
      forall f, In f new ->
        ~ In (Abs (path f)) (sc_seen st) /\
        In (Abs (path f)) (sc_seen st') /\
        exists w h,
          In w ws /\ f = record_of HashPath w h /\ regular w = true /\
          blacklisted (Blacklist (config s)) (ToLower (Ext (w_path w))) = false /\
          HashFileContent env (w_path w) = Ok h.
Proof.
  induction ws as [|w rest IH]; intros st st' H; simpl in H.
  - injection H as <-. exists []. rewrite app_nil_r.
    repeat split; [apply incl_refl|constructor|contradiction..].
  - destruct (visit Abs Ext ToLower HashPath s env st w) as [st1|m] eqn:Hv;
      [|discriminate].
    destruct (IH _ _ H) as (new1 & Hfiles & Hincl & Hnd & Hnew).
    destruct (visit_cases _ _ _ _ _ Hv)
      as [[Hf Hs]|(h & Hf & Hs & Hnot & Hreg & Hbl & Hh)].
    + assert (incl (sc_seen st) (sc_seen st1)) as Hi.
      { destruct Hs as [->| ->]; [apply incl_refl|apply incl_tl, incl_refl]. }
      exists new1. rewrite Hfiles, Hf. split; [reflexivity|].
      split; [eapply incl_tran; eassumption|]. split; [assumption|].
      intros f Hin. destruct (Hnew f Hin) as (Hn & Hi' & w' & h' & Hw & Hrest).
      split; [intros F; apply Hn, Hi, F|]. split; [assumption|].
      exists w', h'. split; [now right|exact Hrest].
    + exists (record_of HashPath w h :: new1).
      rewrite Hfiles, Hf, <- app_assoc. split; [reflexivity|].
      assert (incl (sc_seen st) (sc_seen st1)) as Hi
          by (rewrite Hs; apply incl_tl, incl_refl).
      split; [eapply incl_tran; eassumption|]. split.
      * simpl. constructor; [|assumption].
        intros Hin. apply in_map_iff in Hin. destruct Hin as (f & Hp & Hin).
        destruct (Hnew f Hin) as (Hn & _). apply Hn. rewrite Hp, Hs. now left.
      * intros f [<-|Hin].
        -- simpl. split; [assumption|]. split.
           ++ apply Hincl. rewrite Hs. now left.
           ++ exists w, h. repeat split; try assumption. now left.
        -- destruct (Hnew f Hin) as (Hn & Hi' & w' & h' & Hw & Hrest).
           split; [intros F; apply Hn, Hi, F|]. split; [assumption|].
           exists w', h'. split; [now right|exact Hrest].
Qed.

Lemma scan_dirs_emits (s : Service) (env : Env) (dirs : list string) :
  forall acc seenPaths files,
    scan_dirs s env dirs acc seenPaths = Return files ->
    exists new,
      files = acc ++ new /\
      NoDup (map (fun f => Abs (path f)) new) /\
      forall f, In f new ->
        ~ In (Abs (path f)) seenPaths /\
        exists dir w h,
          In dir dirs /\ In w (walk env dir) /\
          f = record_of HashPath w h /\ regular w = true /\
          blacklisted (Blacklist (config s)) (ToLower (Ext (w_path w))) = false /\
          HashFileContent env (w_path w) = Ok h.
Proof.
  induction dirs as [|dir rest IH]; intros acc seenPaths files H; simpl in H.
  - injection H as <-. exists []. rewrite app_nil_r.
    repeat split; [constructor|contradiction..].
  - unfold scanDirectoryIncrementalWithProgress in H.
    destruct (walk_all Abs Ext ToLower HashPath s env _ (walk env dir))
      as [st'|m] eqn:Hw; [|discriminate].
    destruct (walk_all_emits _ _ _ _ _ Hw) as (new1 & Hf1 & Hincl & Hnd1 & Hnew1).
    simpl in Hf1, Hincl, Hnew1.
    destruct (IH _ _ _ H) as (new2 & -> & Hnd2 & Hnew2).
    exists (sc_files st' ++ new2). rewrite Hf1, <- app_assoc.
    split; [reflexivity|]. split.
    + rewrite map_app. apply NoDup_app; [assumption..|].
      intros k Hk1 Hk2. apply in_map_iff in Hk1, Hk2.
      destruct Hk1 as (f1 & <- & Hin1). destruct Hk2 as (f2 & Heq & Hin2).
      destruct (Hnew1 f1 Hin1) as (_ & Hseen & _).
      destruct (Hnew2 f2 Hin2) as (Hn & _). apply Hn. now rewrite Heq.
    + intros f Hin. apply in_app_or in Hin. destruct Hin as [Hin|Hin].
      * destruct (Hnew1 f Hin) as (Hn & _ & w & h & Hw' & Hrest).
        split; [assumption|]. exists dir, w, h.
        split; [now left|]. split; assumption.
      * destruct (Hnew2 f Hin) as (Hn & dir' & w & h & Hd & Hrest).
        split; [intros F; apply Hn, Hincl, F|].
        exists dir', w, h. split; [now right|exact Hrest].
Qed.

(** X15: when the configured directories overlap, the scan still schedules
    every file at most once: the absolute paths of the files to back up
    are pairwise different. *)
Theorem scan_schedules_each_file_once
        (s : Service) (env : Env) (files : list fileToBackup) :
  scan_dirs s env (BackupDirs (config s)) [] [] = Return files ->
  NoDup (map (fun f => Abs (path f)) files).
Proof.
  intros H. destruct (scan_dirs_emits _ _ _ _ _ _ H) as (new & -> & Hnd & _).
  exact Hnd.
Qed.

(** X16: every file the scan schedules comes from an entry walked under one
    of the configured directories that is a non-empty regular file, whose
    lower-cased extension is not blacklisted (with or without the dot) and
    whose content could be hashed; the record carries the entry's path and
    size, the hash of the path and the content hash just computed. *)
Theorem scan_schedules_regular_files
        (s : Service) (env : Env) (files : list fileToBackup) :
  scan_dirs s env (BackupDirs (config s)) [] [] = Return files ->
  forall f, In f files ->
    exists dir w,
      In dir (BackupDirs (config s)) /\ In w (walk env dir) /\
      w_err w = false /\ w_isDir w = false /\ w_size w <> 0 /\
      path f = w_path w /\ size f = w_size w /\
      hashedName f = HashPath (path f) /\
      HashFileContent env (path f) = Ok (contentHash f) /\
      forall blocked, In blocked (Blacklist (config s)) ->
        ToLower (Ext (path f)) <> blocked /\
        ToLower (Ext (path f)) <> ("." ++ blocked)%string.
Proof.
  intros H f Hin.
  destruct (scan_dirs_emits _ _ _ _ _ _ H) as (new & -> & _ & Hnew).
  destruct (Hnew f Hin) as (_ & dir & w & h & Hd & Hw & -> & Hreg & Hbl & Hh).
  exists dir, w. simpl. unfold regular in Hreg.
  apply andb_true_iff in Hreg. destruct Hreg as [Hr1 Hr2].
  apply negb_true_iff, orb_false_iff in Hr1. destruct Hr1 as [He Hd'].
  apply negb_true_iff, Z.eqb_neq in Hr2.
  repeat (split; [assumption || reflexivity|]).
  intros blocked Hb. unfold blacklisted in Hbl.
  assert (Hx : (String.eqb (ToLower (Ext (w_path w))) blocked
                || String.eqb (ToLower (Ext (w_path w)))
                              ("." ++ blocked)%string)%bool = false).
  { destruct (_ || _)%bool eqn:Hx; [|reflexivity].
    assert (existsb
              (fun blocked =>
                 (String.eqb (ToLower (Ext (w_path w))) blocked
                  || String.eqb (ToLower (Ext (w_path w)))
                                ("." ++ blocked)%string)%bool)
              (Blacklist (config s)) = true); [|congruence].
    apply existsb_exists. now exists blocked. }
  apply orb_false_iff in Hx. destruct Hx as [H1 H2].
  now rewrite !String.eqb_neq in *.
Qed.

(** ** Unchanged files *)

Lemma visit_unchanged (s : Service) (env : Env) (st : ScanState) (w : WalkEntry) :
  (regular w = true ->
   forall h, HashFileContent env (w_path w) = Ok h ->
             exists e, GetLatestVersion (catalog s) (w_path w) = Ok (Some e) /\
                       ContentHash e = h) ->
  exists st', visit Abs Ext ToLower HashPath s env st w = Return st' /\
              sc_files st' = sc_files st.
Proof.
  intros Hsame. unfold visit. unfold regular in Hsame.
  destruct (w_err w || w_isDir w)%bool; [now exists st|].
  destruct (w_size w =? 0); [now exists st|].
  destruct (seen _ _); [now exists st|].
  destruct (blacklisted _ _); [eexists; split; reflexivity|].
  destruct (HashFileContent env (w_path w)) as [h|e] eqn:Hh;
    [|eexists; split; reflexivity].
  destruct (Hsame eq_refl h eq_refl) as (e & Hl & He).
  unfold NeedsBackup. rewrite Hl, He, String.eqb_refl. simpl.
  eexists; split; reflexivity.
Qed.

Lemma walk_all_unchanged (s : Service) (env : Env) (ws : list WalkEntry) :
  (forall w, In w ws -> regular w = true ->
     forall h, HashFileContent env (w_path w) = Ok h ->
               exists e, GetLatestVersion (catalog s) (w_path w) = Ok (Some e) /\
                         ContentHash e = h) ->
  forall st, exists st',
    walk_all Abs Ext ToLower HashPath s env st ws = Return st' /\
    sc_files st' = sc_files st.
Proof.
  induction ws as [|w rest IH]; intros Hsame st; simpl.
  - now exists st.
  - destruct (visit_unchanged s env st w (Hsame w (or_introl eq_refl)))
      as (st1 & -> & H1).
    destruct (IH (fun w' Hw' => Hsame w' (or_intror Hw')) st1)
      as (st' & -> & H').
    exists st'. split; [reflexivity|congruence].
Qed.

Lemma scan_dirs_unchanged (s : Service) (env : Env) (dirs : list string) :
  (forall dir w, In dir dirs -> In w (walk env dir) -> regular w = true ->
     forall h, HashFileContent env (w_path w) = Ok h ->
               exists e, GetLatestVersion (catalog s) (w_path w) = Ok (Some e) /\
                         ContentHash e = h) ->
  forall acc seenPaths, scan_dirs s env dirs acc seenPaths = Return acc.
Proof.
  induction dirs as [|dir rest IH]; intros Hsame acc seenPaths; simpl.
  - reflexivity.
  - unfold scanDirectoryIncrementalWithProgress.
    destruct (walk_all_unchanged s env (walk env dir)
                (fun w Hw => Hsame dir w (or_introl eq_refl) Hw)
                {| sc_files := []; sc_scanned := 0; sc_skipped := 0;
                   sc_seen := seenPaths |}) as (st' & -> & Hf).
    simpl in Hf. rewrite Hf, app_nil_r.
    apply IH. intros d w Hd. apply Hsame. now right.
Qed.

(** X17: a session over files that have not changed -- every non-empty
    regular file walked, if its content can be hashed, has that content
    hash in its latest catalog version -- completes without error, creates
    no tar part, uploads nothing, does not touch the catalog and uploads no
    catalog snapshot. *)
Theorem unchanged_session_uploads_nothing (s : Service) (env : Env) :
  isRunning s = false ->
  DeviceID (config s) <> 0 ->
  EncryptionKey (config s) <> "" ->
  mkdir_temp env = None ->
  (forall dir w, In dir (BackupDirs (config s)) -> In w (walk env dir) ->
     regular w = true ->
     forall h, HashFileContent env (w_path w) = Ok h ->
               exists e, GetLatestVersion (catalog s) (w_path w) = Ok (Some e) /\
                         ContentHash e = h) ->
  Run s env
  = Return (None,
            {| config := config s; catalog := catalog s; isRunning := false |},
            {| backupID_at := Some (now env 0%nat); timestamp_at := None;
               shards := []; addEntriesCalled := false;
               catalogUploaded := false |}).
Proof.
  intros Hrun Hdev Hkey Hmk Hsame. unfold Backup.Run, finish.
  rewrite Hrun. apply Z.eqb_neq in Hdev. rewrite Hdev.
  apply String.eqb_neq in Hkey. rewrite Hkey, Hmk.
  now rewrite (scan_dirs_unchanged s env _ Hsame).
Qed.

(** ** A failing catalog *)

Lemma walk_all_broken (s : Service) (env : Env) (e : string) :
  db_err (catalog s) = Some e ->
  forall ws st,
    NoDup (map (fun w => Abs (w_path w)) (filter regular ws)) ->
    (forall w, In w ws -> regular w = true ->
               ~ In (Abs (w_path w)) (sc_seen st)) ->
    exists st',
      walk_all Abs Ext ToLower HashPath s env st ws = Return st' /\
      sc_files st' = sc_files st ++ eligible_records Ext ToLower HashPath s env ws /\
      sc_skipped st' = sc_skipped st.
Proof.
  intros Hdb. induction ws as [|w rest IH]; intros st Hnd Hfresh.
  - exists st. simpl. now rewrite app_nil_r.
  - simpl walk_all. unfold eligible_records. simpl flat_map.
    fold (eligible_records Ext ToLower HashPath s env rest).
    unfold visit.
    destruct (regular w) eqn:Hreg.
    + pose proof Hreg as Hreg'. unfold regular in Hreg'.
      apply andb_true_iff in Hreg'. destruct Hreg' as [Hr1 Hr2].
      apply negb_true_iff in Hr1, Hr2. rewrite Hr1, Hr2.
      assert (seen (sc_seen st) (Abs (w_path w)) = false) as ->.
      { destruct (seen _ _) eqn:Hs; [|reflexivity].
        apply seen_true in Hs. exfalso.
        exact (Hfresh w (or_introl eq_refl) Hreg Hs). }
      simpl in Hnd. rewrite Hreg in Hnd. simpl in Hnd.
      inversion Hnd as [|? ? Hnotin Hnd']; subst.
      assert (Hnext : forall st1,
                 sc_seen st1 = Abs (w_path w) :: sc_seen st ->
                 forall w', In w' rest -> regular w' = true ->
                            ~ In (Abs (w_path w')) (sc_seen st1)).
      { intros st1 Hs w' Hw' Hr' Hin. rewrite Hs in Hin.
        destruct Hin as [Heq|Hin].
        - apply Hnotin. rewrite Heq. apply in_map_iff. exists w'.
          split; [reflexivity|]. apply filter_In. auto.
        - exact (Hfresh w' (or_intror Hw') Hr' Hin). }
      unfold blacklisted.
      destruct (existsb _ (Blacklist (config s))) eqn:Hb; simpl.
      * match goal with
        | |- context [walk_all _ _ _ _ _ _ ?st1 rest] =>
            destruct (IH st1 Hnd' (Hnext st1 eq_refl)) as (st' & -> & Hf & Hk)
        end.
        exists st'. split; [reflexivity|]. simpl in Hf, Hk. auto.
      * destruct (HashFileContent env (w_path w)) as [h|e'] eqn:Hh.
        -- unfold NeedsBackup, GetLatestVersion. rewrite Hdb.
           match goal with
        | |- context [walk_all _ _ _ _ _ _ ?st1 rest] =>
            destruct (IH st1 Hnd' (Hnext st1 eq_refl)) as (st' & -> & Hf & Hk)
        end.
           exists st'. split; [reflexivity|]. simpl in Hf, Hk.
           rewrite Hf, <- app_assoc. auto.
        -- match goal with
        | |- context [walk_all _ _ _ _ _ _ ?st1 rest] =>
            destruct (IH st1 Hnd' (Hnext st1 eq_refl)) as (st' & -> & Hf & Hk)
        end.
           exists st'. split; [reflexivity|]. simpl in Hf, Hk.
           split; [exact Hf|exact Hk].
    + simpl in Hnd. rewrite Hreg in Hnd.
      assert (Hskip : (if (w_err w || w_isDir w)%bool then true
                       else w_size w =? 0) = true).
      { unfold regular in Hreg. apply andb_false_iff in Hreg.
        destruct Hreg as [Hr|Hr]; apply negb_false_iff in Hr; rewrite Hr;
          [reflexivity|now destruct (w_err w || w_isDir w)%bool]. }
      destruct (w_err w || w_isDir w)%bool eqn:H1.
      * apply (IH st Hnd). intros w' Hw'. apply Hfresh. now right.
      * rewrite Hskip. apply (IH st Hnd). intros w' Hw'. apply Hfresh.
        now right.
Qed.

(** X18: with a catalog that fails every query the scanner neither stops
    nor panics: over a walk whose regular entries have pairwise different
    absolute paths, none of them seen before, it schedules every regular,
    non-blacklisted, readable file ("backup if we can't determine") and
    counts no file as unchanged. *)
Theorem scan_with_failing_catalog
        (s : Service) (env : Env) (e dir : string) (seenPaths : list string) :
  db_err (catalog s) = Some e ->
  NoDup (map (fun w => Abs (w_path w)) (filter regular (walk env dir))) ->
  (forall w, In w (walk env dir) -> regular w = true ->
             ~ In (Abs (w_path w)) seenPaths) ->
  exists scanned seenPaths',
    scanDirectoryIncrementalWithProgress
      Abs Ext ToLower HashPath s env dir seenPaths
    = Return (eligible_records Ext ToLower HashPath s env (walk env dir),
              scanned, 0, None, seenPaths').
Proof.
  intros Hdb Hnd Hfresh. unfold scanDirectoryIncrementalWithProgress.
  destruct (walk_all_broken s env e Hdb (walk env dir)
              {| sc_files := []; sc_scanned := 0; sc_skipped := 0;
                 sc_seen := seenPaths |} Hnd Hfresh)
    as (st' & -> & Hf & Hk).
  simpl in Hf, Hk. rewrite Hf, Hk. now do 2 eexists.
Qed.

(** ** Uploads before the commit, the snapshot after it *)

Lemma pack_loop_uploaded (env : Env) (ts : time) :
  forall files i st st',
    Forall (fun sh => uploadTar env (shard_part sh) = None) (sealed st) ->
    pack_loop env ts i files st = (None, st') ->
    Forall (fun sh => uploadTar env (shard_part sh) = None) (sealed st').
Proof.
  induction files as [|file rest IH]; intros i st st' Hup H; simpl in H.
  - now injection H as <-.
  - destruct (stop_requested env i); [discriminate|].
    destruct (pack env i file) as [|encSize packedSize].
    { eapply IH; eassumption. }
    cbn [tarSize tarPart members catalogEntries doneBytes sealed] in H.
    destruct (_ >? maxTarSize).
    + destruct (uploadTar env (tarPart st)) eqn:Hu; [discriminate|].
      destruct (create_tar env (S (tarPart st))); [discriminate|].
      eapply IH; [|exact H]. simpl.
      apply Forall_app. split; [assumption|]. now repeat constructor.
    + eapply IH; [|exact H]. exact Hup.
Qed.

(** X19: the order of a session's effects: when [AddEntries] is invoked,
    every tar part of the session has been uploaded successfully; the
    catalog snapshot is uploaded only in a session that ends without error,
    and it is the export of the catalog as the session left it; a session
    that packed something and ends without error has uploaded the
    snapshot. *)
Theorem commit_follows_uploads
        (s : Service) (env : Env) (err : error) (s' : Service) (rep : Report) :
  Run s env = Return (err, s', rep) ->
  (addEntriesCalled rep = true ->
   forall sh, In sh (shards rep) -> uploadTar env (shard_part sh) = None) /\
  (catalogUploaded rep = true ->
   err = None /\ upload_snapshot env (catalog s') = None) /\
  (err = None -> timestamp_at rep <> None -> catalogUploaded rep = true).
Proof.
  intros H. run_paths H; simpl.
  all: try match goal with
           | Hl : pack_loop _ _ _ _ _ = (None, _) |- _ =>
               pose proof Hl as Hup;
               apply pack_loop_uploaded in Hup; [|constructor]
           end.
  all: split; [|split].
  all: try (intros Hf; discriminate Hf).
  all: try (intros Hf; split; [reflexivity|assumption]).
  all: try (intros _ Hf; congruence).
  all: try (intros _ _; reflexivity).
  all: try (intros Hf; congruence).
  all: intros _ sh Hin; rewrite Forall_forall in Hup;
       try (apply in_app_or in Hin; destruct Hin as [Hin|[<-|[]]]);
       try (now apply Hup); simpl; assumption.
Qed.

End SessionProperties.

(** * Properties of catalog recovery and of the directory list *)

Section RecoveryProperties.

Import Catalog Backup.

Lemma with_rows_twice (c : Catalog) (l l' : list FileEntry) :
  with_rows (with_rows c l) l' = with_rows c l'.
Proof. reflexivity. Qed.

(** The rows a list of fetched snapshots contributes when nothing fails. *)
Lemma import_all_appends (fetches : list SnapshotFetch) :
  forall c,
  exists extra,
    import_all c fetches = with_rows c (dosyalar c ++ extra) /\
    (forall r, In r extra ->
               exists rows f, In (Fetched (Ok rows) f) fetches /\ In r rows) /\
    (db_err c = None ->
     (forall x, In x fetches -> exists rows, x = Fetched (Ok rows) no_faults) ->
     extra = flat_map (fun x => match x with
                                | Fetched (Ok rows) _ => rows
                                | _ => []
                                end) fetches).
Proof.
  induction fetches as [|x rest IH]; intros c.
  - exists []. simpl. rewrite app_nil_r, with_rows_same.
    repeat split; [contradiction..].
  - assert (Hskip : forall c0, import_all c0 rest = import_all c (x :: rest) ->
                c0 = c ->
                (forall rows, x <> Fetched (Ok rows) no_faults) ->
                exists extra,
                  import_all c (x :: rest) = with_rows c (dosyalar c ++ extra) /\
                  (forall r, In r extra ->
                     exists rows f,
                       In (Fetched (Ok rows) f) (x :: rest) /\ In r rows) /\
                  (db_err c = None ->
                   (forall y, In y (x :: rest) ->
                              exists rows, y = Fetched (Ok rows) no_faults) ->
                   extra = flat_map (fun x => match x with
                                              | Fetched (Ok rows) _ => rows
                                              | _ => []
                                              end) (x :: rest))).
    { intros c0 Heq -> Hne. destruct (IH c) as (extra & He & Hprov & _).
      exists extra. rewrite <- Heq. split; [exact He|]. split.
      - intros r Hr. destruct (Hprov r Hr) as (rows & f & Hin & Hrr).
        exists rows, f. split; [now right|assumption].
      - intros _ Hall. destruct (Hall x (or_introl eq_refl)) as (rows & Hx).
        exfalso. exact (Hne rows Hx). }
    destruct x as [| |src f].
    + apply (Hskip c eq_refl eq_refl). discriminate.
    + apply (Hskip c eq_refl eq_refl). discriminate.
    + simpl import_all.
      destruct (ImportFromFile_atomic c src f) as [(rows & -> & Hi)|(e & Hi)].
      * rewrite Hi. simpl snd.
        destruct (IH (with_rows c (dosyalar c ++ rows)))
          as (extra & He & Hprov & Hall).
        exists (rows ++ extra). rewrite He. simpl.
        rewrite <- app_assoc. split; [reflexivity|]. split.
        -- intros r Hr. apply in_app_or in Hr. destruct Hr as [Hr|Hr].
           ++ exists rows, f. split; [now left|assumption].
           ++ destruct (Hprov r Hr) as (rows' & f' & Hin & Hrr).
              exists rows', f'. split; [now right|assumption].
        -- intros Hdb Hok. simpl. f_equal.
           apply Hall; [exact Hdb|]. intros y Hy. apply Hok. now right.
      * rewrite Hi. simpl snd.
        destruct (IH c) as (extra & He & Hprov & _).
        exists extra. split; [exact He|]. split.
        -- intros r Hr. destruct (Hprov r Hr) as (rows' & f' & Hin & Hrr).
           exists rows', f'. split; [now right|assumption].
        -- intros Hdb Hok.
           destruct (Hok _ (or_introl eq_refl)) as (rows & Hx).
           injection Hx as -> ->. exfalso.
           unfold ImportFromFile, Begin in Hi. rewrite Hdb in Hi. simpl in Hi.
           rewrite exec_rows_no_faults in Hi. discriminate.
Qed.

(** X20: [RecoverCatalog] refuses to run without an encryption key and
    reports a failed listing; otherwise it always returns [nil], whatever
    happens to the individual snapshots.  It never drops a row: the
    catalog afterwards is the old one followed by rows that each come from
    a snapshot that was fetched and decrypted; when every snapshot imports
    without fault, these are all the rows of all snapshots, in listing
    order -- rows that several snapshots share are stored once per
    snapshot. *)
Theorem RecoverCatalog_appends_snapshots
        (s : Service) (listing : result (list SnapshotFetch)) :
  (EncryptionKey (config s) = "" ->
   RecoverCatalog s listing
   = (Some "encryption key required to recover catalog", s)) /\
  (EncryptionKey (config s) <> "" ->
   (forall e, listing = Err e -> RecoverCatalog s listing = (Some e, s)) /\
   (forall fetches, listing = Ok fetches ->
      exists extra,
        RecoverCatalog s listing
        = (None,
           {| config := config s;
              catalog := with_rows (catalog s)
                                   (dosyalar (catalog s) ++ extra);
              isRunning := isRunning s |}) /\
        (forall r, In r extra ->
           exists rows f, In (Fetched (Ok rows) f) fetches /\ In r rows) /\
        (db_err (catalog s) = None ->
         (forall x, In x fetches ->
                    exists rows, x = Fetched (Ok rows) no_faults) ->
         extra = flat_map (fun x => match x with
                                    | Fetched (Ok rows) _ => rows
                                    | _ => []
                                    end) fetches))).
Proof.
  unfold RecoverCatalog. split.
  - intros ->. reflexivity.
  - intros Hkey. apply String.eqb_neq in Hkey. rewrite Hkey. split.
    + now intros e ->.
    + intros fetches ->.
      destruct (import_all_appends fetches (catalog s)) as (extra & -> & H).
      now exists extra.
Qed.

(** X21: the list of backup directories stays free of duplicates:
    [AddBackupDirectory] refuses a directory that is missing or already
    listed and otherwise appends it -- in memory even when saving the
    configuration fails -- and [RemoveBackupDirectory] removes every
    occurrence, so that removing a directory just added gives back the
    list as it was. *)
Theorem backup_directories_stay_distinct
        (cfg : Config) (not_exist : bool) (save save' : error) (dir : string) :
  NoDup (BackupDirs cfg) ->
  NoDup (BackupDirs (snd (AddBackupDirectory cfg not_exist save dir))) /\
  NoDup (BackupDirs (snd (RemoveBackupDirectory cfg save dir))) /\
  ~ In dir (BackupDirs (snd (RemoveBackupDirectory cfg save dir))) /\
  (not_exist = false ->
   In dir (BackupDirs (snd (AddBackupDirectory cfg not_exist save dir)))) /\
  (fst (AddBackupDirectory cfg not_exist save dir) = None ->
   not_exist = false /\ ~ In dir (BackupDirs cfg) /\ save = None) /\
  (~ In dir (BackupDirs cfg) ->
   BackupDirs (snd (RemoveBackupDirectory
                      (snd (AddBackupDirectory cfg false save dir)) save' dir))
   = BackupDirs cfg).
Proof.
  intros Hnd.
  assert (Hmem : existsb (fun d => String.eqb d dir) (BackupDirs cfg) = true
                 <-> In dir (BackupDirs cfg)).
  { rewrite existsb_exists. split.
    - intros (d & Hd & Heq). apply String.eqb_eq in Heq. now subst.
    - intros H. exists dir. split; [assumption|apply String.eqb_refl]. }
  assert (Hfilter : forall l, ~ In dir l ->
                      filter (fun d => negb (String.eqb d dir)) l = l).
  { induction l as [|d l IH]; intros Hn; [reflexivity|]. simpl.
    destruct (String.eqb d dir) eqn:Heq.
    - apply String.eqb_eq in Heq. exfalso. apply Hn. now left.
    - simpl. f_equal. apply IH. intros F. apply Hn. now right. }
  destruct Hmem as [Hmem1 Hmem2].
  unfold AddBackupDirectory, RemoveBackupDirectory. simpl.
  split; [|split; [|split; [|split; [|split]]]].
  - destruct not_exist; [assumption|].
    destruct (existsb _ (BackupDirs cfg)); [assumption|]. simpl.
    apply NoDup_app; [assumption|repeat constructor; intros []|].
    intros d Hd [<-|[]]. apply Hmem2 in Hd. discriminate.
  - now apply NoDup_filter.
  - intros Hin. apply filter_In in Hin. destruct Hin as [_ Hin].
    now rewrite String.eqb_refl in Hin.
  - intros ->. destruct (existsb _ (BackupDirs cfg)).
    + now apply Hmem1.
    + simpl. apply in_or_app. right. now left.
  - destruct not_exist; [discriminate|].
    destruct (existsb _ (BackupDirs cfg)); [discriminate|]. simpl.
    intros ->. repeat split. intros Hin. apply Hmem2 in Hin. discriminate.
  - intros Hn.
    destruct (existsb _ (BackupDirs cfg)).
    + exfalso. now apply Hn, Hmem1.
    + simpl. rewrite filter_app, (Hfilter _ Hn). simpl.
      rewrite String.eqb_refl. simpl. apply app_nil_r.
Qed.

(** ** After the commit *)

Lemma tarih_gt_irrefl (a : time) : ~ tarih_gt a a.
Proof.
  unfold tarih_gt. rewrite tarih_ltb_leb.
  now rewrite (tarih_le_refl a).
Qed.

Lemma tarih_gt_asym (a b : time) : tarih_gt a b -> tarih_ltb a b = false.
Proof.
  intros H. apply tarih_ltb_false. now apply tarih_ltb_le.
Qed.

Lemma tarih_gt_later (a b : time) : zone a = zone b -> b < a -> tarih_gt a b.
Proof.
  unfold tarih_gt. destruct a as [ua za], b as [ub zb]. simpl. intros ->.
  tarih_cases.
Qed.

Lemma newest_unique_max (l : list FileEntry) (e : FileEntry) :
  (forall x, In x l -> x = e \/ tarih_gt (Timestamp e) (Timestamp x)) ->
  In e l -> newest l = Some e.
Proof.
  induction l as [|x rest IH]; intros Hall Hin; [contradiction|].
  simpl. destruct (newest rest) as [m|] eqn:Hm.
  - pose proof (newest_In _ _ Hm) as Hmin.
    destruct (Hall m (or_intror Hmin)) as [->|Hlt].
    + destruct (Hall x (or_introl eq_refl)) as [->|Hx].
      * now destruct (tarih_ltb (Timestamp e) (Timestamp e)).
      * now rewrite (tarih_gt_asym _ _ Hx).
    + destruct Hin as [->|Hin].
      * unfold tarih_gt in Hlt. now rewrite Hlt.
      * pose proof (IH (fun y Hy => Hall y (or_intror Hy)) Hin) as Hn.
        assert (m = e) by congruence. subst m.
        now apply tarih_gt_irrefl in Hlt.
  - apply newest_None in Hm. subst rest.
    destruct Hin as [->|[]]. reflexivity.
Qed.

Lemma appended_version_is_latest
      (c : Catalog) (entries : list FileEntry) (e : FileEntry) (sz : Z) :
  db_err c = None ->
  In e entries ->
  (forall r, In r (dosyalar c) -> OrigPath r = OrigPath e ->
             tarih_gt (Timestamp e) (Timestamp r)) ->
  (forall r, In r entries -> OrigPath r = OrigPath e -> r = e) ->
  GetLatestVersion (with_rows c (dosyalar c ++ entries)) (OrigPath e)
  = Ok (Some e) /\
  NeedsBackup (with_rows c (dosyalar c ++ entries)) (OrigPath e)
              (ContentHash e) sz = Return (Ok false).
Proof.
  intros Hdb Hin Hold Honly.
  assert (Hl : GetLatestVersion (with_rows c (dosyalar c ++ entries))
                                (OrigPath e) = Ok (Some e)).
  { unfold GetLatestVersion. simpl. rewrite Hdb. f_equal.
    apply newest_unique_max.
    - intros x Hx. apply filter_In in Hx. destruct Hx as [Hx Hp].
      apply adi_is_true in Hp. apply in_app_or in Hx.
      destruct Hx as [Hx|Hx]; [right; now apply Hold|left; now apply Honly].
    - apply filter_In. split; [apply in_or_app; now right|].
      now apply adi_is_true. }
  split; [exact Hl|].
  unfold NeedsBackup. rewrite Hl, String.eqb_refl. reflexivity.
Qed.

(** X22: once a batch is committed, a version [e] of the batch that is
    the only version of its path in the batch, and newer than every earlier
    version of that path, all of them stored under the zone offset of [e],
    is the latest version of the path, and the path no longer needs backup
    for the content hash of [e], whatever the size. *)
Theorem committed_version_needs_no_backup
        (c c' : Catalog) (f : TxFaults) (entries : list FileEntry)
        (e : FileEntry) (sz : Z) :
  AddEntries c f entries = (None, c') ->
  In e entries ->
  (forall r, In r (dosyalar c) -> OrigPath r = OrigPath e ->
             zone (Timestamp r) = zone (Timestamp e) /\
             Timestamp r < Timestamp e) ->
  (forall r, In r entries -> OrigPath r = OrigPath e -> r = e) ->
  GetLatestVersion c' (OrigPath e) = Ok (Some e) /\
  NeedsBackup c' (OrigPath e) (ContentHash e) sz = Return (Ok false).
Proof.
  intros Ha Hin Hold Honly.
  destruct (AddEntries_atomic c f entries) as [Hs|[e' Hs]];
    rewrite Hs in Ha; [|discriminate].
  injection Ha as <-.
  assert (Hdb : db_err c = None).
  { unfold AddEntries, Begin in Hs. destruct (db_err c); [discriminate|].
    reflexivity. }
  apply appended_version_is_latest; try assumption.
  intros r Hr Hp. destruct (Hold r Hr Hp) as [Hz Hlt].
  apply tarih_gt_later; [now symmetry|exact Hlt].
Qed.

End RecoveryProperties.

(** * From one session to the next *)

Section NextSession.

Import Catalog Backup.

Variable Abs : string -> string.
Variable Ext : string -> string.
Variable Dir : string -> string.
Variable ToLower : string -> string.
Variable HashPath : string -> string.

Local Abbreviation Run := (Backup.Run Abs Ext Dir ToLower HashPath).
Local Abbreviation scan_dirs := (Backup.scan_dirs Abs Ext ToLower HashPath).

Ltac run_paths H :=
  unfold Backup.Run, finish in H;
  repeat match type of H with
         | context [if ?b then _ else _] => destruct b eqn:?
         | context [match ?x with _ => _ end] => destruct x eqn:?
         end;
  try discriminate H;
  injection H as <- <- <-.

Lemma packed_entries_from (env : Env) (ts : time) (files : list fileToBackup) :
  forall i e, In e (packed_entries Dir env ts i files) ->
              exists f, In f files /\ OrigPath e = path f /\
                        ContentHash e = contentHash f /\ Timestamp e = ts.
Proof.
  induction files as [|file rest IH]; intros i e H; simpl in H; [contradiction|].
  destruct (pack env i file) as [|a b].
  - destruct (IH _ _ H) as (f & Hf & Hrest). exists f. split; [now right|exact Hrest].
  - destruct H as [<-|H].
    + exists file. simpl. auto.
    + destruct (IH _ _ H) as (f & Hf & Hrest). exists f.
      split; [now right|exact Hrest].
Qed.

Lemma packed_entries_distinct (env : Env) (ts : time) (files : list fileToBackup) :
  NoDup (map path files) ->
  forall i, NoDup (map OrigPath (packed_entries Dir env ts i files)).
Proof.
  induction files as [|file rest IH]; intros Hnd i; simpl; [constructor|].
  inversion Hnd as [|? ? Hnot Hnd']; subst.
  destruct (pack env i file) as [|a b]; [now apply IH|].
  simpl. constructor; [|now apply IH].
  intros Hin. apply in_map_iff in Hin. destruct Hin as (e & Hp & He).
  destruct (packed_entries_from _ _ _ _ _ He) as (f & Hf & Hpf & _).
  apply Hnot. apply in_map_iff. exists f. split; [congruence|assumption].
Qed.

Lemma NoDup_map_inj {A B : Type} (g : A -> B) (l : list A) (a b : A) :
  NoDup (map g l) -> In a l -> In b l -> g a = g b -> a = b.
Proof.
  induction l as [|x l IH]; intros Hnd Ha Hb Heq; [contradiction|].
  simpl in Hnd. inversion Hnd as [|? ? Hnot Hnd']; subst.
  destruct Ha as [->|Ha], Hb as [->|Hb]; try reflexivity.
  - exfalso. apply Hnot. rewrite Heq. now apply in_map.
  - exfalso. apply Hnot. rewrite <- Heq. now apply in_map.
  - now apply IH.
Qed.

(** What a session that ends without error leaves in the catalog. *)
Lemma Run_success_rows
      (s : Service) (env : Env) (s' : Service) (rep : Report) :
  Run s env = Return (None, s', rep) ->
  exists files,
    scan_dirs s env (BackupDirs (config s)) [] [] = Return files /\
    catalog s'
    = with_rows (catalog s)
                (dosyalar (catalog s)
                 ++ packed_entries Dir env (now env 1%nat) 0 files) /\
    (packed_entries Dir env (now env 1%nat) 0 files <> [] ->
     db_err (catalog s) = None).
Proof.
  intros H.
  remember (@None string) as err eqn:Herr in H.
  run_paths H; try discriminate Herr; simpl.
  all: try match goal with
           | Ha : AddEntries ?c ?f ?es = _ |- _ =>
               pose proof Ha as Hdb;
               destruct (AddEntries_atomic c f es) as [Hs|[e' Hs]];
               rewrite Hs in Ha;
               first [discriminate Ha | inversion Ha; subst]
           end.
  all: try discriminate.
  all: eexists; (split; [reflexivity|]).
  all: try match goal with
           | |- context [packed_entries _ _ _ _ []] =>
               cbn [packed_entries];
               split; [now rewrite app_nil_r, with_rows_same|congruence]
           end.
  all: match goal with
       | Hl : Backup.pack_loop _ _ _ _ _ _ = _ |- _ =>
           pose proof Hl as Hpk; apply pack_loop_packed in Hpk
       end.
  all: cbn [catalogEntries app] in Hpk; rewrite <- Hpk.
  all: match goal with
       | He : catalogEntries _ = [] |- _ => rewrite He in *
       | He : catalogEntries _ = _ :: _ |- _ => rewrite He in *
       end.
  all: try (split; [now rewrite app_nil_r, with_rows_same|congruence]).
  all: split; [reflexivity|intros _].
  all: unfold AddEntries, Begin in Hdb;
       destruct (db_err (catalog s)); [discriminate|reflexivity].
Qed.

(** X23: after a session that ends without error and whose timestamp is
    later than every timestamp already in the catalog, all stored under the
    zone offset of the session's clock, every version the session added is
    the latest version of its path, and that path does not need backup for
    the content hash just stored: a scan repeated over unchanged files
    finds nothing to do. *)
Theorem committed_files_are_up_to_date
        (s : Service) (env : Env) (s' : Service) (rep : Report) :
  Run s env = Return (None, s', rep) ->
  (forall r, In r (dosyalar (catalog s)) ->
             zone (Timestamp r) = zone (now env 1%nat) /\
             Timestamp r < now env 1%nat) ->
  exists added,
    dosyalar (catalog s') = dosyalar (catalog s) ++ added /\
    forall e, In e added ->
      Timestamp e = now env 1%nat /\
      GetLatestVersion (catalog s') (OrigPath e) = Ok (Some e) /\
      forall sz, NeedsBackup (catalog s') (OrigPath e) (ContentHash e) sz
                 = Return (Ok false).
Proof.
  intros H Hold.
  destruct (Run_success_rows _ _ _ _ H) as (files & Hscan & -> & Hdb).
  eexists. split; [reflexivity|]. intros e He.
  destruct (packed_entries_from _ _ _ _ _ He) as (f & Hf & Hp & Hc & Ht).
  split; [exact Ht|].
  assert (Hnd : NoDup (map OrigPath
                           (packed_entries Dir env (now env 1%nat) 0 files))).
  { apply packed_entries_distinct.
    pose proof (scan_dirs_emits Abs Ext ToLower HashPath _ _ _ _ _ _ Hscan)
      as (new & Hnew & Hnd & _).
    simpl in Hnew. subst new.
    clear - Hnd. induction files as [|x l IH]; [constructor|].
    simpl in *. inversion Hnd as [|? ? Hnot Hnd']; subst.
    constructor; [|now apply IH].
    intros Hin. apply Hnot. apply in_map_iff in Hin.
    destruct Hin as (y & Hy & Hin). apply in_map_iff. exists y.
    split; [now rewrite Hy|assumption]. }
  assert (Hdb' : db_err (catalog s) = None).
  { apply Hdb. intros Hnil. rewrite Hnil in He. contradiction. }
  assert (Hlatest : forall sz,
             GetLatestVersion
               (with_rows (catalog s)
                  (dosyalar (catalog s)
                   ++ packed_entries Dir env (now env 1%nat) 0 files))
               (OrigPath e) = Ok (Some e) /\
             NeedsBackup
               (with_rows (catalog s)
                  (dosyalar (catalog s)
                   ++ packed_entries Dir env (now env 1%nat) 0 files))
               (OrigPath e) (ContentHash e) sz = Return (Ok false)).
  { intros sz. apply appended_version_is_latest; try assumption.
    - intros r Hr _. rewrite Ht. destruct (Hold r Hr) as [Hz Hlt].
      apply tarih_gt_later; [now symmetry|exact Hlt].
    - intros r Hr Hrp. exact (NoDup_map_inj OrigPath _ r e Hnd Hr He Hrp). }
  split; [exact (proj1 (Hlatest 0))|]. intros sz. exact (proj2 (Hlatest sz)).
Qed.

End NextSession.

(** * Properties of the file operations of internal/crypto *)

Section FileEncryption.

Import Crypto.

Variable gcm_seal : bytes -> bytes -> bytes -> bytes.
Variable gcm_open : bytes -> bytes -> bytes -> result bytes.
Variable gzip : bytes -> result bytes.
Variable gunzip : bytes -> result bytes.
Variable rnd : nat -> result bytes.

Local Abbreviation EncryptFile := (Crypto.EncryptFile gcm_seal gzip rnd).
Local Abbreviation DecryptFile := (Crypto.DecryptFile gcm_open gunzip).

Lemma WriteFile_cases (fs fs' : FS) (path : string) (data : bytes)
      (r : option string) :
  WriteFile fs path data = (r, fs') ->
  (forall q, q <> path -> content fs' q = content fs q) /\
  (fs' = fs \/ exists n, content fs' path = Ok (firstn n data)) /\
  (r = None -> content fs' path = Ok data).
Proof.
  assert (Hstore : forall d,
             content (store fs path d) path = Ok d /\
             forall q, q <> path -> content (store fs path d) q = content fs q).
  { intros d. simpl. rewrite String.eqb_refl. split; [reflexivity|].
    intros q Hq. apply String.eqb_neq in Hq. now rewrite Hq. }
  unfold WriteFile. destruct (deny_write fs path) as [e|].
  - intros H. injection H as <- <-.
    split; [reflexivity|]. split; [now left|discriminate].
  - destruct (short_write fs path) as [[e n]|]; intros H; injection H as <- <-.
    + destruct (Hstore (firstn n data)) as [Hc Hf].
      split; [exact Hf|]. split; [right; now exists n|discriminate].
    + destruct (Hstore data) as [Hc Hf].
      split; [exact Hf|]. split; [|now intros _].
      right. exists (length data). now rewrite firstn_all.
Qed.

(** X24: [EncryptFile] and [DecryptFile] change no path but the
    destination, and the destination only after reading and encrypting
    (decrypting and decompressing) have succeeded: whatever the outcome,
    the file system is either untouched or its destination holds the
    output or, when the write broke off, a prefix of it.  In particular
    [DecryptFile] writes nothing when the authentication or the
    decompression fails.  A successful [EncryptFile] returns the length of
    what it wrote, which is at least the twelve bytes of the nonce. *)
Theorem file_operations_write_destination_only
        (src dst : string) (key : bytes) (fs : FS) :
  (forall r fs', EncryptFile src dst key fs = (r, fs') ->
     (forall q, q <> dst -> content fs' q = content fs q) /\
     (fs' = fs \/
      exists data sealed n,
        content fs src = Ok data /\
        CompressAndEncrypt gcm_seal gzip rnd data key = Ok sealed /\
        content fs' dst = Ok (firstn n sealed))) /\
  (forall size fs', EncryptFile src dst key fs = (Ok size, fs') ->
     exists sealed,
       content fs' dst = Ok sealed /\
       size = Z.of_nat (length sealed) /\ 12 <= size) /\
  (forall r fs', DecryptFile src dst key fs = (r, fs') ->
     (forall q, q <> dst -> content fs' q = content fs q) /\
     (fs' = fs \/
      exists sealed plain n,
        content fs src = Ok sealed /\
        DecryptAndDecompress gcm_open gunzip sealed key = Ok plain /\
        content fs' dst = Ok (firstn n plain))) /\
  (forall fs', DecryptFile src dst key fs = (None, fs') ->
     exists sealed plain,
       content fs src = Ok sealed /\
       DecryptAndDecompress gcm_open gunzip sealed key = Ok plain /\
       content fs' dst = Ok plain).
Proof.
  unfold Crypto.EncryptFile, Crypto.DecryptFile, ReadFile.
  split; [|split; [|split]].
  - intros r fs'. destruct (content fs src) as [data|e0] eqn:Hsrc.
    + destruct (CompressAndEncrypt _ _ _ data key) as [enc|e1] eqn:Hc.
      * destruct (WriteFile fs dst enc) as [w fs1] eqn:Hw.
        destruct (WriteFile_cases _ _ _ _ _ Hw) as (Hframe & Hdst & _).
        intros H. assert (fs1 = fs') as <-
            by (destruct w; now injection H as _ <-).
        split; [exact Hframe|].
        destruct Hdst as [->|[n Hn]]; [now left|].
        right. now exists data, enc, n.
      * intros H; injection H as _ <-. split; [reflexivity|now left].
    + intros H; injection H as _ <-. split; [reflexivity|now left].
  - intros size fs'. destruct (content fs src) as [data|e0]; [|discriminate].
    destruct (CompressAndEncrypt _ _ _ data key) as [enc|e1] eqn:Hc;
      [|discriminate].
    destruct (WriteFile fs dst enc) as [[e2|] fs1] eqn:Hw; [discriminate|].
    intros H. injection H as <- <-.
    destruct (WriteFile_cases _ _ _ _ _ Hw) as (_ & _ & Hd).
    exists enc. split; [now apply Hd|]. split; [reflexivity|].
    unfold CompressAndEncrypt, bind in Hc.
    destruct (gzip data) as [z|]; [|discriminate].
    destruct (Encrypt_shape gcm_seal rnd _ _ _ Hc) as (nonce & Hn & ->).
    rewrite length_app, Hn. unfold NonceSize. lia.
  - intros r fs'. destruct (content fs src) as [data|e0] eqn:Hsrc.
    + destruct (DecryptAndDecompress _ _ data key) as [plain|e1] eqn:Hd.
      * intros Hw.
        destruct (WriteFile_cases _ _ _ _ _ Hw) as (Hframe & Hdst & _).
        split; [exact Hframe|].
        destruct Hdst as [->|[n Hn]]; [now left|].
        right. now exists data, plain, n.
      * intros H; injection H as _ <-. split; [reflexivity|now left].
    + intros H; injection H as _ <-. split; [reflexivity|now left].
  - intros fs'. destruct (content fs src) as [data|e0]; [|discriminate].
    destruct (DecryptAndDecompress _ _ data key) as [plain|e1] eqn:Hd;
      [|discriminate].
    intros Hw. destruct (WriteFile_cases _ _ _ _ _ Hw) as (_ & _ & Hc).
    exists data, plain. repeat split; [assumption|now apply Hc].
Qed.

(** Contracts of the library primitives, as for the in-memory round
    trip. *)
Hypothesis gzip_total : forall x, exists z, gzip x = Ok z.
Hypothesis gunzip_gzip : forall x z, gzip x = Ok z -> gunzip z = Ok x.
Hypothesis open_seal : forall k n x,
    length k = keySize -> length n = NonceSize ->
    gcm_open k n (gcm_seal k n x) = Ok x.

Lemma seal_then_open (x k nonce : bytes) :
  length k = keySize ->
  ReadFull rnd NonceSize = Ok nonce ->
  exists sealed,
    CompressAndEncrypt gcm_seal gzip rnd x k = Ok sealed /\
    DecryptAndDecompress gcm_open gunzip sealed k = Ok x.
Proof.
  intros Hk Hr. destruct (gzip_total x) as [z Hz].
  exists (nonce ++ gcm_seal k nonce z). split.
  - unfold CompressAndEncrypt, Encrypt, bind, NewGCM.
    rewrite Hz, (NewCipher_32 k Hk), Hr. reflexivity.
  - unfold DecryptAndDecompress, bind.
    rewrite (Decrypt_split gcm_open nonce _ k Hk (ReadFull_length rnd _ _ Hr)).
    rewrite (open_seal k nonce z Hk (ReadFull_length rnd _ _ Hr)).
    now apply gunzip_gzip.
Qed.

(** X25: a file encrypted with [EncryptFile] and decrypted with
    [DecryptFile] under the same 32-byte key comes back byte for byte,
    provided the source can be read, the random source delivers the nonce
    and both writes go through; the size [EncryptFile] returns is the
    size of the encrypted file. *)
Theorem EncryptFile_DecryptFile_roundtrip
        (src enc out : string) (key data : bytes) (fs : FS) :
  length key = keySize ->
  (exists nonce, ReadFull rnd NonceSize = Ok nonce) ->
  ReadFile fs src = Ok data ->
  deny_write fs enc = None -> short_write fs enc = None ->
  deny_write fs out = None -> short_write fs out = None ->
  exists sealed fs1 fs2,
    EncryptFile src enc key fs = (Ok (Z.of_nat (length sealed)), fs1) /\
    content fs1 enc = Ok sealed /\
    DecryptFile enc out key fs1 = (None, fs2) /\
    content fs2 out = Ok data.
Proof.
  intros Hk [nonce Hr] Hsrc Henc Henc' Hout Hout'.
  destruct (seal_then_open data key nonce Hk Hr) as (sealed & Hs & Ho).
  unfold Crypto.EncryptFile, Crypto.DecryptFile. rewrite Hsrc, Hs.
  unfold WriteFile at 1. rewrite Henc, Henc'.
  eexists sealed, _, _. split; [reflexivity|].
  unfold ReadFile. simpl. rewrite String.eqb_refl.
  split; [reflexivity|]. rewrite Ho.
  unfold WriteFile. simpl. rewrite Hout, Hout'. split; [reflexivity|].
  simpl. now rewrite String.eqb_refl.
Qed.

End FileEncryption.

(** * The further properties on the concrete sessions *)

Section MoreRuns.

Import Catalog Backup Scenario Fixtures.

Lemma stripEncExtension_member_name_witness :
  stripEncExtension (HashPath a_txt ++ ".enc") = HashPath a_txt.
Proof.
  apply (proj1 (stripEncExtension_member_name (HashPath a_txt))).
  discriminate.
Defined.

Lemma GetOriginalPath_of_member_witness :
  GetOriginalPath catalog_v13 (HashedName a_v1 ++ ".enc") = Ok a_txt.
Proof.
  apply (proj1 (GetOriginalPath_of_member catalog_v13 a_v1 "" eq_refl)).
  - now left.
  - discriminate.
  - intros r [<-|[<-|[]]] _; reflexivity.
Defined.

Lemma GetFileHistory_newest_first_witness :
  exists vs, GetFileHistory catalog_v13 a_txt = Ok vs /\
             option_map VTimestamp (hd_error vs) = Some (Timestamp a_v3).
Proof.
  destruct (GetFileHistory_newest_first catalog_v13 a_txt eq_refl)
    as (vs & Hvs & _ & _ & (latest & Hl & Hhd) & _).
  exists vs. split; [exact Hvs|].
  vm_compute in Hl. injection Hl as <-. exact Hhd.
Defined.

Lemma GetBackupDates_distinct_descending_witness :
  exists ds, GetBackupDates catalog_v13 = Ok ds /\ NoDup ds /\
             In (Timestamp a_v3) ds.
Proof.
  destruct (GetBackupDates_distinct_descending catalog_v13 eq_refl)
    as (ds & Hds & Hnd & _ & Hin & _).
  exists ds. split; [exact Hds|]. split; [exact Hnd|].
  apply Hin. exists a_v3. split; [right; now left|reflexivity].
Defined.

Lemma GetAllFilesWithInfo_one_per_path_witness :
  exists infos, GetAllFilesWithInfo Base catalog_v13 = Ok infos /\
                NoDup (map InfoOrigPath infos).
Proof.
  destruct (GetAllFilesWithInfo_one_per_path Base catalog_v13 eq_refl)
    as (infos & Hi & Hnd & _).
  now exists infos.
Defined.

Lemma GetStats_after_AddEntries_witness :
  11 = 5 + sum_sizes (map Size [a_v3]).
Proof.
  exact (proj1 (proj2 (proj2
           (GetStats_after_AddEntries catalog_v1 catalog_v13 no_faults [a_v3]
              1 5 53 2 11 107 eq_refl eq_refl eq_refl)))).
Defined.

Lemma FileExists_iff_latest_witness :
  exists b latest, FileExists catalog_v1 "/data/b.bin" = Ok b /\
                   GetLatestVersion catalog_v1 "/data/b.bin" = Ok latest /\
                   (b = true <-> latest <> None).
Proof.
  destruct (FileExists_iff_latest catalog_v1 "/data/b.bin" eq_refl)
    as (b & latest & Hb & Hl & Hiff & _).
  now exists b, latest.
Defined.


Lemma GetFilesAtTime_exact_witness :
  exists l, GetFilesAtTime catalog_v13 (T1 + Second) = Ok l /\ In a_v1 l /\
            ~ In a_v3 l.
Proof.
  destruct (GetFilesAtTime_exact catalog_v13 (T1 + Second) eq_refl)
    as (l & Hl & _ & Hin).
  assert (Hzone : stored_in_zone (zone (T1 + Second)) (dosyalar catalog_v13))
    by (intros e [<-|[<-|[]]]; reflexivity).
  specialize (Hin Hzone).
  exists l. split; [exact Hl|]. split.
  - apply Hin. split; [now left|]. split; [vm_compute; discriminate|].
    intros e' [<-|[<-|[]]] _ Ht; vm_compute in Ht |- *;
      [discriminate|now contradiction Ht].
  - intros H3. apply Hin in H3. destruct H3 as [_ [Ht _]].
    vm_compute in Ht. now apply Ht.
Defined.



Lemma ClearAll_forgets_everything_witness :
  exists c', ClearAll catalog_v13 = (None, c') /\
             GetLatestVersion c' a_txt = Ok None.
Proof.
  destruct (proj1 (ClearAll_forgets_everything catalog_v13) eq_refl)
    as (c' & Hc & _ & Hl & _).
  exists c'. split; [exact Hc|apply Hl].
Defined.

Lemma UpdatePackedSize_only_packed_size_witness :
  exists c', UpdatePackedSize catalog_v13 a_txt 60 = (None, c') /\
             length (dosyalar c') = 2%nat.
Proof.
  destruct (UpdatePackedSize_only_packed_size catalog_v13 a_txt 60 eq_refl)
    as (c' & Hc & Hlen & _).
  now exists c'.
Defined.

Lemma Run_clears_the_running_flag_witness :
  isRunning (service catalog_v1) = false /\
  config (service catalog_v1) = config (service empty_catalog).
Proof.
  destruct (proj1 (Run_clears_the_running_flag Abs Ext Dir ToLower HashPath
                     _ _ _ _ _ first_session_runs) eq_refl)
    as (Hr & Hc & _).
  split; [exact Hr|exact Hc].
Defined.

Lemma shards_numbered_from_one_witness :
  map shard_part
      [ {| shard_part := 1; shard_members := [20 * MiB; 10 * MiB] |};
        {| shard_part := 2; shard_members := [MiB] |} ]
  = seq 1 2.
Proof.
  exact (shards_numbered_from_one Abs Ext Dir ToLower HashPath
           _ _ _ _ _ big_session_runs).
Defined.


Lemma first_scan :
  scan_dirs Abs Ext ToLower HashPath (service empty_catalog) first_session
            (BackupDirs (config (service empty_catalog))) [] []
  = Return [ {| path := a_txt; hashedName := HashPath a_txt;
                contentHash := hash_hello; size := 5;
                modTime := T1 - Second |} ].
Proof. vm_compute. reflexivity. Qed.

Lemma scan_schedules_each_file_once_witness :
  NoDup (map (fun f => Abs (path f))
             [ {| path := a_txt; hashedName := HashPath a_txt;
                  contentHash := hash_hello; size := 5;
                  modTime := T1 - Second |} ]).
Proof.
  exact (scan_schedules_each_file_once Abs Ext ToLower HashPath
           _ _ _ first_scan).
Defined.

Lemma scan_schedules_regular_files_witness :
  exists dir w,
    In dir ["/data"] /\ In w (data_dir 5) /\ w_isDir w = false /\
    a_txt = w_path w.
Proof.
  destruct (scan_schedules_regular_files Abs Ext ToLower HashPath
              _ _ _ first_scan _ (or_introl eq_refl))
    as (dir & w & Hd & Hw & _ & Hdir & _ & Hp & _).
  now exists dir, w.
Defined.

Lemma unchanged_session_uploads_nothing_witness :
  run (service catalog_v1) first_session
  = Return (None, service catalog_v1,
            {| backupID_at := Some (T1 + 90 * ms)%time; timestamp_at := None;
               shards := []; addEntriesCalled := false;
               catalogUploaded := false |}).
Proof.
  apply (unchanged_session_uploads_nothing Abs Ext Dir ToLower HashPath
           (service catalog_v1) first_session eq_refl).
  - discriminate.
  - discriminate.
  - reflexivity.
  - intros dir w _ [<-|[<-|[]]] Hreg h Hh; [discriminate Hreg|].
    injection Hh as <-. exists a_v1. split; reflexivity.
Defined.

Lemma scan_with_failing_catalog_witness :
  exists scanned seenPaths',
    scanDirectoryIncrementalWithProgress
      Abs Ext ToLower HashPath (service closed_catalog) first_session
      "/data" []
    = Return ([ {| path := a_txt; hashedName := HashPath a_txt;
                   contentHash := hash_hello; size := 5;
                   modTime := T1 - Second |} ],
              scanned, 0, None, seenPaths').
Proof.
  apply (scan_with_failing_catalog Abs Ext ToLower HashPath
           (service closed_catalog) first_session
           "sql: database is closed" "/data" [] eq_refl).
  - vm_compute. repeat constructor. intros [].
  - intros w _ _ [].
Defined.

Lemma commit_follows_uploads_witness :
  uploadTar first_session 1 = None.
Proof.
  apply (proj1 (commit_follows_uploads Abs Ext Dir ToLower HashPath
                  _ _ _ _ _ first_session_runs) eq_refl
               {| shard_part := 1; shard_members := [53] |}).
  now left.
Defined.

Lemma RecoverCatalog_appends_snapshots_witness :
  exists extra,
    RecoverCatalog (service empty_catalog) (Ok snapshots)
    = (None, {| config := cfg;
                catalog := with_rows empty_catalog ([] ++ extra);
                isRunning := false |}) /\
    forall r, In r extra ->
      exists rows f, In (Fetched (Ok rows) f) snapshots /\ In r rows.
Proof.
  destruct (proj2 (proj2 (RecoverCatalog_appends_snapshots
                            (service empty_catalog) (Ok snapshots))
                         ltac:(discriminate))
                  snapshots eq_refl) as (extra & Hrec & Hfrom & _).
  exists extra. split; [exact Hrec|exact Hfrom].
Defined.

Lemma backup_directories_stay_distinct_witness :
  NoDup (BackupDirs (snd (AddBackupDirectory cfg false None "/home"))) /\
  In "/home" (BackupDirs (snd (AddBackupDirectory cfg false None "/home"))).
Proof.
  destruct (backup_directories_stay_distinct cfg false None None "/home")
    as (Hnd & _ & _ & Hin & _).
  - vm_compute. repeat constructor. intros [].
  - split; [exact Hnd|now apply Hin].
Defined.

Lemma committed_version_needs_no_backup_witness :
  GetLatestVersion catalog_v13 a_txt = Ok (Some a_v3) /\
  NeedsBackup catalog_v13 a_txt hash_hello2 6 = Return (Ok false).
Proof.
  apply (committed_version_needs_no_backup
           catalog_v1 catalog_v13 no_faults [a_v3] a_v3 6 eq_refl).
  - now left.
  - intros r [<-|[]] _. split; [reflexivity|vm_compute; reflexivity].
  - intros r [<-|[]] _. reflexivity.
Defined.

Lemma committed_files_are_up_to_date_witness :
  exists added,
    dosyalar {| dosyalar := [a_v1; a_hasty]; db_err := None |}
    = dosyalar catalog_v1 ++ added /\
    forall e, In e added -> Timestamp e = now hasty_session 1%nat.
Proof.
  destruct (committed_files_are_up_to_date Abs Ext Dir ToLower HashPath
              (service catalog_v1) hasty_session _ _ hasty_session_runs)
    as (added & Hrows & Hall).
  - intros r [<-|[]]. split; [reflexivity|vm_compute; reflexivity].
  - exists added. split; [exact Hrows|].
    intros e He. exact (proj1 (Hall e He)).
Defined.

Lemma file_operations_write_destination_only_witness :
  Crypto.content
    (snd (Crypto.EncryptFile Crypto.Toy.seal Crypto.Toy.gzip Crypto.Toy.rnd
                             a_txt "/tmp/a.enc" Crypto.Toy.key disk)) a_txt
  = Ok hello.
Proof.
  destruct (proj1 (file_operations_write_destination_only
                     Crypto.Toy.seal Crypto.Toy.open Crypto.Toy.gzip
                     Crypto.Toy.gunzip Crypto.Toy.rnd
                     a_txt "/tmp/a.enc" Crypto.Toy.key disk)
                  _ _ (surjective_pairing _)) as (Hother & _).
  rewrite Hother; [reflexivity|discriminate].
Defined.

Lemma EncryptFile_DecryptFile_roundtrip_witness :
  exists sealed fs1 fs2,
    Crypto.EncryptFile Crypto.Toy.seal Crypto.Toy.gzip Crypto.Toy.rnd
                       a_txt "/tmp/a.enc" Crypto.Toy.key disk
    = (Ok (Z.of_nat (length sealed)), fs1) /\
    Crypto.content fs1 "/tmp/a.enc" = Ok sealed /\
    Crypto.DecryptFile Crypto.Toy.open Crypto.Toy.gunzip
                       "/tmp/a.enc" "/tmp/a.txt" Crypto.Toy.key fs1
    = (None, fs2) /\
    Crypto.content fs2 "/tmp/a.txt" = Ok hello.
Proof.
  apply (EncryptFile_DecryptFile_roundtrip
           Crypto.Toy.seal Crypto.Toy.open Crypto.Toy.gzip Crypto.Toy.gunzip
           Crypto.Toy.rnd).
  - intros x. now exists (x1f%byte :: x).
  - intros x z Hz. injection Hz as <-. reflexivity.
  - intros k n x _ _. apply Toy_open_seal.
  - reflexivity.
  - now exists (repeat x07%byte 12).
  - reflexivity.
  - reflexivity.
  - reflexivity.
  - reflexivity.
  - reflexivity.
Defined.

End MoreRuns.
